(** * Catalog API: a shallow embedding of the request-serving engine

    The development follows [src/catalog_api]: the locale resolver
    ([lang.py]), the helpers of [util.py], the tables of [constants.py],
    the token bucket, the Provider client, the backfill scheduler and the
    card builders of [app.py], and the assemblers of [server.py].

    Conventions of the embedding.
    - Python [float] values (rates, tokens, clock readings) are exact
      rationals [Q]; comparisons are the boolean tests [Qltb], [Qleb].
    - Python [str] is [string]; text is treated as ASCII: bytes above 127
      are neither white space nor letters with a case.
    - JSON values, Python dictionaries decoded from JSON and the cards
      sent to clients are [jval]; a dictionary keeps its insertion order.
    - A Python exception is the outcome [Raised] of the [exn] monad.
    - Code that reads the clock, the store, the caches, the state of the
      scheduler or the Provider is a computation of the monad [M] over a
      [World]; there an exception is the outcome [Exc].  [time.time()]
      is the next reading of the world's clock; the constructors, which
      read it once, take it as an argument [now].
    - The JSON decoder, [LIKE] and the constraints of the store are
      parameters of the section [Catalog].
    - An SQL statement is the list operation it denotes on the rows of
      the store; ties of an [ORDER BY] keep the order of the rows. *)

From Stdlib Require Import ZArith QArith Qround Lqa Lia Bool Ascii String List.
From stdpp Require Import base option list gmap strings pretty.
Import ListNotations.

Local Open Scope string_scope.
Local Open Scope Z_scope.

(** ** Rationals as Python floats *)

Definition Qleb (a b : Q) : bool := Qle_bool a b.
Definition Qltb (a b : Q) : bool := negb (Qle_bool b a).
Definition Qnonzero (a : Q) : bool := negb (Qeq_bool a 0).

(** [min(a, b)] and [max(a, b)] return the first argument unless the
    second is strictly smaller (resp. larger). *)
Definition py_min (a b : Q) : Q := if Qltb b a then b else a.
Definition py_max (a b : Q) : Q := if Qltb a b then b else a.

(** ** Python strings *)

Definition is_space (c : ascii) : bool :=
  let n := nat_of_ascii c in
  (((9 <=? n) && (n <=? 13)) || ((28 <=? n) && (n <=? 32)))%nat.

Definition lower_char (c : ascii) : ascii :=
  let n := nat_of_ascii c in
  if ((65 <=? n) && (n <=? 90))%nat then ascii_of_nat (n + 32) else c.

Definition upper_char (c : ascii) : ascii :=
  let n := nat_of_ascii c in
  if ((97 <=? n) && (n <=? 122))%nat then ascii_of_nat (n - 32) else c.

Fixpoint str_map (f : ascii -> ascii) (s : string) : string :=
  match s with
  | EmptyString => EmptyString
  | String c r => String (f c) (str_map f r)
  end.

Definition lower : string -> string := str_map lower_char.
Definition upper : string -> string := str_map upper_char.

Fixpoint lstrip (s : string) : string :=
  match s with
  | EmptyString => EmptyString
  | String c r => if is_space c then lstrip r else s
  end.

(** [rstrip] keeps a character when it is not white space or when
    something is left after it. *)
Fixpoint rstrip (s : string) : string :=
  match s with
  | EmptyString => EmptyString
  | String c r =>
      match rstrip r with
      | EmptyString => if is_space c then EmptyString else String c EmptyString
      | r' => String c r'
      end
  end.

Definition strip (s : string) : string := rstrip (lstrip s).

(** [s.replace(a, b)] for one-character [a] and [b]. *)
Definition replace_char (a b : ascii) : string -> string :=
  str_map (fun c => if Ascii.eqb c a then b else c).

(** [sep in s] *)
Fixpoint str_contains (sep : ascii) (s : string) : bool :=
  match s with
  | EmptyString => false
  | String c r => Ascii.eqb c sep || str_contains sep r
  end.

(** [s.split(sep, 1)]: the text before the first [sep] and the text after
    it; the whole string and nothing when [sep] does not occur. *)
Fixpoint split_once (sep : ascii) (s : string) : string * option string :=
  match s with
  | EmptyString => (EmptyString, None)
  | String c r =>
      if Ascii.eqb c sep then (EmptyString, Some r)
      else let '(a, b) := split_once sep r in (String c a, b)
  end.

(** Truthiness of [str] and of [str | None]. *)
Definition str_truthy (s : string) : bool :=
  match s with EmptyString => false | _ => true end.

Definition ostr_truthy (o : option string) : bool :=
  match o with Some s => str_truthy s | None => false end.

(** [s or None] *)
Definition str_or_none (s : string) : option string :=
  if str_truthy s then Some s else None.

(** [o or the empty string] *)
Definition ostr_or_empty (o : option string) : string :=
  match o with Some s => s | None => EmptyString end.

(** ** lang.py *)

Definition _split_lang (s0 : string) : string * option string :=
  let s := strip s0 in
  if negb (str_truthy s) then ("en", None)
  else
    let s := replace_char "_" "-" s in
    if str_contains "-" s then
      match split_once "-" s with
      | (a, Some b) =>
          let a := lower (strip a) in
          let b := upper (strip b) in
          (if str_truthy a then a else "en", str_or_none b)
      | (a, None) => (lower s, None)
      end
    else (lower s, None).

Definition _accept_lang (header_val : option string) : string * option string :=
  if negb (ostr_truthy header_val) then ("en", None)
  else
    let first := strip (fst (split_once "," (ostr_or_empty header_val))) in
    let tag := strip (fst (split_once ";" first)) in
    _split_lang tag.

(** [qs] is the dictionary built by [parse_qs]: each key maps to the list
    of its values. *)
Definition qs_first (qs : gmap string (list string)) (k : string) : string :=
  match qs !! k with
  | Some (x :: _) => x
  | _ => EmptyString
  end.

Definition _pick_lang (qs : gmap string (list string))
    (accept_language : option string) : string * option string :=
  let v := strip (qs_first qs "lang") in
  if str_truthy v then _split_lang v else _accept_lang accept_language.

Definition _lang_tag (iso639 : string) (iso3166 : option string) : string :=
  match iso3166 with
  | Some r => if str_truthy r then iso639 ++ "-" ++ r else iso639
  | None => iso639
  end.

(** ** app.py: the token bucket *)

Local Open Scope Q_scope.

Record _TokenBucket := {
  tb_rate : Q;
  tb_capacity : Q;
  tb_tokens : Q;
  tb_t : Q
}.

(** [_TokenBucket(rate, capacity)] created when the clock reads [now]. *)
Definition TokenBucket_init (rate : Q) (capacity : option Q) (now : Q)
  : _TokenBucket :=
  let cap := match capacity with Some c => c | None => rate end in
  {| tb_rate := rate; tb_capacity := cap; tb_tokens := cap; tb_t := now |}.

(** The part of one loop iteration of [acquire] that runs under the lock
    when the clock reads [now]: the refill. *)
Definition refill (b : _TokenBucket) (now : Q) : _TokenBucket :=
  let dt := now - tb_t b in
  if Qltb 0 dt then
    {| tb_rate := tb_rate b; tb_capacity := tb_capacity b;
       tb_tokens := py_min (tb_capacity b) (tb_tokens b + dt * tb_rate b);
       tb_t := now |}
  else b.

(** One loop iteration of [acquire(n)]: [inl b'] when [n] tokens were
    taken and the call returns, [inr (b', need)] when the caller has to
    wait [need] seconds (it sleeps only when [need > 0]) and try again. *)
Definition acquire_step (b : _TokenBucket) (n : Q) (now : Q)
  : _TokenBucket + (_TokenBucket * Q) :=
  let b1 := refill b now in
  if Qleb n (tb_tokens b1) then
    inl {| tb_rate := tb_rate b1; tb_capacity := tb_capacity b1;
           tb_tokens := tb_tokens b1 - n; tb_t := tb_t b1 |}
  else inr (b1, (n - tb_tokens b1) / tb_rate b1).

(** [acquire(n)]: [clock] lists the successive readings of [time.time()],
    one per loop iteration.  The result is the bucket and whether the
    call has returned within these readings. *)
Fixpoint acquire_loop (b : _TokenBucket) (n : Q) (clock : list Q)
  : _TokenBucket * bool :=
  match clock with
  | [] => (b, false)
  | now :: rest =>
      match acquire_step b n now with
      | inl b' => (b', true)
      | inr (b', _) => acquire_loop b' n rest
      end
  end.

Definition acquire (b : _TokenBucket) (n : Q) (clock : list Q)
  : _TokenBucket * bool :=
  if Qleb (tb_rate b) 0 then (b, true) else acquire_loop b n clock.

(** A sequence of [acquire] calls, each with its amount and its clock
    readings; the bucket after the last one. *)
Fixpoint acquire_all (b : _TokenBucket) (calls : list (Q * list Q))
  : _TokenBucket :=
  match calls with
  | [] => b
  | (n, clock) :: rest => acquire_all (fst (acquire b n clock)) rest
  end.

(** ** app.py: configuration read by [App.__init__] *)

(** The environment: a numeric variable is [None] when it is unset or
    empty, else the number it spells. *)
Record Env := {
  env_TMDB_API_KEY : option string;
  file_TMDB_API_KEY : option string;
  env_TMDB_RPS : option Q;
  env_TMDB_RPS_FOREGROUND : option Q;
  env_BACKFILL_WORKERS : option Z;
  env_BACKFILL_QUEUE_LIMIT : option Z
}.

Definition init_tmdb_rps (e : Env) : Q :=
  match env_TMDB_RPS e with Some r => r | None => 47 end.

Definition init_fg_cfg (e : Env) : Q :=
  match env_TMDB_RPS_FOREGROUND e with Some r => r | None => 7 end.

Definition init_fg (e : Env) : Q :=
  let rps := init_tmdb_rps e in
  if Qltb 1 rps then py_min (init_fg_cfg e) (rps - 1) else rps.

Definition init_bg (e : Env) : Q :=
  py_max 0 (init_tmdb_rps e - init_fg e).

Definition init_tmdb_fg_limiter (e : Env) (now : Q) : _TokenBucket :=
  let fg := init_fg e in
  TokenBucket_init fg (Some (py_max 1 fg)) now.

Definition init_tmdb_bg_limiter (e : Env) (now : Q) : option _TokenBucket :=
  let bg := init_bg e in
  if Qltb 0 bg then Some (TokenBucket_init bg (Some (py_max 1 bg)) now)
  else None.

Local Close Scope Q_scope.

(** ** Python values decoded from JSON *)

#[local] Set Warnings "-register-all".

Inductive jval : Type :=
| JNull
| JBool (b : bool)
| JInt (n : Z)
| JFloat (q : Q)
| JStr (s : string)
| JArr (l : list jval)
| JObj (kv : list (string * jval)).

(** A pure computation that may raise a Python exception. *)
Inductive exn (A : Type) : Type :=
| Val (a : A)
| Raised.
Arguments Val {A} a.
Arguments Raised {A}.

Definition ebind {A B : Type} (e : exn A) (k : A -> exn B) : exn B :=
  match e with Val a => k a | Raised => Raised end.

Notation "x <~ e ;; k" := (ebind e (fun x => k))
  (at level 100, e at next level, right associativity).

(** [bool(v)] *)
Definition jtruthy (v : jval) : bool :=
  match v with
  | JNull => false
  | JBool b => b
  | JInt n => negb (n =? 0)
  | JFloat q => Qnonzero q
  | JStr s => str_truthy s
  | JArr l => match l with [] => false | _ => true end
  | JObj kv => match kv with [] => false | _ => true end
  end.

(** [a or b] *)
Definition jor (a b : jval) : jval := if jtruthy a then a else b.

(** Lookup in a dictionary kept as an association list. *)
Fixpoint assoc (k : string) (kv : list (string * jval)) : option jval :=
  match kv with
  | [] => None
  | (k', v) :: rest => if String.eqb k k' then Some v else assoc k rest
  end.

(** [d[k] = v]: replaces the value in place, or appends a new key. *)
Fixpoint assoc_set (k : string) (v : jval) (kv : list (string * jval))
  : list (string * jval) :=
  match kv with
  | [] => [(k, v)]
  | (k', v') :: rest =>
      if String.eqb k k' then (k', v) :: rest else (k', v') :: assoc_set k v rest
  end.

(** [d.get(k)] on a dictionary. *)
Definition dget (k : string) (kv : list (string * jval)) : jval :=
  match assoc k kv with Some v => v | None => JNull end.

(** [d[k]]: [KeyError] when the key is missing. *)
Definition dindex (k : string) (kv : list (string * jval)) : exn jval :=
  match assoc k kv with Some v => Val v | None => Raised end.

(** [k in d] *)
Definition dhas (k : string) (kv : list (string * jval)) : bool :=
  match assoc k kv with Some _ => true | None => false end.

(** [isinstance(v, dict)]: the dictionary, if it is one. *)
Definition as_dict (v : jval) : option (list (string * jval)) :=
  match v with JObj kv => Some kv | _ => None end.

(** [v.get(k)] on any value: [AttributeError] unless [v] is a dictionary. *)
Definition jget (k : string) (v : jval) : exn jval :=
  match v with JObj kv => Val (dget k kv) | _ => Raised end.

(** [v.strip()]: [AttributeError] unless [v] is a string. *)
Definition jstrip (v : jval) : exn string :=
  match v with JStr s => Val (strip s) | _ => Raised end.

(** [v.lower()] *)
Definition jlower (v : jval) : exn string :=
  match v with JStr s => Val (lower s) | _ => Raised end.

(** [v == "text"] *)
Definition jstr_eqb (v : jval) (s : string) : bool :=
  match v with JStr s' => String.eqb s' s | _ => false end.

Definition ojs (o : option string) : jval :=
  match o with Some s => JStr s | None => JNull end.

Definition ojq (o : option Q) : jval :=
  match o with Some q => JFloat q | None => JNull end.

Definition ojz (o : option Z) : jval :=
  match o with Some n => JInt n | None => JNull end.

(** [int(text)] for ASCII text: optional sign, decimal digits, single
    underscores between digits, white space around. *)
Definition digit_of (c : ascii) : option Z :=
  let n := nat_of_ascii c in
  if ((48 <=? n) && (n <=? 57))%nat then Some (Z.of_nat n - 48) else None.

Fixpoint parse_digits (s : string) (acc : Z) (after_digit : bool) : option Z :=
  match s with
  | EmptyString => if after_digit then Some acc else None
  | String c r =>
      match digit_of c with
      | Some d => parse_digits r (10 * acc + d) true
      | None =>
          if Ascii.eqb c "_" && after_digit then parse_digits r acc false
          else None
      end
  end.

Definition py_int_of_string (s0 : string) : option Z :=
  match strip s0 with
  | String "-" r => Z.opp <$> parse_digits r 0 false
  | String "+" r => parse_digits r 0 false
  | s => parse_digits s 0 false
  end.

(** [int(v)]: floats are truncated towards zero. *)
Definition py_int (v : jval) : exn Z :=
  match v with
  | JInt n => Val n
  | JBool b => Val (if b then 1 else 0)
  | JFloat q => Val (Z.quot (Qnum q) (Z.pos (Qden q)))
  | JStr s => match py_int_of_string s with Some n => Val n | None => Raised end
  | _ => Raised
  end.

(** [for x in v]: the items a loop over [v] visits; [TypeError] for a
    number or a Boolean.  A string yields its characters, a dictionary its
    keys. *)
Fixpoint chars (s : string) : list jval :=
  match s with
  | EmptyString => []
  | String c r => JStr (String c EmptyString) :: chars r
  end.

Definition jiter (v : jval) : exn (list jval) :=
  match v with
  | JArr l => Val l
  | JStr s => Val (chars s)
  | JObj kv => Val (map (fun p => JStr (fst p)) kv)
  | _ => Raised
  end.

(** A value sqlite3 accepts as a statement parameter. *)
Definition sql_bindable (v : jval) : bool :=
  match v with JArr _ | JObj _ => false | _ => true end.

(** ** util.py *)

(** [(s[:240] + "…") if len(s) > 240 else (s or None)] *)
Definition clip240 (s : string) : jval :=
  if (240 <? String.length s)%nat then JStr (substring 0 240 s ++ "…")
  else ojs (str_or_none s).

(** [_year(d)].  [len(d)] raises for a number; every failure of
    [int(d[:4])] is caught. *)
Definition _year (d : jval) : exn jval :=
  if negb (jtruthy d) then Val JNull
  else
    match d with
    | JStr s =>
        if (String.length s <? 4)%nat then Val JNull
        else Val (ojz (py_int_of_string (substring 0 4 s)))
    | JArr _ | JObj _ => Val JNull
    | _ => Raised
    end.


(** ** constants.py *)

Definition PROVIDERS : list string :=
  ["Netflix"; "Prime"; "Max"; "Disney+"; "AppleTV"; "Paramount"].

Definition PROVIDER_NEEDLES : list (string * list string) :=
  [("Netflix", ["Netflix"]);
   ("Prime", ["Prime"]);
   ("Max", ["Max"]);
   ("Disney+", ["Disney+"; "Disney"]);
   ("AppleTV", ["Apple TV"; "AppleTV"; "Apple TV+"]);
   ("Paramount", ["Paramount"; "Paramount+"])].

Definition HOME_GENRES : list (string * list string) :=
  [("Comedy", ["Comedy"]);
   ("Action", ["Action"]);
   ("Horror", ["Horror"]);
   ("Romance", ["Romance"]);
   ("SciFi", ["Science Fiction"; "Sci-Fi & Fantasy"; "Sci-Fi"]);
   ("Drama", ["Drama"]);
   ("Animation", ["Animation"])].

Definition BROWSE_TABS : list (string * (string * option string)) :=
  [("popular", ("popular", None));
   ("rating", ("rating", None));
   ("recent", ("recent", None));
   ("action", ("genre", Some "Action"));
   ("adventure", ("genre", Some "Adventure"));
   ("animation", ("genre", Some "Animation"));
   ("comedy", ("genre", Some "Comedy"));
   ("crime", ("genre", Some "Crime"));
   ("documentary", ("genre", Some "Documentary"));
   ("drama", ("genre", Some "Drama"));
   ("family", ("genre", Some "Family"));
   ("fantasy", ("genre", Some "Fantasy"));
   ("history", ("genre", Some "History"));
   ("horror", ("genre", Some "Horror"));
   ("music", ("genre", Some "Music"));
   ("mystery", ("genre", Some "Mystery"));
   ("romance", ("genre", Some "Romance"));
   ("science-fiction", ("genre", Some "Science Fiction"));
   ("tv-movie", ("genre", Some "TV Movie"));
   ("thriller", ("genre", Some "Thriller"));
   ("war", ("genre", Some "War"));
   ("western", ("genre", Some "Western"))].

(** [d.get(k)] for the tables above. *)
Fixpoint table_get {V : Type} (k : string) (d : list (string * V)) : option V :=
  match d with
  | [] => None
  | (k', v) :: rest => if String.eqb k k' then Some v else table_get k rest
  end.

(** ** The store

    The tables hold the columns the statements of the serving path name.
    [NULL] is [None].  [db_tables] lists the tables that exist and the two
    [cols] fields the columns of [movies] and [series], as
    [App.__init__] reads them from the schema; a column that does not exist
    is [None] in every row. *)

Record movie_row := {
  m_id : Z;
  m_title : option string;
  m_vote_average : option Q;
  m_vote_count : option Z;
  m_release_date : option string;
  m_overview : option string;
  m_popularity : option Q;
  m_poster_path : option string;
  m_backdrop_path : option string;
  m_logos_json : option string;
  m_genres : option string
}.

Record series_row := {
  s_id : Z;
  s_name : option string;
  s_vote_average : option Q;
  s_vote_count : option Z;
  s_first_air_date : option string;
  s_overview : option string;
  s_popularity : option Q;
  s_poster_path : option string;
  s_backdrop_path : option string;
  s_logos_json : option string;
  s_genres : option string;
  s_networks : option string
}.

Record translation_row := {
  tr_media_type : string;
  tr_tmdb_id : Z;
  tr_iso_639_1 : string;
  tr_iso_3166_1 : string;
  tr_title : option string;
  tr_overview : option string
}.

Record video_row := {
  v_media_type : string;
  v_tmdb_id : Z;
  v_key : option string;
  v_site : option string
}.

Record cast_row := {
  c_media_type : string;
  c_tmdb_id : Z;
  c_credit_id : string
}.

Record season_row := { se_series_id : Z; se_season_number : Z }.

Record episode_row := {
  ep_series_id : Z;
  ep_season_number : Z;
  ep_episode_number : Z
}.

Record genre_row := { g_media_type : string; g_genre_id : Z; g_name : string }.

Record title_genre_row := {
  tg_media_type : string;
  tg_tmdb_id : Z;
  tg_genre_id : Z
}.

Record DB := {
  db_tables : list string;
  db_movies_cols : list string;
  db_series_cols : list string;
  movies : list movie_row;
  series : list series_row;
  title_translations : list translation_row;
  title_videos : list video_row;
  title_cast : list cast_row;
  tv_seasons : list season_row;
  tv_episodes : list episode_row;
  genres : list genre_row;
  title_genres : list title_genre_row
}.

(** [x in xs] for strings. *)
Definition str_in (x : string) (xs : list string) : bool :=
  existsb (String.eqb x) xs.

(** ** app.py: the application object *)

(** The fields [App.__init__] sets once. *)
Record App := {
  page_size : Z;
  similar_ttl_s : Q;
  tmdb_key : string;
  home_ttl_s : Q;
  trending_ttl_s : Q;
  backfill_ttl_s : Q;
  tmdb_rps : Q;
  tmdb_fg_limiter : _TokenBucket;
  tmdb_bg_limiter : option _TokenBucket;
  backfill_workers : Z;
  backfill_queue_limit : Z;
  movies_cols : list string;
  series_cols : list string;
  has_genres : bool;
  has_title_genres : bool;
  has_translations : bool;
  has_videos : bool;
  has_cast : bool;
  has_seasons : bool;
  has_episodes : bool
}.

Definition init_tmdb_key (e : Env) : string :=
  let env_key := ostr_or_empty (env_TMDB_API_KEY e) in
  let file_key := strip (ostr_or_empty (file_TMDB_API_KEY e)) in
  if str_truthy (strip env_key) then strip env_key else file_key.

(** [App(db_path)], created when the clock reads [now] on the store [db]. *)
Definition App_init (e : Env) (db : DB) (now : Q) : App :=
  {| page_size := 48;
     similar_ttl_s := 3 * 24 * 3600;
     tmdb_key := init_tmdb_key e;
     home_ttl_s := 90 * 60;
     trending_ttl_s := 90 * 60;
     backfill_ttl_s := 10 * 60;
     tmdb_rps := init_tmdb_rps e;
     tmdb_fg_limiter := init_tmdb_fg_limiter e now;
     tmdb_bg_limiter := init_tmdb_bg_limiter e now;
     backfill_workers :=
       match env_BACKFILL_WORKERS e with Some n => n | None => 8 end;
     backfill_queue_limit :=
       match env_BACKFILL_QUEUE_LIMIT e with Some n => n | None => 2000 end;
     movies_cols := db_movies_cols db;
     series_cols := db_series_cols db;
     has_genres := str_in "genres" (db_tables db);
     has_title_genres := str_in "title_genres" (db_tables db);
     has_translations := str_in "title_translations" (db_tables db);
     has_videos := str_in "title_videos" (db_tables db);
     has_cast := str_in "title_cast" (db_tables db);
     has_seasons := str_in "tv_seasons" (db_tables db);
     has_episodes := str_in "tv_episodes" (db_tables db) |}.

(** ** The world the application runs in *)

(** What the network gives back for one HTTPS request: a transport
    error, or a status line with headers and a body. *)
Inductive wire : Type :=
| WireError
| WireHTTP (status : Z) (headers : list (string * string)) (body : string).

Inductive bucket_name : Type := Foreground | Background.

(** One request sent to the Provider: the bucket that paid for it, the
    URL and the time-out in seconds. *)
Record request := {
  rq_bucket : bucket_name;
  rq_url : string;
  rq_timeout : Z
}.

(** The backfill key [(media_type, tid, lang_tag, 1 if full else 0)]. *)
Definition bkey : Type := string * Z * string * Z.

(** The closure [run] handed to the worker pool: the arguments of
    [_schedule_backfill] it captures, and the key. *)
Record task := {
  t_media_type : string;
  t_tid : Z;
  t_iso639 : string;
  t_iso3166 : option string;
  t_full : bool;
  t_key : bkey
}.

(** A statement a backfill task executes on its connection. *)
Inductive sql_write : Type :=
| W_base (media_type : string) (tid : Z) (fields : list (string * jval))
| W_logos (media_type : string) (tid : Z) (by_lang : list (string * jval))
| W_video (media_type : string) (tid : Z) (params : list jval)
| W_cast_delete (media_type : string) (tid : Z)
| W_cast_insert (media_type : string) (tid : Z) (params : list jval)
| W_translation (media_type : string) (tid : Z) (params : list jval)
| W_season (tid : Z) (sn : Z) (params : list jval)
| W_episode (tid : Z) (sn : Z) (en : Z) (params : list jval).

(** The mutable state: the clock, the Provider and the requests it has
    received (oldest first), the store, the statements committed to it by
    backfill tasks, the caches, and the backfill bookkeeping.
    [provider n url] is the answer to a request for [url] when [n]
    requests were made before it.  [clock n] is the [n]-th reading of
    [time.time()]. *)
Record World := {
  clock : nat -> Q;
  ticks : nat;
  provider : nat -> string -> wire;
  requests : list request;
  store : DB;
  store_ok : bool;
  committed : list sql_write;
  similar_cache : gmap (string * Z * string) (Q * list jval);
  home_cache : gmap string (Q * jval);
  trending_cache : gmap (string * string) (Q * list jval);
  backfill_recent : gmap bkey Q;
  backfill_inflight : gset bkey;
  backfill_queue : list task;
  tmdb_tls_bg : bool
}.

(** A computation on the world that returns or raises; the world at the
    moment of the exception is kept, for [finally] blocks. *)
Inductive res (A : Type) : Type :=
| Ok (a : A) (w : World)
| Exc (w : World).
Arguments Ok {A} a w.
Arguments Exc {A} w.

Definition M (A : Type) : Type := World -> res A.

Definition ret {A : Type} (a : A) : M A := fun w => Ok a w.
Definition raise {A : Type} : M A := fun w => Exc w.

Definition bind {A B : Type} (m : M A) (k : A -> M B) : M B :=
  fun w => match m w with Ok a w' => k a w' | Exc w' => Exc w' end.

Notation "x <- m ;; k" := (bind m (fun x => k))
  (at level 100, m at next level, right associativity).

(** A pure computation inside [M]. *)
Definition lift {A : Type} (e : exn A) : M A :=
  fun w => match e with Val a => Ok a w | Raised => Exc w end.

(** [try: body finally: fin] where [fin] does not raise. *)
Definition finally {A : Type} (body : M A) (fin : World -> World) : M A :=
  fun w => match body w with Ok a w' => Ok a (fin w') | Exc w' => Exc (fin w') end.

(** [try: body except Exception: handler] *)
Definition catch {A : Type} (body : M A) (handler : M A) : M A :=
  fun w => match body w with Ok a w' => Ok a w' | Exc w' => handler w' end.

(** The world a computation leaves, however it ends. *)
Definition world_of {A : Type} (r : res A) : World :=
  match r with Ok _ w => w | Exc w => w end.

Definition get_world : M World := fun w => Ok w w.

(** [time.time()] *)
Definition time_time : M Q :=
  fun w =>
    Ok (clock w (ticks w))
       {| clock := clock w; ticks := S (ticks w); provider := provider w;
          requests := requests w; store := store w; store_ok := store_ok w;
          committed := committed w; similar_cache := similar_cache w;
          home_cache := home_cache w; trending_cache := trending_cache w;
          backfill_recent := backfill_recent w;
          backfill_inflight := backfill_inflight w;
          backfill_queue := backfill_queue w; tmdb_tls_bg := tmdb_tls_bg w |}.

(** [self._con()]: a connection gives the tables as they are; opening it
    fails when the store cannot be opened. *)
Definition _con : M DB :=
  fun w => if store_ok w then Ok (store w) w else Exc w.


(** Field updates of the world. *)

Definition set_requests (x : list request) (w : World) : World :=
  {| clock := clock w; ticks := ticks w; provider := provider w;
     requests := x; store := store w; store_ok := store_ok w;
     committed := committed w; similar_cache := similar_cache w;
     home_cache := home_cache w; trending_cache := trending_cache w;
     backfill_recent := backfill_recent w;
     backfill_inflight := backfill_inflight w;
     backfill_queue := backfill_queue w; tmdb_tls_bg := tmdb_tls_bg w |}.

Definition set_committed (x : list sql_write) (w : World) : World :=
  {| clock := clock w; ticks := ticks w; provider := provider w;
     requests := requests w; store := store w; store_ok := store_ok w;
     committed := x; similar_cache := similar_cache w;
     home_cache := home_cache w; trending_cache := trending_cache w;
     backfill_recent := backfill_recent w;
     backfill_inflight := backfill_inflight w;
     backfill_queue := backfill_queue w; tmdb_tls_bg := tmdb_tls_bg w |}.

Definition set_similar_cache (x : gmap (string * Z * string) (Q * list jval))
    (w : World) : World :=
  {| clock := clock w; ticks := ticks w; provider := provider w;
     requests := requests w; store := store w; store_ok := store_ok w;
     committed := committed w; similar_cache := x;
     home_cache := home_cache w; trending_cache := trending_cache w;
     backfill_recent := backfill_recent w;
     backfill_inflight := backfill_inflight w;
     backfill_queue := backfill_queue w; tmdb_tls_bg := tmdb_tls_bg w |}.

Definition set_home_cache (x : gmap string (Q * jval)) (w : World) : World :=
  {| clock := clock w; ticks := ticks w; provider := provider w;
     requests := requests w; store := store w; store_ok := store_ok w;
     committed := committed w; similar_cache := similar_cache w;
     home_cache := x; trending_cache := trending_cache w;
     backfill_recent := backfill_recent w;
     backfill_inflight := backfill_inflight w;
     backfill_queue := backfill_queue w; tmdb_tls_bg := tmdb_tls_bg w |}.

Definition set_trending_cache (x : gmap (string * string) (Q * list jval))
    (w : World) : World :=
  {| clock := clock w; ticks := ticks w; provider := provider w;
     requests := requests w; store := store w; store_ok := store_ok w;
     committed := committed w; similar_cache := similar_cache w;
     home_cache := home_cache w; trending_cache := x;
     backfill_recent := backfill_recent w;
     backfill_inflight := backfill_inflight w;
     backfill_queue := backfill_queue w; tmdb_tls_bg := tmdb_tls_bg w |}.

Definition set_backfill_recent (x : gmap bkey Q) (w : World) : World :=
  {| clock := clock w; ticks := ticks w; provider := provider w;
     requests := requests w; store := store w; store_ok := store_ok w;
     committed := committed w; similar_cache := similar_cache w;
     home_cache := home_cache w; trending_cache := trending_cache w;
     backfill_recent := x;
     backfill_inflight := backfill_inflight w;
     backfill_queue := backfill_queue w; tmdb_tls_bg := tmdb_tls_bg w |}.

Definition set_backfill_inflight (x : gset bkey) (w : World) : World :=
  {| clock := clock w; ticks := ticks w; provider := provider w;
     requests := requests w; store := store w; store_ok := store_ok w;
     committed := committed w; similar_cache := similar_cache w;
     home_cache := home_cache w; trending_cache := trending_cache w;
     backfill_recent := backfill_recent w;
     backfill_inflight := x;
     backfill_queue := backfill_queue w; tmdb_tls_bg := tmdb_tls_bg w |}.

Definition set_backfill_queue (x : list task) (w : World) : World :=
  {| clock := clock w; ticks := ticks w; provider := provider w;
     requests := requests w; store := store w; store_ok := store_ok w;
     committed := committed w; similar_cache := similar_cache w;
     home_cache := home_cache w; trending_cache := trending_cache w;
     backfill_recent := backfill_recent w;
     backfill_inflight := backfill_inflight w;
     backfill_queue := x; tmdb_tls_bg := tmdb_tls_bg w |}.

Definition set_tmdb_tls_bg (x : bool) (w : World) : World :=
  {| clock := clock w; ticks := ticks w; provider := provider w;
     requests := requests w; store := store w; store_ok := store_ok w;
     committed := committed w; similar_cache := similar_cache w;
     home_cache := home_cache w; trending_cache := trending_cache w;
     backfill_recent := backfill_recent w;
     backfill_inflight := backfill_inflight w;
     backfill_queue := backfill_queue w; tmdb_tls_bg := x |}.

Definition modify (f : World -> World) : M unit := fun w => Ok tt (f w).

(** [str(n)] *)
Definition str_of_Z (n : Z) : string := pretty n.

Section Catalog.

(** The library functions the code calls and the repository does not
    define: [json.loads] on a text ([None] when it raises), the [LIKE]
    operator of the store ([sql_like pattern text]), and whether the store
    executes a statement, given the tables and the statements pending on
    the connection, or raises. *)
Variable json_loads : string -> option jval.
Variable sql_like : string -> string -> bool.
Variable sql_accepts : DB -> list sql_write -> sql_write -> bool.

(** ** app.py: the Provider client *)

(** The response object [opener.open] returns. *)
Record response := { resp_status : Z; resp_body : string }.

(** [self._tmdb_opener.open(req, timeout)]: the request is sent and
    logged; a transport error raises, and so does every status outside
    2xx ([HTTPError]). *)
Definition opener_open (b : bucket_name) (url : string) (timeout_s : Z)
  : M response :=
  fun w =>
    let w' := set_requests
                (requests w ++
                 [{| rq_bucket := b; rq_url := url; rq_timeout := timeout_s |}]) w in
    match provider w (length (requests w)) url with
    | WireError => Exc w'
    | WireHTTP st _ body =>
        if (200 <=? st) && (st <? 300)
        then Ok {| resp_status := st; resp_body := body |} w'
        else Exc w'
    end.

(** [_tmdb_open]: [None] without a key; else one token is taken from the
    background bucket when the thread is a backfill worker and that
    bucket exists, from the foreground bucket otherwise, and the request
    is sent. *)
Definition _tmdb_open (app : App) (url : string) (timeout_s : Z)
  : M (option response) :=
  if negb (str_truthy (tmdb_key app)) then ret None
  else
    w <- get_world ;;
    let b := if tmdb_tls_bg w && bool_decide (is_Some (tmdb_bg_limiter app))
             then Background else Foreground in
    r <- opener_open b url timeout_s ;;
    ret (Some r).

Definition _tmdb_get_json (app : App) (url : string) (timeout_s : Z)
  : M (option Z * option (list (string * jval))) :=
  catch
    (resp <- _tmdb_open app url timeout_s ;;
     match resp with
     | None => ret (None, None)
     | Some r =>
         let st := resp_status r in
         if negb (st =? 200) then ret (Some st, None)
         else
           match json_loads (resp_body r) with
           | None => raise
           | Some data => ret (Some st, as_dict data)
           end
     end)
    (ret (None, None)).

(** [st != 200 or not data] *)
Definition fetch_failed (r : option Z * option (list (string * jval))) : bool :=
  match r with
  | (Some st, Some (_ :: _)) => negb (st =? 200)
  | _ => true
  end.

(** The dictionary of a fetch that did not fail. *)
Definition fetched (r : option Z * option (list (string * jval)))
  : list (string * jval) :=
  match r with (_, Some d) => d | _ => [] end.

(** ** app.py: what a title lacks *)

Record missing := {
  lang_tag : string;
  need_base : bool;
  need_logos : bool;
  need_translations : bool;
  need_cast : bool;
  need_videos : bool;
  need_tv : bool
}.

Definition no_row {A : Type} (p : A -> bool) (rows : list A) : bool :=
  match filter (fun r => is_true (p r)) rows with [] => true | _ => false end.

Definition media_cols (app : App) (media_type : string) : list string :=
  if String.eqb media_type "movie" then movies_cols app else series_cols app.

(** [SELECT id, logos_json FROM movies|series WHERE id=? LIMIT 1]: the
    logos text of the row, if there is a row. *)
Definition base_row (con : DB) (media_type : string) (tid : Z)
  : option (option string) :=
  if String.eqb media_type "movie"
  then m_logos_json <$> head (filter (fun r => m_id r = tid) (movies con))
  else s_logos_json <$> head (filter (fun r => s_id r = tid) (series con)).

Definition _missing_parts (app : App) (con : DB) (media_type : string)
    (tid : Z) (iso639 : string) (iso3166 : option string) (full : bool)
  : option missing :=
  if negb (str_truthy (tmdb_key app))
     || negb (str_in media_type ["movie"; "tv"]) || (tid <=? 0)
  then None
  else
    let base := base_row con media_type tid in
    let nbase := negb (bool_decide (is_Some base)) in
    let nlogos :=
      if str_in "logos_json" (media_cols app media_type)
      then nbase || negb (match base with Some l => ostr_truthy l | None => false end)
      else false in
    let ntr :=
      if has_translations app then
        if ostr_truthy iso3166 then
          no_row (fun r => String.eqb (tr_media_type r) media_type
                           && (tr_tmdb_id r =? tid)
                           && String.eqb (tr_iso_639_1 r) iso639
                           && String.eqb (tr_iso_3166_1 r) (ostr_or_empty iso3166))
                 (title_translations con)
        else
          no_row (fun r => String.eqb (tr_media_type r) media_type
                           && (tr_tmdb_id r =? tid)
                           && String.eqb (tr_iso_639_1 r) iso639)
                 (title_translations con)
      else false in
    let ncast :=
      full && has_cast app &&
      no_row (fun r => String.eqb (c_media_type r) media_type && (c_tmdb_id r =? tid))
             (title_cast con) in
    let nvid :=
      full && has_videos app &&
      no_row (fun r => String.eqb (v_media_type r) media_type && (v_tmdb_id r =? tid))
             (title_videos con) in
    let ntv :=
      full && String.eqb media_type "tv" &&
      ((has_seasons app && no_row (fun r => se_series_id r =? tid) (tv_seasons con))
       || (has_episodes app && no_row (fun r => ep_series_id r =? tid) (tv_episodes con))) in
    if negb (nbase || nlogos || ntr || ncast || nvid || ntv) then None
    else Some {| lang_tag := _lang_tag iso639 iso3166;
                 need_base := nbase; need_logos := nlogos;
                 need_translations := ntr; need_cast := ncast;
                 need_videos := nvid; need_tv := ntv |}.

(** ** app.py: the backfill scheduler *)

Definition backfill_key (media_type : string) (tid : Z) (iso639 : string)
    (iso3166 : option string) (full : bool) : bkey :=
  (media_type, tid, _lang_tag iso639 iso3166, if full then 1 else 0).

(** [t0 and (now - t0) < self.backfill_ttl_s] *)
Definition recently (app : App) (w : World) (k : bkey) (now : Q) : bool :=
  match backfill_recent w !! k with
  | Some t0 => Qnonzero t0 && Qltb (now - t0) (backfill_ttl_s app)
  | None => false
  end.

(** The part of [_schedule_backfill] before [run] is defined: under the
    lock, the recency check, the record in [recent], the queue limit and
    the insertion in [inflight]; then the task goes to the worker pool. *)
Definition _schedule_backfill (app : App) (media_type : string) (tid : Z)
    (iso639 : string) (iso3166 : option string) (full : bool) : M unit :=
  if negb (str_truthy (tmdb_key app))
     || negb (str_in media_type ["movie"; "tv"]) || (tid <=? 0)
  then ret tt
  else
    let k := backfill_key media_type tid iso639 iso3166 full in
    now <- time_time ;;
    w <- get_world ;;
    if recently app w k now then ret tt
    else
      _ <- modify (fun w => set_backfill_recent (<[k := now]> (backfill_recent w)) w) ;;
      if (backfill_queue_limit app <=? Z.of_nat (size (backfill_inflight w)))
         || bool_decide (k ∈ backfill_inflight w)
      then ret tt
      else
        modify (fun w =>
          set_backfill_queue
            (backfill_queue w ++
             [{| t_media_type := media_type; t_tid := tid; t_iso639 := iso639;
                 t_iso3166 := iso3166; t_full := full; t_key := k |}])
            (set_backfill_inflight ({[k]} ∪ backfill_inflight w) w)).


(** ** app.py: the upserts of a backfill task *)

(** A connection: the tables it reads and the statements executed on it
    and not yet committed. *)
Record conn := { con_db : DB; con_pending : list sql_write }.

(** [con.execute(statement)] *)
Definition execute (s : sql_write) (c : conn) : exn conn :=
  if sql_accepts (con_db c) (con_pending c) s
  then Val {| con_db := con_db c; con_pending := con_pending c ++ [s] |}
  else Raised.

(** [con.commit()] *)
Definition commit (c : conn) : M unit :=
  modify (fun w => set_committed (committed w ++ con_pending c) w).

(** A [for] loop whose body may raise; the body returns the new state
    and whether the loop goes on ([false] is [break]). *)
Fixpoint for_each {S : Type} (items : list jval)
    (body : jval -> S -> exn (S * bool)) (s : S) : exn S :=
  match items with
  | [] => Val s
  | it :: rest =>
      r <~ body it s ;;
      if snd r then for_each rest body (fst r) else Val (fst r)
  end.

Definition api : string := "https://api.themoviedb.org/3/".

(** The URL of a resource of a title, with the key. *)
Definition title_url (app : App) (media_type : string) (tid : Z) (what : string)
  : string :=
  api ++ media_type ++ "/" ++ str_of_Z tid ++ what ++ "?api_key=" ++ tmdb_key app.

(** [", ".join(x.get("name") for x in (data.get(field) or []) if
    isinstance(x, dict) and x.get("name")) or None] *)
Fixpoint join_names (items : list jval) : exn string :=
  match items with
  | [] => Val EmptyString
  | JObj kv :: rest =>
      if jtruthy (dget "name" kv) then
        match dget "name" kv with
        | JStr s =>
            r <~ join_names rest ;;
            Val (if str_truthy r then s ++ ", " ++ r else s)
        | _ => Raised
        end
      else join_names rest
  | _ :: rest => join_names rest
  end.

Definition names_of (field : string) (data : list (string * jval)) : exn jval :=
  items <~ jiter (jor (dget field data) (JArr [])) ;;
  s <~ join_names items ;;
  Val (ojs (str_or_none s)).

(** The columns [add] keeps: those the table has. *)
Definition keep_cols (cols : list string) (fields : list (string * jval))
  : list (string * jval) :=
  filter (fun p => is_true (str_in (fst p) cols)) fields.

Definition _upsert_tmdb_base (app : App) (c : conn) (media_type : string)
    (tid : Z) (data : list (string * jval)) : exn conn :=
  if negb (str_in media_type ["movie"; "tv"]) then Val c
  else if String.eqb media_type "movie" then
    genres <~ names_of "genres" data ;;
    let fields :=
      ("id", JInt tid) ::
      keep_cols (movies_cols app)
        [("title", jor (dget "title" data) JNull);
         ("overview", jor (dget "overview" data) JNull);
         ("vote_average", dget "vote_average" data);
         ("vote_count", dget "vote_count" data);
         ("release_date", jor (dget "release_date" data) JNull);
         ("popularity", dget "popularity" data);
         ("poster_path", jor (dget "poster_path" data) JNull);
         ("backdrop_path", jor (dget "backdrop_path" data) JNull);
         ("genres", genres)] in
    execute (W_base media_type tid fields) c
  else
    genres <~ names_of "genres" data ;;
    networks <~ names_of "networks" data ;;
    let fields :=
      ("id", JInt tid) ::
      keep_cols (series_cols app)
        [("name", jor (dget "name" data) JNull);
         ("overview", jor (dget "overview" data) JNull);
         ("vote_average", dget "vote_average" data);
         ("vote_count", dget "vote_count" data);
         ("first_air_date", jor (dget "first_air_date" data) JNull);
         ("popularity", dget "popularity" data);
         ("poster_path", jor (dget "poster_path" data) JNull);
         ("backdrop_path", jor (dget "backdrop_path" data) JNull);
         ("genres", genres);
         ("networks", networks);
         ("number_of_seasons", dget "number_of_seasons" data);
         ("number_of_episodes", dget "number_of_episodes" data)] in
    execute (W_base media_type tid fields) c.

(** [(it.get("iso_639_1") or "und").strip() or "und"] *)
Definition logo_lang (it : list (string * jval)) : exn string :=
  s <~ jstrip (jor (dget "iso_639_1" it) (JStr "und")) ;;
  Val (if str_truthy s then s else "und").

(** [harvest(idata)]: the first file path of each language, or [None]. *)
Definition harvest (idata : list (string * jval))
  : exn (option (list (string * jval))) :=
  match jor (dget "logos" idata) (JArr []) with
  | JArr logos =>
      by_lang <~ for_each logos
        (fun it by_lang =>
           match it with
           | JObj kv =>
               let fp := dget "file_path" kv in
               if negb (jtruthy fp) then Val (by_lang, true)
               else
                 loc <~ logo_lang kv ;;
                 Val (if dhas loc by_lang then by_lang
                      else (by_lang ++ [(loc, fp)])%list, true)
           | _ => Val (by_lang, true)
           end) [] ;;
      Val (match by_lang with [] => None | _ => Some by_lang end)
  | _ => Val None
  end.

Definition _upsert_tmdb_logos (app : App) (c : conn) (media_type : string)
    (tid : Z) (lang_tag : string) : M conn :=
  if negb (str_in "logos_json" (media_cols app media_type)) then ret c
  else
    let base := title_url app media_type tid "/images" in
    r1 <- _tmdb_get_json app
            (base ++ "&include_image_language=" ++ lang_tag ++ ",en,null") 10 ;;
    by_lang1 <- (if fetch_failed r1 then ret None else lift (harvest (fetched r1))) ;;
    by_lang <- match by_lang1 with
               | Some _ => ret by_lang1
               | None =>
                   r2 <- _tmdb_get_json app base 10 ;;
                   if fetch_failed r2 then ret None else lift (harvest (fetched r2))
               end ;;
    match by_lang with
    | None => ret c
    | Some d => lift (execute (W_logos media_type tid d) c)
    end.

(** [it.get("size") if isinstance(it.get("size"), int) else None] *)
Definition int_or_none (v : jval) : jval :=
  match v with JInt _ | JBool _ => v | _ => JNull end.

Definition _upsert_tmdb_videos (app : App) (c : conn) (media_type : string)
    (tid : Z) (lang_tag : string) : M conn :=
  if negb (has_videos app) then ret c
  else
    r <- _tmdb_get_json app
           (title_url app media_type tid "/videos" ++ "&language=" ++ lang_tag) 10 ;;
    if fetch_failed r then ret c
    else
      lift (items <~ jiter (jor (dget "results" (fetched r)) (JArr [])) ;;
            for_each items
              (fun it c =>
                 match it with
                 | JObj kv =>
                     let key := jor (dget "key" kv) JNull in
                     let site := jor (dget "site" kv) JNull in
                     if negb (jtruthy key) then Val (c, true)
                     else
                       c' <~ execute
                         (W_video media_type tid
                            [jor (dget "id" kv) JNull; key; site;
                             jor (dget "name" kv) JNull;
                             jor (dget "type" kv) JNull;
                             JInt (if jtruthy (dget "official" kv) then 1 else 0);
                             jor (dget "published_at" kv) JNull;
                             jor (dget "iso_639_1" kv) JNull;
                             jor (dget "iso_3166_1" kv) JNull;
                             int_or_none (dget "size" kv)]) c ;;
                       Val (c', false)
                 | _ => Val (c, true)
                 end) c).

Definition is_null (v : jval) : bool :=
  match v with JNull => true | _ => false end.

(** [x[:24]]: a list or a string can be sliced. *)
Definition slice24 (v : jval) : exn (list jval) :=
  match v with
  | JArr l => Val (take 24 l)
  | JStr s => Val (take 24 (chars s))
  | _ => Raised
  end.

Definition _upsert_tmdb_cast (app : App) (c : conn) (media_type : string)
    (tid : Z) : M conn :=
  if negb (has_cast app) then ret c
  else
    r <- _tmdb_get_json app (title_url app media_type tid "/credits") 10 ;;
    if fetch_failed r then ret c
    else
      lift (c1 <~ execute (W_cast_delete media_type tid) c ;;
            items <~ slice24 (jor (dget "cast" (fetched r)) (JArr [])) ;;
            for_each items
              (fun it c =>
                 match it with
                 | JObj kv =>
                     let pid := dget "id" kv in
                     let cid := dget "credit_id" kv in
                     if is_null pid || is_null cid then Val (c, true)
                     else
                       c' <~ execute
                         (W_cast_insert media_type tid
                            [pid; cid; dget "cast_id" kv;
                             jor (dget "name" kv) JNull;
                             jor (dget "character" kv) JNull;
                             dget "order" kv; dget "profile_path" kv]) c ;;
                       Val (c', true)
                 | _ => Val (c, true)
                 end) c1).

Definition _upsert_tmdb_translations (app : App) (c : conn)
    (media_type : string) (tid : Z) : M conn :=
  if negb (has_translations app) then ret c
  else
    r <- _tmdb_get_json app (title_url app media_type tid "/translations") 12 ;;
    if fetch_failed r then ret c
    else
      lift (items <~ jiter (jor (dget "translations" (fetched r)) (JArr [])) ;;
            for_each items
              (fun it c =>
                 match it with
                 | JObj kv =>
                     l0 <~ jstrip (jor (dget "iso_639_1" kv) (JStr EmptyString)) ;;
                     r0 <~ jstrip (jor (dget "iso_3166_1" kv) (JStr EmptyString)) ;;
                     let iso_639_1 := lower l0 in
                     let iso_3166_1 := upper r0 in
                     if negb (str_truthy iso_639_1) || negb (str_truthy iso_3166_1)
                     then Val (c, true)
                     else
                       match jor (dget "data" kv) (JObj []) with
                       | JObj td =>
                           c' <~ execute
                             (W_translation media_type tid
                                [JStr iso_639_1; JStr iso_3166_1;
                                 jor (jor (dget "title" td) (dget "name" td)) JNull;
                                 jor (dget "overview" td) JNull;
                                 jor (dget "tagline" td) JNull;
                                 jor (dget "homepage" td) JNull]) c ;;
                           Val (c', true)
                       | _ => Val (c, true)
                       end
                 | _ => Val (c, true)
                 end) c).

(** [int(s.get(field) or 0)] *)
Definition int_field (field : string) (kv : list (string * jval)) : exn Z :=
  py_int (jor (dget field kv) (JInt 0)).

(** The first positive season number of [data["seasons"]]. *)
Fixpoint first_season (items : list jval) : exn (option Z) :=
  match items with
  | [] => Val None
  | JObj kv :: rest =>
      x <~ int_field "season_number" kv ;;
      if 0 <? x then Val (Some x) else first_season rest
  | _ :: rest => first_season rest
  end.

Definition _upsert_tmdb_tv_seasons_episodes (app : App) (c : conn) (tid : Z)
    (lang_tag : string) (data : list (string * jval)) : M conn :=
  c1 <- lift
    (if has_seasons app then
       match jor (dget "seasons" data) (JArr []) with
       | JArr seasons =>
           for_each seasons
             (fun s c =>
                match s with
                | JObj kv =>
                    sn <~ int_field "season_number" kv ;;
                    if sn <=? 0 then Val (c, true)
                    else
                      c' <~ execute
                        (W_season tid sn
                           [dget "id" kv;
                            jor (dget "name" kv) JNull;
                            jor (dget "overview" kv) JNull;
                            jor (dget "air_date" kv) JNull;
                            jor (dget "poster_path" kv) JNull;
                            dget "episode_count" kv]) c ;;
                      Val (c', true)
                | _ => Val (c, true)
                end) c
       | _ => Val c
       end
     else Val c) ;;
  if negb (has_episodes app) then ret c1
  else
    sn <- lift (items <~ jiter (jor (dget "seasons" data) (JArr [])) ;;
                first_season items) ;;
    match sn with
    | None => ret c1
    | Some sn =>
        r <- _tmdb_get_json app
               (title_url app "tv" tid ("/season/" ++ str_of_Z sn)
                ++ "&language=" ++ lang_tag) 12 ;;
        if fetch_failed r then ret c1
        else
          lift (items <~ jiter (jor (dget "episodes" (fetched r)) (JArr [])) ;;
                for_each items
                  (fun ep c =>
                     match ep with
                     | JObj kv =>
                         en <~ int_field "episode_number" kv ;;
                         if en <=? 0 then Val (c, true)
                         else
                           c' <~ execute
                             (W_episode tid sn en
                                [dget "id" kv;
                                 jor (dget "name" kv) JNull;
                                 jor (dget "overview" kv) JNull;
                                 jor (dget "air_date" kv) JNull;
                                 dget "runtime" kv;
                                 jor (dget "still_path" kv) JNull;
                                 dget "vote_average" kv;
                                 dget "vote_count" kv]) c ;;
                           Val (c', true)
                     | _ => Val (c, true)
                     end) c1)
    end.


(** ** app.py: the backfill worker task *)

Definition base_url (app : App) (media_type : string) (tid : Z)
    (lang_tag : string) : string :=
  title_url app media_type tid EmptyString ++ "&language=" ++ lang_tag.

(** The base step of [run]: [None] is the [return] after a failed fetch. *)
Definition run_base (app : App) (tk : task) (miss : missing) (c : conn)
  : M (option conn) :=
  let tv := String.eqb (t_media_type tk) "tv" && need_tv miss in
  if need_base miss || tv then
    r <- _tmdb_get_json app
           (base_url app (t_media_type tk) (t_tid tk) (lang_tag miss))
           (if t_full tk then 10 else 8) ;;
    if fetch_failed r then ret None
    else
      c1 <- lift (_upsert_tmdb_base app c (t_media_type tk) (t_tid tk) (fetched r)) ;;
      c2 <- (if tv
             then _upsert_tmdb_tv_seasons_episodes app c1 (t_tid tk)
                    (lang_tag miss) (fetched r)
             else ret c1) ;;
      ret (Some c2)
  else ret (Some c).

(** The steps of [run] after the base step, and the commit. *)
Definition run_parts (app : App) (tk : task) (miss : missing) (c : conn)
  : M unit :=
  c <- (if need_logos miss
        then _upsert_tmdb_logos app c (t_media_type tk) (t_tid tk) (lang_tag miss)
        else ret c) ;;
  c <- (if need_videos miss
        then _upsert_tmdb_videos app c (t_media_type tk) (t_tid tk) (lang_tag miss)
        else ret c) ;;
  c <- (if need_cast miss
        then _upsert_tmdb_cast app c (t_media_type tk) (t_tid tk)
        else ret c) ;;
  c <- (if need_translations miss
        then _upsert_tmdb_translations app c (t_media_type tk) (t_tid tk)
        else ret c) ;;
  commit c.

(** The [try] block of [run]. *)
Definition run_body (app : App) (tk : task) (c : conn) : M unit :=
  match _missing_parts app (con_db c) (t_media_type tk) (t_tid tk)
          (t_iso639 tk) (t_iso3166 tk) (t_full tk) with
  | None => ret tt
  | Some miss =>
      r <- run_base app tk miss c ;;
      match r with
      | None => ret tt
      | Some c1 => run_parts app tk miss c1
      end
  end.

(** The [finally] block of [run]: the connection is closed, which drops
    what was not committed, and the key leaves [inflight]. *)
Definition run_finally (tk : task) (w : World) : World :=
  set_backfill_inflight (backfill_inflight w ∖ {[t_key tk]})
    (set_tmdb_tls_bg false w).

Definition run (app : App) (tk : task) : M unit :=
  _ <- modify (set_tmdb_tls_bg true) ;;
  db <- _con ;;
  finally (run_body app tk {| con_db := db; con_pending := [] |})
          (run_finally tk).

(** A worker of the pool takes the oldest task and runs it; what the task
    raises stays in its future. *)
Definition worker (app : App) (w : World) : World :=
  match backfill_queue w with
  | [] => w
  | tk :: rest => world_of (run app tk (set_backfill_queue rest w))
  end.

(** ** util.py and app.py: localized text and logos *)

Definition _json_loads_best_effort (s : jval) : jval :=
  if negb (jtruthy s) then JNull
  else match s with
       | JStr text => match json_loads text with Some v => v | None => JNull end
       | _ => JNull
       end.

(** [for v in d.values(): if v: return v] *)
Fixpoint first_truthy (kv : list (string * jval)) : jval :=
  match kv with
  | [] => JNull
  | (_, v) :: rest => if jtruthy v then v else first_truthy rest
  end.

Definition _pick_logo (logos_json : jval) (lang : string) : jval :=
  match _json_loads_best_effort logos_json with
  | JObj d =>
      if dhas lang d && jtruthy (dget lang d) then dget lang d
      else if dhas "en" d && jtruthy (dget "en" d) then dget "en" d
      else if dhas "und" d && jtruthy (dget "und" d) then dget "und" d
      else first_truthy d
  | _ => JNull
  end.

(** The rows of [title_translations] for a title and a language, and
    those for a region as well, in table order. *)
Definition lang_rows (con : DB) (media_type : string) (tid : Z)
    (iso639 : string) : list translation_row :=
  filter (fun r => tr_media_type r = media_type /\ tr_tmdb_id r = tid
                   /\ tr_iso_639_1 r = iso639)
         (title_translations con).

Definition region_rows (con : DB) (media_type : string) (tid : Z)
    (iso639 iso3166 : string) : list translation_row :=
  filter (fun r => tr_media_type r = media_type /\ tr_tmdb_id r = tid
                   /\ tr_iso_639_1 r = iso639 /\ tr_iso_3166_1 r = iso3166)
         (title_translations con).

Definition _translated (app : App) (con : DB) (media_type : string) (tid : Z)
    (iso639 : string) (iso3166 : option string)
  : option string * option string :=
  if negb (has_translations app) then (None, None)
  else
    let exact :=
      if ostr_truthy iso3166
      then head (region_rows con media_type tid iso639 (ostr_or_empty iso3166))
      else None in
    match exact with
    | Some r => (tr_title r, tr_overview r)
    | None =>
        match head (lang_rows con media_type tid iso639) with
        | Some r => (tr_title r, tr_overview r)
        | None => (None, None)
        end
    end.

(** [a or b or the empty string] for a translated text [a] and a value [b]. *)
Definition text_or (a : option string) (b : jval) : jval :=
  if ostr_truthy a then ojs a else jor b (JStr EmptyString).

(** ** app.py: cards *)

(** [dict(r)] for a row of [SELECT * FROM movies] and of
    [SELECT * FROM series]. *)
Definition movie_dict (r : movie_row) : list (string * jval) :=
  [("id", JInt (m_id r)); ("title", ojs (m_title r));
   ("vote_average", ojq (m_vote_average r));
   ("vote_count", ojz (m_vote_count r));
   ("release_date", ojs (m_release_date r));
   ("overview", ojs (m_overview r));
   ("popularity", ojq (m_popularity r));
   ("poster_path", ojs (m_poster_path r));
   ("backdrop_path", ojs (m_backdrop_path r));
   ("logos_json", ojs (m_logos_json r));
   ("genres", ojs (m_genres r))].

Definition series_dict (r : series_row) : list (string * jval) :=
  [("id", JInt (s_id r)); ("name", ojs (s_name r));
   ("vote_average", ojq (s_vote_average r));
   ("vote_count", ojz (s_vote_count r));
   ("first_air_date", ojs (s_first_air_date r));
   ("overview", ojs (s_overview r));
   ("popularity", ojq (s_popularity r));
   ("poster_path", ojs (s_poster_path r));
   ("backdrop_path", ojs (s_backdrop_path r));
   ("logos_json", ojs (s_logos_json r));
   ("genres", ojs (s_genres r));
   ("networks", ojs (s_networks r))].

(** [_card_from_row(media_type, r, ...)].  [con] is the connection stored
    under ["_con"] in the row, when there is one. *)
Definition _card_from_row (app : App) (media_type : string)
    (r : list (string * jval)) (con : option DB) (iso639 : string)
    (iso3166 : option string) (with_description : bool) : exn jval :=
  let movie := String.eqb media_type "movie" in
  idv <~ dindex "id" r ;;
  tid <~ py_int idv ;;
  let tr := match con with
            | Some db => _translated app db (if movie then "movie" else "tv")
                           tid iso639 iso3166
            | None => (None, None)
            end in
  base <~ (if ostr_truthy (fst tr) then Val JNull
           else dindex (if movie then "title" else "name") r) ;;
  title <~ jstrip (text_or (fst tr) base) ;;
  description <~ (if with_description
                  then s <~ jstrip (text_or (snd tr) (dget "overview" r)) ;;
                       Val (clip240 s)
                  else Val JNull) ;;
  let poster := dget "poster_path" r in
  let backdrop := dget "backdrop_path" r in
  let logo := jor (_pick_logo (dget "logos_json" r) iso639) poster in
  year <~ _year (dget (if movie then "release_date" else "first_air_date") r) ;;
  Val (JObj [("id", JInt tid);
             ("kind", JStr (if movie then "movie" else "series"));
             ("name", JStr title);
             ("description", description);
             ("year", year);
             ("rating", dget "vote_average" r);
             ("poster", poster);
             ("logo", logo);
             ("backdrop", backdrop)]).

(** The row [_enrich_card] reads:
    [SELECT title|name, overview, logos_json, backdrop_path ... WHERE id=?]. *)
Definition enrich_row (con : DB) (movie : bool) (tid : Z)
  : option (list (string * jval)) :=
  if movie
  then (fun r => [("title", ojs (m_title r)); ("overview", ojs (m_overview r));
                  ("logos_json", ojs (m_logos_json r));
                  ("backdrop_path", ojs (m_backdrop_path r))])
       <$> head (filter (fun r => m_id r = tid) (movies con))
  else (fun r => [("name", ojs (s_name r)); ("overview", ojs (s_overview r));
                  ("logos_json", ojs (s_logos_json r));
                  ("backdrop_path", ojs (s_backdrop_path r))])
       <$> head (filter (fun r => s_id r = tid) (series con)).

(** The updates [_enrich_card] makes to a card from the row of the store. *)
Definition enrich_from_row (app : App) (con : DB) (movie : bool) (tid : Z)
    (r card : list (string * jval)) (iso639 : string) (iso3166 : option string)
  : exn (list (string * jval)) :=
  let tr := _translated app con (if movie then "movie" else "tv") tid
              iso639 iso3166 in
  nm <~ jstrip (text_or (fst tr) (dget (if movie then "title" else "name") r)) ;;
  let card := if str_truthy nm then assoc_set "name" (JStr nm) card else card in
  d <~ jstrip (jor (dget "description" card) (JStr EmptyString)) ;;
  card <~ (if negb (str_truthy d)
           then s <~ jstrip (text_or (snd tr) (dget "overview" r)) ;;
                Val (assoc_set "description" (clip240 s) card)
           else Val card) ;;
  let card := assoc_set "logo"
                (jor (_pick_logo (dget "logos_json" r) iso639) (dget "logo" card))
                card in
  Val (if negb (jtruthy (dget "backdrop" card))
       then assoc_set "backdrop" (dget "backdrop_path" r) card
       else card).

Definition _enrich_card (app : App) (con : DB) (card : list (string * jval))
    (iso639 : string) (iso3166 : option string) : M (list (string * jval)) :=
  tid <- lift (py_int (jor (dget "id" card) (JInt 0))) ;;
  let kind := dget "kind" card in
  if (tid <=? 0) || negb (jstr_eqb kind "movie" || jstr_eqb kind "series")
  then ret card
  else
    let movie := jstr_eqb kind "movie" in
    let media_type := if movie then "movie" else "tv" in
    _ <- (if bool_decide (is_Some (_missing_parts app con media_type tid
                                     iso639 iso3166 false))
          then _schedule_backfill app media_type tid iso639 iso3166 false
          else ret tt) ;;
    card <- match enrich_row con movie tid with
            | Some r => lift (enrich_from_row app con movie tid r card iso639 iso3166)
            | None => ret card
            end ;;
    let card := if negb (jtruthy (dget "logo" card))
                then assoc_set "logo" (dget "poster" card) card else card in
    ret (if negb (dhas "backdrop" card)
         then assoc_set "backdrop" JNull card else card).

(** [[f(x) for x in xs]] for an [f] that acts on the world. *)
Fixpoint mapM {A B : Type} (f : A -> M B) (xs : list A) : M (list B) :=
  match xs with
  | [] => ret []
  | x :: rest => y <- f x ;; ys <- mapM f rest ;; ret (y :: ys)
  end.

(** ** app.py: similar titles *)

(** The card of one item of the Provider's [similar] list; [None] when
    the item is skipped. *)
Definition similar_card (media_type : string) (it : jval) : exn (option jval) :=
  match it with
  | JObj kv =>
      i <~ py_int (jor (dget "id" kv) (JInt 0)) ;;
      if i <=? 0 then Val None
      else
        name <~ jstrip (jor (jor (dget "title" kv) (dget "name" kv)) (JStr EmptyString)) ;;
        year <~ _year (jor (dget "release_date" kv) (dget "first_air_date" kv)) ;;
        Val (Some (JObj
          [("id", JInt i);
           ("kind", JStr (if String.eqb media_type "movie" then "movie" else "series"));
           ("name", JStr name);
           ("year", year);
           ("rating", dget "vote_average" kv);
           ("poster", dget "poster_path" kv);
           ("logo", dget "poster_path" kv);
           ("backdrop", dget "backdrop_path" kv)]))
  | _ => Val None
  end.

Fixpoint similar_cards (media_type : string) (items : list jval)
  : exn (list jval) :=
  match items with
  | [] => Val []
  | it :: rest =>
      c <~ similar_card media_type it ;;
      cs <~ similar_cards media_type rest ;;
      Val (match c with Some c => c :: cs | None => cs end)
  end.

(** What the [try] block of [_tmdb_similar] does with an open response. *)
Definition similar_parse (media_type : string) (r : response) : exn (list jval) :=
  if resp_status r =? 200 then
    match json_loads (resp_body r) with
    | None => Raised
    | Some data =>
        res0 <~ jget "results" data ;;
        match jor res0 (JArr []) with
        | JArr res => similar_cards media_type (take 24 res)
        | _ => Val []
        end
    end
  else Val [].

(** A card is a dictionary; [_enrich_card] is applied to the cards of a
    list. *)
Definition enrich_all (app : App) (con : DB) (cards : list jval)
    (iso639 : string) (iso3166 : option string) : M (list jval) :=
  mapM (fun c => match c with
                 | JObj kv => kv' <- _enrich_card app con kv iso639 iso3166 ;;
                              ret (JObj kv')
                 | _ => raise
                 end) cards.

Definition cache_fresh {V : Type} (cur : option (Q * V)) (now ttl : Q) : option V :=
  match cur with
  | Some (t0, v) => if Qltb (now - t0) ttl then Some v else None
  | None => None
  end.

Definition similar_url (app : App) (kind : string) (tid : Z) (iso639 : string)
  : string :=
  title_url app (if String.eqb kind "movie" then "movie" else "tv") tid "/similar"
  ++ "&language=" ++ iso639.

Definition _tmdb_similar (app : App) (kind : string) (tid : Z)
    (iso639 : string) (iso3166 : option string) : M (list jval) :=
  if negb (str_truthy (tmdb_key app)) then ret []
  else
    let k := (kind, tid, _lang_tag iso639 iso3166) in
    now <- time_time ;;
    w <- get_world ;;
    match cache_fresh (similar_cache w !! k) now (similar_ttl_s app) with
    | Some out => ret out
    | None =>
        let media_type := if String.eqb kind "movie" then "movie" else "tv" in
        let url := similar_url app kind tid iso639 in
        fetched <- catch
          (resp <- _tmdb_open app url 6 ;;
           match resp with
           | None => ret None
           | Some r => out <- lift (similar_parse media_type r) ;; ret (Some out)
           end)
          (ret (Some [])) ;;
        match fetched with
        | None => ret []
        | Some out =>
            out <- (match out with
                    | [] => ret out
                    | _ => con <- _con ;; enrich_all app con out iso639 iso3166
                    end) ;;
            _ <- modify (fun w =>
                   set_similar_cache (<[k := (now, out)]> (similar_cache w)) w) ;;
            ret out
        end
    end.

(** ** app.py: trending titles *)

Definition is_dict (v : jval) : bool :=
  match v with JObj _ => true | _ => false end.

Definition trending_parse (r : response) : exn (list jval) :=
  if resp_status r =? 200 then
    match json_loads (resp_body r) with
    | None => Raised
    | Some data =>
        res0 <~ jget "results" data ;;
        match jor res0 (JArr []) with
        | JArr res => Val (List.filter is_dict res)
        | _ => Val []
        end
    end
  else Val [].

Definition _tmdb_trending (app : App) (window lang : string) : M (list jval) :=
  if negb (str_truthy (tmdb_key app)) then ret []
  else if negb (str_in window ["day"; "week"]) then ret []
  else
    let k := (window, lang) in
    now <- time_time ;;
    w <- get_world ;;
    match cache_fresh (trending_cache w !! k) now (trending_ttl_s app) with
    | Some out => ret out
    | None =>
        let url := api ++ "trending/all/" ++ window ++ "?api_key="
                   ++ tmdb_key app ++ "&language=" ++ lang in
        fetched <- catch
          (resp <- _tmdb_open app url 6 ;;
           match resp with
           | None => ret None
           | Some r => out <- lift (trending_parse r) ;; ret (Some out)
           end)
          (ret (Some [])) ;;
        match fetched with
        | None => ret []
        | Some out =>
            _ <- modify (fun w =>
                   set_trending_cache (<[k := (now, out)]> (trending_cache w)) w) ;;
            ret out
        end
    end.


(** ** The statements of the read path

    A row of the derived table the list statements select from:
    [id, kind, name, dt, rating, pop, poster, backdrop, logos, gen]. *)

Record urow := {
  u_id : Z;
  u_kind : string;
  u_name : option string;
  u_dt : option string;
  u_rating : option Q;
  u_pop : option Q;
  u_poster : option string;
  u_backdrop : option string;
  u_logos : option string;
  u_gen : option string
}.

(** [gen] is the [genres] column when the table has one, else ['']. *)
Definition movie_urow (with_gen : bool) (r : movie_row) : urow :=
  {| u_id := m_id r; u_kind := "movie"; u_name := m_title r;
     u_dt := m_release_date r; u_rating := m_vote_average r;
     u_pop := m_popularity r; u_poster := m_poster_path r;
     u_backdrop := m_backdrop_path r; u_logos := m_logos_json r;
     u_gen := if with_gen then m_genres r else Some EmptyString |}.

Definition series_urow (with_gen : bool) (r : series_row) : urow :=
  {| u_id := s_id r; u_kind := "series"; u_name := s_name r;
     u_dt := s_first_air_date r; u_rating := s_vote_average r;
     u_pop := s_popularity r; u_poster := s_poster_path r;
     u_backdrop := s_backdrop_path r; u_logos := s_logos_json r;
     u_gen := if with_gen then s_genres r else Some EmptyString |}.

(** [COALESCE(x, 0)] and [COALESCE(x, '')] *)
Definition coalesce0 (x : option Q) : Q := match x with Some q => q | None => 0%Q end.
Definition coalesce0z (x : option Z) : Z := match x with Some n => n | None => 0 end.

(** [ORDER BY]: a stable insertion sort; [before x y] says that [x] may
    come before [y].  The store leaves the order of ties open; here they
    keep the order of the rows. *)
Fixpoint insert_by {A : Type} (before : A -> A -> bool) (x : A) (l : list A)
  : list A :=
  match l with
  | [] => [x]
  | y :: rest => if before x y then x :: y :: rest
                 else y :: insert_by before x rest
  end.

Definition order_by {A : Type} (before : A -> A -> bool) (l : list A) : list A :=
  foldr (insert_by before) [] l.

(** [LIMIT n OFFSET k] *)
Definition limit_offset {A : Type} (n k : Z) (l : list A) : list A :=
  take (Z.to_nat n) (drop (Z.to_nat k) l).

Inductive where_clause : Type :=
| Where_all
| Where_none
| Where_genres_like (patterns : list string).

Inductive ordering : Type :=
| By_pop
| By_rating_pop
| By_dt_pop.

Definition before_pop (x y : urow) : bool :=
  Qleb (coalesce0 (u_pop y)) (coalesce0 (u_pop x)).

Definition before_rating_pop (x y : urow) : bool :=
  Qltb (coalesce0 (u_rating y)) (coalesce0 (u_rating x))
  || (Qeq_bool (coalesce0 (u_rating x)) (coalesce0 (u_rating y)) && before_pop x y).

Definition before_dt_pop (x y : urow) : bool :=
  String.ltb (ostr_or_empty (u_dt y)) (ostr_or_empty (u_dt x))
  || (String.eqb (ostr_or_empty (u_dt x)) (ostr_or_empty (u_dt y)) && before_pop x y).

Definition before_of (o : ordering) : urow -> urow -> bool :=
  match o with
  | By_pop => before_pop
  | By_rating_pop => before_rating_pop
  | By_dt_pop => before_dt_pop
  end.

(** The two list statements of [app_browse] and of the [genres] block of
    [app_home]: the join over the genre edges, and the union of movies and
    series filtered on genres ([union_sql]).  A clause of the union tests
    the column [gen] of the derived row: [app_home] writes it on [gen]
    around the union; [app_browse] writes it on [genres] inside each
    SELECT, and only for a table that has the column, where [gen] is that
    column. *)
Inductive statement : Type :=
| Select_by_genre_edges (names : list string) (limit offset : Z)
| Select_union (where_movies where_series : where_clause) (order : ordering)
    (limit offset : Z).

Definition where_holds (wc : where_clause) (genres_col : option string) : bool :=
  match wc with
  | Where_all => true
  | Where_none => false
  | Where_genres_like ps =>
      existsb (fun p => sql_like p (ostr_or_empty genres_col)) ps
  end.

(** The titles joined to a genre named in [names] through the edges, one
    row per matching edge. *)
Definition has_genre_edge (con : DB) (media_type : string) (tid : Z)
    (names : list string) : list unit :=
  tg ← title_genres con;
  g ← genres con;
  if String.eqb (tg_media_type tg) media_type && (tg_tmdb_id tg =? tid)
     && String.eqb (g_media_type g) media_type
     && (g_genre_id g =? tg_genre_id tg) && str_in (g_name g) names
  then [tt] else [].

Definition genre_edge_rows (con : DB) (names : list string) : list urow :=
  (m ← movies con; _ ← has_genre_edge con "movie" (m_id m) names;
   [movie_urow false m])
  ++ (s ← series con; _ ← has_genre_edge con "tv" (s_id s) names;
      [series_urow false s]).

(** [SELECT DISTINCT]: a row is kept once.  Rows of one kind with one id
    come from one row of [movies] or [series]. *)
Fixpoint distinct (l : list urow) (seen : list (string * Z)) : list urow :=
  match l with
  | [] => []
  | r :: rest =>
      if existsb (fun p => String.eqb (fst p) (u_kind r) && (snd p =? u_id r)) seen
      then distinct rest seen
      else r :: distinct rest ((u_kind r, u_id r) :: seen)
  end.

Definition run_statement (app : App) (con : DB) (s : statement) : list urow :=
  match s with
  | Select_by_genre_edges names limit offset =>
      limit_offset limit offset
        (order_by before_pop (distinct (genre_edge_rows con names) []))
  | Select_union wm ws o limit offset =>
      let mg := str_in "genres" (movies_cols app) in
      let sg := str_in "genres" (series_cols app) in
      limit_offset limit offset
        (order_by (before_of o)
           (List.filter (fun r => where_holds wm (u_gen r))
                        (map (movie_urow mg) (movies con))
            ++ List.filter (fun r => where_holds ws (u_gen r))
                           (map (series_urow sg) (series con))))
  end.

(** ** server.py *)

Definition _genre_needles (s0 : string) : list string :=
  let s := strip s0 in
  if negb (str_truthy s) then []
  else if String.eqb s "Science Fiction"
       then ["Science Fiction"; "Sci-Fi & Fantasy"; "Sci-Fi"]
       else [s].

(** The card built from a row of a list statement, in [app_browse] and in
    the [genres] block of [app_home]. *)
Definition list_card (app : App) (con : DB) (r : urow) (iso639 : string)
    (iso3166 : option string) : exn jval :=
  let kind := u_kind r in
  let tid := u_id r in
  let media_type := if String.eqb kind "movie" then "movie" else "tv" in
  let tr := _translated app con media_type tid iso639 iso3166 in
  name <~ jstrip (text_or (fst tr) (ojs (u_name r))) ;;
  year <~ _year (ojs (u_dt r)) ;;
  Val (JObj [("id", JInt tid);
             ("kind", JStr kind);
             ("name", JStr name);
             ("year", year);
             ("rating", ojq (u_rating r));
             ("poster", ojs (u_poster r));
             ("logo", jor (_pick_logo (ojs (u_logos r)) iso639) (ojs (u_poster r)));
             ("backdrop", ojs (u_backdrop r))]).

(** [[f(x) for x in xs]] for an [f] that may raise. *)
Fixpoint emap {A B : Type} (f : A -> exn B) (xs : list A) : exn (list B) :=
  match xs with
  | [] => Val []
  | x :: rest => y <~ f x ;; ys <~ emap f rest ;; Val (y :: ys)
  end.

(** The statement [app_browse] sends for a tab and a page; [None] when the
    page is below 1 or the tab is unknown. *)
Definition browse_statement (app : App) (tab : string) (page : Z)
  : option statement :=
  if page <? 1 then None
  else
    match table_get tab BROWSE_TABS with
    | None => None
    | Some (mode, arg) =>
        let limit := page_size app + 1 in
        let offset := (page - 1) * page_size app in
        let names := _genre_needles (ostr_or_empty arg) in
        if String.eqb mode "genre" && has_genres app && has_title_genres app
           && match names with [] => false | _ => true end
        then Some (Select_by_genre_edges names limit offset)
        else
          let needle := "%" ++ ostr_or_empty arg ++ "%" in
          let wm := if String.eqb mode "genre"
                    then (if str_in "genres" (movies_cols app)
                          then Where_genres_like [needle] else Where_none)
                    else Where_all in
          let ws := if String.eqb mode "genre"
                    then (if str_in "genres" (series_cols app)
                          then Where_genres_like [needle] else Where_none)
                    else Where_all in
          (fun o => Select_union wm ws o limit offset)
          <$> table_get mode
                [("popular", By_pop); ("rating", By_rating_pop);
                 ("recent", By_dt_pop); ("genre", By_pop)]
    end.

Definition app_browse (app : App) (tab : string) (page : Z) (iso639 : string)
    (iso3166 : option string) : M (option jval) :=
  if page <? 1 then ret None
  else
    match table_get tab BROWSE_TABS with
    | None => ret None
    | Some _ =>
        match browse_statement app tab page with
        | None => raise
        | Some stmt =>
            con <- _con ;;
            let rows := run_statement app con stmt in
            let has_more := page_size app <? Z.of_nat (length rows) in
            let rows := take (Z.to_nat (page_size app)) rows in
            items <- lift (emap (fun r => list_card app con r iso639 iso3166) rows) ;;
            ret (Some (JObj [("tab", JStr tab);
                             ("page", JInt page);
                             ("page_size", JInt (page_size app));
                             ("has_more", JBool has_more);
                             ("items", JArr items)]))
        end
    end.


(** The rows of the statement of [app_search]: each title joined to its
    translations in the language, or to none. *)
Record srow := { sr_row : urow; sr_over : option string }.

Definition first_some (a b : option string) : option string :=
  match a with Some _ => a | None => b end.

Definition search_join (con : DB) (media_type : string) (tid : Z)
    (iso639 : string) (base : urow) (over : option string) : list srow :=
  match List.filter (fun t => String.eqb (tr_media_type t) media_type
                              && (tr_tmdb_id t =? tid)
                              && String.eqb (tr_iso_639_1 t) iso639)
                    (title_translations con) with
  | [] => [{| sr_row := base; sr_over := over |}]
  | ts => map (fun t =>
                 {| sr_row :=
                      {| u_id := u_id base; u_kind := u_kind base;
                         u_name := first_some (tr_title t) (u_name base);
                         u_dt := u_dt base; u_rating := u_rating base;
                         u_pop := u_pop base; u_poster := u_poster base;
                         u_backdrop := u_backdrop base; u_logos := u_logos base;
                         u_gen := u_gen base |};
                    sr_over := first_some (tr_overview t) over |}) ts
  end.

Definition search_rows (con : DB) (iso639 like : string) (limit : Z) : list urow :=
  let joined : list srow :=
    ((m ← movies con;
      search_join con "movie" (m_id m) iso639 (movie_urow false m) (m_overview m))
     ++ (s ← series con;
         search_join con "tv" (s_id s) iso639 (series_urow false s) (s_overview s)))%list in
  limit_offset limit 0
    (order_by before_pop
       (map sr_row
          (List.filter (fun r => sql_like like (ostr_or_empty (u_name (sr_row r)))
                                 || sql_like like (ostr_or_empty (sr_over r)))
                       joined))).

Definition search_card (r : urow) (iso639 : string) : exn jval :=
  name <~ jstrip (jor (ojs (u_name r)) (JStr EmptyString)) ;;
  year <~ _year (ojs (u_dt r)) ;;
  Val (JObj [("id", JInt (u_id r));
             ("kind", JStr (u_kind r));
             ("name", JStr name);
             ("year", year);
             ("rating", ojq (u_rating r));
             ("poster", ojs (u_poster r));
             ("logo", jor (_pick_logo (ojs (u_logos r)) iso639) (ojs (u_poster r)));
             ("backdrop", ojs (u_backdrop r))]).

(** [app_search]: the statement names [title_translations], so it raises
    when the store has no such table. *)
Definition app_search (app : App) (query : string) (iso639 : string)
    (iso3166 : option string) : M jval :=
  let q := strip query in
  if negb (str_truthy q) then ret (JObj [("query", JStr EmptyString); ("results", JArr [])])
  else
    con <- _con ;;
    if negb (str_in "title_translations" (db_tables con)) then raise
    else
      out <- lift (emap (fun r => search_card r iso639)
                        (search_rows con iso639 ("%" ++ q ++ "%") 12)) ;;
      ret (JObj [("query", JStr q); ("results", JArr out)]).


(** [tmdb_card(it)] of [app_home]: the card of a trending item, [None]
    when the item is neither a movie nor a series. *)
Definition tmdb_card (it : list (string * jval))
  : exn (option (list (string * jval))) :=
  mt0 <~ jstrip (jor (dget "media_type" it) (JStr EmptyString)) ;;
  let mt := lower mt0 in
  let movie := String.eqb mt "movie" in
  if movie || String.eqb mt "tv" then
    tid <~ py_int (jor (dget "id" it) (JInt 0)) ;;
    d <~ jstrip (jor (dget "overview" it) (JStr EmptyString)) ;;
    name <~ jstrip (jor (dget (if movie then "title" else "name") it) (JStr EmptyString)) ;;
    year <~ _year (dget (if movie then "release_date" else "first_air_date") it) ;;
    Val (Some [("id", JInt tid);
               ("kind", JStr (if movie then "movie" else "series"));
               ("name", JStr name);
               ("description", clip240 d);
               ("year", year);
               ("rating", dget "vote_average" it);
               ("poster", dget "poster_path" it);
               ("logo", dget "poster_path" it);
               ("backdrop", dget "backdrop_path" it)])
  else Val None.

(** The loop of [app_home] that keeps the trending items with a known
    media type and a positive id. *)
Fixpoint trending_items (items : list jval) : exn (list jval) :=
  match items with
  | [] => Val []
  | it :: rest =>
      m0 <~ jget "media_type" it ;;
      mt <~ jlower (jor m0 (JStr EmptyString)) ;;
      kept <~ trending_items rest ;;
      if negb (str_in mt ["movie"; "tv"]) then Val kept
      else
        match (i0 <~ jget "id" it ;; py_int (jor i0 (JInt 0))) with
        | Val i => Val (if i <=? 0 then kept else it :: kept)
        | Raised => Val kept
        end
  end.

(** [for it in picks: c = tmdb_card(it); if c: out.append(_enrich_card(c))] *)
Fixpoint trending_cards (app : App) (con : DB) (items : list jval)
    (iso639 : string) (iso3166 : option string) : M (list jval) :=
  match items with
  | [] => ret []
  | it :: rest =>
      c <- lift (match it with JObj kv => tmdb_card kv | _ => Raised end) ;;
      match c with
      | None => trending_cards app con rest iso639 iso3166
      | Some kv =>
          kv' <- _enrich_card app con kv iso639 iso3166 ;;
          cs <- trending_cards app con rest iso639 iso3166 ;;
          ret (JObj kv' :: cs)
      end
  end.

(** [random.sample(day, k=min(10, len(day)))], the positions drawn being
    [idx]. *)
Definition sample (idx : list nat) (day : list jval) : list jval :=
  take (Nat.min 10 (length day)) (omap (fun i => day !! i) idx).

Definition movie_cards (app : App) (con : DB) (rows : list movie_row)
    (iso639 : string) (iso3166 : option string) (with_description : bool)
  : exn (list jval) :=
  emap (fun r => _card_from_row app "movie" (movie_dict r) (Some con)
                   iso639 iso3166 with_description) rows.

Definition series_cards (app : App) (con : DB) (rows : list series_row)
    (iso639 : string) (iso3166 : option string) (with_description : bool)
  : exn (list jval) :=
  emap (fun r => _card_from_row app "tv" (series_dict r) (Some con)
                   iso639 iso3166 with_description) rows.

(** [SELECT * FROM movies ORDER BY COALESCE(popularity,0) DESC LIMIT n] *)
Definition top_movies (con : DB) (n : nat) : list movie_row :=
  take n (order_by (fun x y => Qleb (coalesce0 (m_popularity y))
                                    (coalesce0 (m_popularity x)))
                   (movies con)).

Definition top_series (con : DB) (n : nat) : list series_row :=
  take n (order_by (fun x y => Qleb (coalesce0 (s_popularity y))
                                    (coalesce0 (s_popularity x)))
                   (series con)).

(** The popular titles: [n] movies and [n] series, cut to [n] cards. *)
Definition popular_cards (app : App) (con : DB) (n : nat) (iso639 : string)
    (iso3166 : option string) (with_description : bool) : exn (list jval) :=
  ms <~ movie_cards app con (top_movies con n) iso639 iso3166 with_description ;;
  ss <~ series_cards app con (top_series con n) iso639 iso3166 with_description ;;
  Val (take n (ms ++ ss)).

(** The series of a provider: those whose [networks] match a needle. *)
Definition series_on_rows (con : DB) (p : string) : list series_row :=
  let needles := match table_get p PROVIDER_NEEDLES with
                 | Some (n :: ns) => n :: ns
                 | _ => [p]
                 end in
  take 18
    (order_by (fun x y => Qleb (coalesce0 (s_popularity y))
                               (coalesce0 (s_popularity x)))
       (List.filter
          (fun r => existsb (fun n => sql_like ("%" ++ n ++ "%")
                                        (ostr_or_empty (s_networks r))) needles)
          (series con))).

(** [top_rated]: of the 48 best rated, the 12 with most votes. *)
Definition top_rated_movies (con : DB) : list movie_row :=
  take 12
    (order_by (fun x y => coalesce0z (m_vote_count y) <=? coalesce0z (m_vote_count x))
       (take 48
          (order_by (fun x y => Qleb (coalesce0 (m_vote_average y))
                                     (coalesce0 (m_vote_average x)))
                    (movies con)))).

Definition top_rated_series (con : DB) : list series_row :=
  take 12
    (order_by (fun x y => coalesce0z (s_vote_count y) <=? coalesce0z (s_vote_count x))
       (take 48
          (order_by (fun x y => Qleb (coalesce0 (s_vote_average y))
                                     (coalesce0 (s_vote_average x)))
                    (series con)))).

(** The cards of one genre of the home page. *)
Definition genre_cards (app : App) (con : DB) (names : list string)
    (iso639 : string) (iso3166 : option string) : exn (list jval) :=
  if has_genres app && has_title_genres app then
    match names with
    | [] => Val []
    | _ => emap (fun r => list_card app con r iso639 iso3166)
             (run_statement app con (Select_by_genre_edges names 18 0))
    end
  else if str_in "genres" (movies_cols app) || str_in "genres" (series_cols app) then
    let pats := map (fun n => "%" ++ n ++ "%") names in
    emap (fun r => list_card app con r iso639 iso3166)
      (run_statement app con
         (Select_union (match names with [] => Where_none | _ => Where_genres_like pats end)
                       (match names with [] => Where_none | _ => Where_genres_like pats end)
                       By_pop 18 0))
  else Val [].

(** [{k: f(k) for k in keys}] *)
Fixpoint dict_of (keys : list string) (f : string -> exn (list jval))
  : exn (list (string * jval)) :=
  match keys with
  | [] => Val []
  | k :: rest => v <~ f k ;; d <~ dict_of rest f ;; Val ((k, JArr v) :: d)
  end.

(** The three trending blocks of the home page when a Provider key is
    set. *)
Definition home_trending (app : App) (con : DB) (iso639 : string)
    (iso3166 : option string) (rnd : list nat * list nat)
  : M (list jval * list jval * list jval) :=
  let lang_tag := _lang_tag iso639 iso3166 in
  day0 <- _tmdb_trending app "day" lang_tag ;;
  day <- lift (trending_items day0) ;;
  slider <- trending_cards app con (sample (fst rnd) day) iso639 iso3166 ;;
  top10 <- trending_cards app con (sample (snd rnd) day) iso639 iso3166 ;;
  week0 <- _tmdb_trending app "week" lang_tag ;;
  week <- lift (trending_items week0) ;;
  trending <- trending_cards app con week iso639 iso3166 ;;
  top10 <- (match top10 with
            | [] => lift (popular_cards app con 10 iso639 iso3166 false)
            | _ => ret top10
            end) ;;
  trending <- (match trending with
               | [] => lift (popular_cards app con 30 iso639 iso3166 false)
               | _ => ret trending
               end) ;;
  ret (slider, top10, trending).

Definition home_local (app : App) (con : DB) (iso639 : string)
    (iso3166 : option string) : exn (list jval * list jval * list jval) :=
  slider <~ popular_cards app con 10 iso639 iso3166 true ;;
  top10 <~ popular_cards app con 10 iso639 iso3166 false ;;
  trending <~ popular_cards app con 30 iso639 iso3166 false ;;
  Val (slider, top10, trending).

(** The object [app_home] composes on a cache miss, with the connection
    [con]; [rnd] gives the positions drawn by the two calls of
    [random.sample]. *)
Definition home_compose (app : App) (con : DB) (iso639 : string)
    (iso3166 : option string) (rnd : list nat * list nat) : M jval :=
  blocks <- (if str_truthy (tmdb_key app)
             then home_trending app con iso639 iso3166 rnd
             else lift (home_local app con iso639 iso3166)) ;;
  series_on <- lift
    (dict_of PROVIDERS
       (fun p => if str_in "networks" (series_cols app)
                 then series_cards app con (series_on_rows con p)
                        iso639 iso3166 false
                 else Val [])) ;;
  top_movies <- lift (movie_cards app con (top_rated_movies con)
                        iso639 iso3166 false) ;;
  top_series <- lift (series_cards app con (top_rated_series con)
                        iso639 iso3166 false) ;;
  genres <- lift
    (dict_of (map fst HOME_GENRES)
       (fun k => genre_cards app con
                   (match table_get k HOME_GENRES with Some ns => ns | None => [] end)
                   iso639 iso3166)) ;;
  as_of <- time_time ;;
  ret (JObj [("as_of", JInt (Z.quot (Qnum as_of) (Z.pos (Qden as_of))));
             ("providers", JArr (map JStr PROVIDERS));
             ("slider", JArr (fst (fst blocks)));
             ("top10_today", JArr (snd (fst blocks)));
             ("trending_today", JArr (snd blocks));
             ("series_on", JObj series_on);
             ("top_rated", JObj [("movies", JArr top_movies);
                                 ("series", JArr top_series)]);
             ("genres", JObj genres)]).

(** [app_home]: the cached object while it is fresh, else a new one,
    which is cached. *)
Definition app_home (app : App) (iso639 : string) (iso3166 : option string)
    (rnd : list nat * list nat) : M jval :=
  let lang_tag := _lang_tag iso639 iso3166 in
  now <- time_time ;;
  w <- get_world ;;
  match cache_fresh (home_cache w !! lang_tag) now (home_ttl_s app) with
  | Some out => ret out
  | None =>
      con <- _con ;;
      out <- home_compose app con iso639 iso3166 rnd ;;
      stored <- time_time ;;
      _ <- modify (fun w => set_home_cache
                              (<[lang_tag := (stored, out)]> (home_cache w)) w) ;;
      ret out
  end.

(** [app_search_page]: [home["trending_today"]] raises when the cached
    value has no such key. *)
Definition app_search_page (app : App) (iso639 : string)
    (iso3166 : option string) (rnd : list nat * list nat) : M jval :=
  home <- app_home app iso639 iso3166 rnd ;;
  match home with
  | JObj kv =>
      t <- lift (dindex "trending_today" kv) ;;
      ret (JObj [("trending_today", t); ("query", JStr EmptyString); ("results", JArr [])])
  | _ => raise
  end.


(** ** The GET-JSON contract as the specification words it

    Up to 6 attempts; on HTTP 429 the [Retry-After] header is honored
    when it is numeric, else the wait is 1 s; on 5xx and on a transport
    error the wait is [0.5 * 2^attempt]; on 200 the body is parsed and
    returned when it is an object; every other outcome is the sentinel
    [(None, None)].  The result comes with the waits made.  This
    definition follows the specification, not [app.py]; it is compared
    with [_tmdb_get_json] below. *)








(** ** Sample inputs

    The store of [tests/test_api.py], a configuration with a Provider
    key, and worlds around them. *)

(** The double quote. *)
Definition dq : string := String (ascii_of_nat 34) EmptyString.

Definition ex_env : Env :=
  {| env_TMDB_API_KEY := Some "k"; file_TMDB_API_KEY := None;
     env_TMDB_RPS := None; env_TMDB_RPS_FOREGROUND := None;
     env_BACKFILL_WORKERS := None; env_BACKFILL_QUEUE_LIMIT := None |}.

Definition ex_env_nokey : Env :=
  {| env_TMDB_API_KEY := None; file_TMDB_API_KEY := None;
     env_TMDB_RPS := None; env_TMDB_RPS_FOREGROUND := None;
     env_BACKFILL_WORKERS := None; env_BACKFILL_QUEUE_LIMIT := None |}.

Definition ex_logos (name : string) : string :=
  "{" ++ dq ++ "en" ++ dq ++ ":" ++ dq ++ "/" ++ name ++ "_logo_en.png" ++ dq ++ ","
  ++ dq ++ "de" ++ dq ++ ":" ++ dq ++ "/" ++ name ++ "_logo_de.png" ++ dq ++ "}".

Definition ex_db : DB :=
  {| db_tables := ["movies"; "series"; "title_translations"; "title_videos";
                   "tv_seasons"; "tv_episodes"; "title_cast"];
     db_movies_cols := ["id"; "title"; "vote_average"; "vote_count";
                        "release_date"; "overview"; "popularity"; "poster_path";
                        "backdrop_path"; "logos_json"; "genres"];
     db_series_cols := ["id"; "name"; "vote_average"; "vote_count";
                        "first_air_date"; "overview"; "popularity"; "poster_path";
                        "backdrop_path"; "logos_json"; "genres"; "networks";
                        "number_of_seasons"; "number_of_episodes"];
     movies :=
       [{| m_id := 1; m_title := Some "English Movie";
           m_vote_average := Some (87 # 10)%Q; m_vote_count := Some 900;
           m_release_date := Some "2024-05-01";
           m_overview := Some "English overview";
           m_popularity := Some 500%Q; m_poster_path := Some "/m1_poster.jpg";
           m_backdrop_path := Some "/m1_backdrop.jpg";
           m_logos_json := Some (ex_logos "m1");
           m_genres := Some "Action,Comedy" |}];
     series :=
       [{| s_id := 100; s_name := Some "English Series";
           s_vote_average := Some (91 # 10)%Q; s_vote_count := Some 1200;
           s_first_air_date := Some "2024-05-11";
           s_overview := Some "Series overview";
           s_popularity := Some 800%Q; s_poster_path := Some "/s1_poster.jpg";
           s_backdrop_path := Some "/s1_backdrop.jpg";
           s_logos_json := Some (ex_logos "s1");
           s_genres := Some "Drama,Action"; s_networks := Some "Netflix" |};
        {| s_id := 101; s_name := Some "Game of Thrones";
           s_vote_average := Some (92 # 10)%Q; s_vote_count := Some 5000;
           s_first_air_date := Some "2024-05-01";
           s_overview := Some "A story of thrones.";
           s_popularity := Some 600%Q; s_poster_path := Some "/got_poster.jpg";
           s_backdrop_path := Some "/got_backdrop.jpg";
           s_logos_json := Some (ex_logos "got");
           s_genres := Some "Drama"; s_networks := Some "HBO" |}];
     title_translations :=
       [{| tr_media_type := "movie"; tr_tmdb_id := 1; tr_iso_639_1 := "de";
           tr_iso_3166_1 := "DE"; tr_title := Some "Deutscher Film";
           tr_overview := Some "Deutsche Uebersicht" |};
        {| tr_media_type := "tv"; tr_tmdb_id := 100; tr_iso_639_1 := "de";
           tr_iso_3166_1 := "DE"; tr_title := Some "Deutsche Serie";
           tr_overview := Some "Serien Uebersicht" |};
        {| tr_media_type := "tv"; tr_tmdb_id := 101; tr_iso_639_1 := "de";
           tr_iso_3166_1 := "DE"; tr_title := Some "Spiel der Throne";
           tr_overview := Some "Eine Geschichte." |}];
     title_videos :=
       [{| v_media_type := "movie"; v_tmdb_id := 1; v_key := Some "abc123";
           v_site := Some "YouTube" |}];
     title_cast :=
       [{| c_media_type := "tv"; c_tmdb_id := 100; c_credit_id := "cred1" |}];
     tv_seasons := [{| se_series_id := 100; se_season_number := 1 |}];
     tv_episodes :=
       [{| ep_series_id := 100; ep_season_number := 1; ep_episode_number := 1 |}];
     genres := [];
     title_genres := [] |}.

Definition ex_app : App := App_init ex_env ex_db 0.
Definition ex_app_nokey : App := App_init ex_env_nokey ex_db 0.

(** The body of a trending answer of the Provider: a movie of the store,
    a series the store does not have, and a person. *)
Definition ex_trending : string :=
  "{" ++ dq ++ "results" ++ dq ++ ":[{" ++ dq ++ "id" ++ dq ++ ":1,"
  ++ dq ++ "media_type" ++ dq ++ ":" ++ dq ++ "movie" ++ dq ++ ","
  ++ dq ++ "title" ++ dq ++ ":" ++ dq ++ "Trending Movie" ++ dq ++ ","
  ++ dq ++ "overview" ++ dq ++ ":" ++ dq ++ " Provider overview " ++ dq ++ "},{"
  ++ dq ++ "id" ++ dq ++ ":7,"
  ++ dq ++ "media_type" ++ dq ++ ":" ++ dq ++ "tv" ++ dq ++ ","
  ++ dq ++ "name" ++ dq ++ ":" ++ dq ++ "Trending Show" ++ dq ++ "},{"
  ++ dq ++ "id" ++ dq ++ ":9,"
  ++ dq ++ "media_type" ++ dq ++ ":" ++ dq ++ "person" ++ dq ++ "}]}".

(** A decoder for the JSON texts of the samples. *)
Definition ex_texts : list (string * jval) :=
  [("{}", JObj []);
   ("[]", JArr []);
   ("{" ++ dq ++ "id" ++ dq ++ ":1}", JObj [("id", JInt 1)]);
   (ex_logos "m1", JObj [("en", JStr "/m1_logo_en.png"); ("de", JStr "/m1_logo_de.png")]);
   (ex_logos "s1", JObj [("en", JStr "/s1_logo_en.png"); ("de", JStr "/s1_logo_de.png")]);
   (ex_logos "got", JObj [("en", JStr "/got_logo_en.png"); ("de", JStr "/got_logo_de.png")]);
   (ex_trending,
    JObj [("results",
           JArr [JObj [("id", JInt 1); ("media_type", JStr "movie");
                       ("title", JStr "Trending Movie");
                       ("overview", JStr " Provider overview ")];
                 JObj [("id", JInt 7); ("media_type", JStr "tv");
                       ("name", JStr "Trending Show")];
                 JObj [("id", JInt 9); ("media_type", JStr "person")]])])].

Definition ex_loads (s : string) : option jval := table_get s ex_texts.

(** [LIKE] for the patterns [%needle%] of the samples: the needle occurs
    in the text. *)
Fixpoint is_prefix (a s : string) : bool :=
  match a, s with
  | EmptyString, _ => true
  | String c a', String d s' => Ascii.eqb c d && is_prefix a' s'
  | _, EmptyString => false
  end.

Fixpoint occurs (a s : string) : bool :=
  is_prefix a s || match s with EmptyString => false | String _ s' => occurs a s' end.

Definition ex_like (pattern text : string) : bool :=
  match pattern with
  | String "%" p => occurs (substring 0 (String.length p - 1) p) text
  | _ => String.eqb pattern text
  end.

Definition ex_accepts (_ : DB) (_ : list sql_write) (_ : sql_write) : bool := true.

(** A world at rest around [ex_db], with the Provider [p]: its clock reads
    1000, 1001, ... seconds. *)
Definition ex_world (p : nat -> string -> wire) : World :=
  {| clock := fun n => (1000 + inject_Z (Z.of_nat n))%Q; ticks := 0;
     provider := p; requests := []; store := ex_db; store_ok := true;
     committed := []; similar_cache := ∅; home_cache := ∅;
     trending_cache := ∅; backfill_recent := ∅; backfill_inflight := ∅;
     backfill_queue := []; tmdb_tls_bg := false |}.


(** A Provider that always answers 500, and one that is unreachable. *)
Definition ex_provider_500 (_ : nat) (_ : string) : wire :=
  WireHTTP 500 [] EmptyString.

Definition ex_provider_down (_ : nat) (_ : string) : wire := WireError.

(** A Provider that answers every request with the trending body. *)
Definition ex_provider_trending (_ : nat) (_ : string) : wire :=
  WireHTTP 200 [] ex_trending.


(** ** Runs of the scheduler

    What can happen to the backfill state: a call of [_schedule_backfill],
    a worker running the oldest task, and any other reading of the
    clock. *)
Inductive op : Type :=
| Op_schedule (media_type : string) (tid : Z) (iso639 : string)
    (iso3166 : option string) (full : bool)
| Op_worker
| Op_tick.

Definition step (app : App) (o : op) (w : World) : World :=
  match o with
  | Op_schedule mt tid l r f => world_of (_schedule_backfill app mt tid l r f w)
  | Op_worker => worker app w
  | Op_tick => world_of (time_time w)
  end.

(** The tasks submitted along a run, oldest first: for each call that
    made the queue grow, the clock reading of the call and the key. *)
Fixpoint submissions (app : App) (ops : list op) (w : World) : list (Q * bkey) :=
  match ops with
  | [] => []
  | o :: rest =>
      let w' := step app o w in
      match o with
      | Op_schedule mt tid l r f =>
          if (length (backfill_queue w) <? length (backfill_queue w'))%nat
          then (clock w (ticks w), backfill_key mt tid l r f)
               :: submissions app rest w'
          else submissions app rest w'
      | _ => submissions app rest w'
      end
  end.

(** The arguments [_schedule_backfill] accepts. *)
Definition schedulable (app : App) (media_type : string) (tid : Z) : Prop :=
  tmdb_key app <> EmptyString /\
  (media_type = "movie" \/ media_type = "tv") /\ 0 < tid.


(** The world after the clock was read once. *)
Definition ticked (w : World) : World := world_of (time_time w).

(** The recorded timestamps are readings of the clock made so far: they are
    positive and none is later than the next reading. *)
Definition recent_ok (w : World) : Prop :=
  forall k r, backfill_recent w !! k = Some r ->
    (0 < r)%Q /\ (r <= clock w (ticks w))%Q.

(** The wall clock is past the epoch and does not go back. *)
Definition clock_ok (w : World) : Prop :=
  (forall n, (0 < clock w n)%Q) /\ (forall n, (clock w n <= clock w (S n))%Q).


(** What a call of [_schedule_backfill] does to the scheduler state. *)
Inductive schedule_outcome (app : App) (w : World) (k : bkey) (w' : World)
  : Prop :=
| Outcome_ignored :
    w' = w -> schedule_outcome app w k w'
| Outcome_suppressed :
    w' = ticked w -> recently app w k (clock w (ticks w)) = true ->
    schedule_outcome app w k w'
| Outcome_recorded :
    recently app w k (clock w (ticks w)) = false ->
    clock w' = clock w -> ticks w' = S (ticks w) ->
    backfill_recent w' = <[k := clock w (ticks w)]> (backfill_recent w) ->
    backfill_queue w' = backfill_queue w ->
    schedule_outcome app w k w'
| Outcome_submitted :
    recently app w k (clock w (ticks w)) = false ->
    clock w' = clock w -> ticks w' = S (ticks w) ->
    backfill_recent w' = <[k := clock w (ticks w)]> (backfill_recent w) ->
    length (backfill_queue w') = S (length (backfill_queue w)) ->
    schedule_outcome app w k w'.

(** ** What a computation leaves untouched *)

(** [only_net w w']: [w'] is [w] but for the requests sent and the
    statements committed. *)
Definition only_net (w w' : World) : Prop :=
  w' = set_requests (requests w') (set_committed (committed w') w).

(** [similar_but k w w']: in [w'] the clock is the one of [w] and has been
    read at least as often, and the cache of similar titles is the one of
    [w] except perhaps at [k]. *)
Definition similar_but (k : string * Z * string) (w w' : World) : Prop :=
  clock w' = clock w /\ (ticks w <= ticks w')%nat /\
  forall k0, k0 <> k -> similar_cache w' !! k0 = similar_cache w !! k0.

(** The lookups of similar titles made one after the other: for each, its
    key, the number of requests it sent and the list it returned ([None]
    when it raised). *)
Fixpoint lookups (app : App) (calls : list (string * Z * string * option string))
    (w : World) : list ((string * Z * string) * nat * option (list jval)) :=
  match calls with
  | [] => []
  | (kind, tid, l, r) :: rest =>
      let out := _tmdb_similar app kind tid l r w in
      ((kind, tid, _lang_tag l r),
       (length (requests (world_of out)) - length (requests w))%nat,
       match out with Ok v _ => Some v | Exc _ => None end)
      :: lookups app rest (world_of out)
  end.

(** [respects R m]: however [m] ends, the world it leaves is related by
    [R] to the world it started in. *)
Definition respects (R : World -> World -> Prop) {A : Type} (m : M A) : Prop :=
  forall w, R w (world_of (m w)).

(** The [LIMIT] and [OFFSET] of a list statement. *)
Definition stmt_limit (s : statement) : Z :=
  match s with
  | Select_by_genre_edges _ limit _ => limit
  | Select_union _ _ _ limit _ => limit
  end.


(** The keys of a dictionary, in order. *)
Definition keys (kv : list (string * jval)) : list string := map fst kv.



(** The bucket a backfill worker draws from. *)
Definition worker_bucket (app : App) : bucket_name :=
  if bool_decide (is_Some (tmdb_bg_limiter app)) then Background else Foreground.


(** The world after one request for [url] was sent. *)
Definition sent (app : App) (url : string) (timeout_s : Z) (w : World) : World :=
  set_requests
    (requests w ++
     [{| rq_bucket := if tmdb_tls_bg w && bool_decide (is_Some (tmdb_bg_limiter app))
                      then Background else Foreground;
         rq_url := url; rq_timeout := timeout_s |}]) w.





(** The task of a full backfill of movie 1 for French: the sample store
    has neither a French row nor cast rows for it. *)
Definition ex_task : task :=
  {| t_media_type := "movie"; t_tid := 1; t_iso639 := "fr"; t_iso3166 := None;
     t_full := true; t_key := backfill_key "movie" 1 "fr" None true |}.

(** The world in which that task has just been submitted. *)
Definition ex_world_submitted : World :=
  world_of (_schedule_backfill ex_app "movie" 1 "fr" None true
              (ex_world ex_provider_down)).


(** ** The shape of a card *)

Definition K9 : list string :=
  ["id"; "kind"; "name"; "description"; "year"; "rating"; "poster"; "logo";
   "backdrop"].

Definition K8 : list string :=
  ["id"; "kind"; "name"; "year"; "rating"; "poster"; "logo"; "backdrop"].

(** A description: nothing, or a text of at most 240 characters, or the
    first 240 characters of a longer text and an ellipsis. *)
Definition description_ok (v : jval) : Prop :=
  v = JNull \/
  exists s, s <> EmptyString /\
    (((String.length s <= 240)%nat /\ v = JStr s) \/
     ((240 < String.length s)%nat /\ v = JStr (substring 0 240 s ++ "…"))).

(** A card: a dictionary with the nine keys of a card, or the eight
    without [description], whose kind is [movie] or [series] and whose
    description, when there is one, is a clipped text. *)
Definition card_ok (c : jval) : Prop :=
  exists kv, c = JObj kv /\
    (keys kv = K9 \/ keys kv = K8) /\
    (dget "kind" kv = JStr "movie" \/ dget "kind" kv = JStr "series") /\
    description_ok (dget "description" kv).

(** A list of cards, and a dictionary of lists of cards. *)
Definition cards_ok (v : jval) : Prop :=
  exists l, v = JArr l /\ Forall card_ok l.

Definition card_map_ok (v : jval) : Prop :=
  exists d, v = JObj d /\ Forall (fun p => cards_ok (snd p)) d.

(** The home object: all its cards are cards. *)
Definition home_ok (out : jval) : Prop :=
  exists kv, out = JObj kv /\
    cards_ok (dget "slider" kv) /\ cards_ok (dget "top10_today" kv) /\
    cards_ok (dget "trending_today" kv) /\ card_map_ok (dget "series_on" kv) /\
    card_map_ok (dget "top_rated" kv) /\ card_map_ok (dget "genres" kv).

(** The home objects in the cache were composed by [app_home]. *)
Definition home_cache_ok (w : World) : Prop :=
  forall k t v, home_cache w !! k = Some (t, v) -> home_ok v.

(** [home_same w w']: the home cache of [w'] is the one of [w]. *)
Definition home_same (w w' : World) : Prop := home_cache w' = home_cache w.

(** [post m Q]: what [m] returns satisfies [Q]. *)
Definition post {A : Type} (m : M A) (Q : A -> Prop) : Prop :=
  forall w a w', m w = Ok a w' -> Q a.

(** The description of a card built from a text. *)
Definition kind_ok (s : string) : Prop := s = "movie" \/ s = "series".


(** The tokens of a bucket are between 0 and its capacity. *)
Definition bucket_ok (b : _TokenBucket) : Prop :=
  (0 <= tb_tokens b)%Q /\ (tb_tokens b <= tb_capacity b)%Q.

(** The text before the first [sep]: [s] read as [a] followed by nothing
    or by [sep] and more, with no [sep] in [a]. *)
Definition first_field (sep : ascii) (s a : string) : Prop :=
  str_contains sep a = false /\ (s = a \/ exists b, s = a ++ String sep b).

(** A card with all nine keys. *)
Definition full_card (kv : list (string * jval)) : Prop :=
  keys kv = K9 /\
  (dget "kind" kv = JStr "movie" \/ dget "kind" kv = JStr "series") /\
  description_ok (dget "description" kv).


(** ** Further properties: what they speak of *)



(** ** server.py: the rate limit per client address *)

(** [H._client_ip]: [headers] gives the value of a request header and
    [peer] is [client_address[0]]. *)
Definition _client_ip (headers : string -> option string) (peer : string)
  : string :=
  let ip := strip (ostr_or_empty (headers "CF-Connecting-IP")) in
  if str_truthy ip then ip
  else
    let xff := strip (ostr_or_empty (headers "X-Forwarded-For")) in
    if str_truthy xff then strip (fst (split_once "," xff))
    else strip peer.

(** [float(raw) if raw else 3.0] and [float(raw) if raw else 120.0] for
    [RATE_LIMIT_RPS] and [RATE_LIMIT_BURST]: the variable is [None] when
    unset or blank, else the number spelled. *)
Definition rate_rps (rps_env : option Q) : Q :=
  match rps_env with Some r => r | None => 3%Q end.

Definition rate_burst (burst_env : option Q) : Q :=
  match burst_env with Some r => r | None => 120%Q end.

(** [H._rate_allow] when [time.monotonic()] reads [now]: whether the
    request may pass, and the table [H._rl] afterwards, which holds for
    an address its tokens and the time of its last request. *)
Definition _rate_allow (rps_env burst_env : option Q)
    (headers : string -> option string) (peer : string) (now : Q)
    (rl : gmap string (Q * Q)) : bool * gmap string (Q * Q) :=
  let rps := rate_rps rps_env in
  let burst := rate_burst burst_env in
  if Qleb rps 0 || Qleb burst 0 then (true, rl)
  else
    let ip := _client_ip headers peer in
    let cur := match rl !! ip with Some e => e | None => (burst, now) end in
    let tokens := py_min burst (fst cur + (now - snd cur) * rps)%Q in
    let put (e : Q * Q) : gmap string (Q * Q) :=
      let rl1 := <[ip := e]> rl in
      if 20000 <? Z.of_nat (size rl1) then ∅ else rl1 in
    if Qltb tokens 1 then (false, put (tokens, now))
    else (true, put ((tokens - 1)%Q, now)).

(** A request as the rate limit sees it: its headers, the address of its
    peer and the reading of the monotonic clock. *)
Record hit := {
  h_headers : string -> option string;
  h_peer : string;
  h_now : Q
}.

(** The requests of [hits] that come from the address [a] and pass, and
    the table after them all. *)
Fixpoint passed (rps_env burst_env : option Q) (a : string) (hits : list hit)
    (rl : gmap string (Q * Q)) : nat * gmap string (Q * Q) :=
  match hits with
  | [] => (O, rl)
  | h :: rest =>
      let r := _rate_allow rps_env burst_env (h_headers h) (h_peer h) (h_now h) rl in
      let r' := passed rps_env burst_env a rest (snd r) in
      ((if fst r && String.eqb (_client_ip (h_headers h) (h_peer h)) a
        then S (fst r') else fst r'), snd r')
  end.






(** ** The state of the scheduler *)

(** The bookkeeping of the scheduler is sound: the queued tasks have
    distinct keys, each the key of the task's own arguments and held by
    [inflight], and [inflight] holds at most [backfill_queue_limit] keys. *)
Definition queue_ok (app : App) (w : World) : Prop :=
  NoDup (map t_key (backfill_queue w)) /\
  (forall tk, tk ∈ backfill_queue w ->
     t_key tk ∈ backfill_inflight w /\
     t_key tk = backfill_key (t_media_type tk) (t_tid tk) (t_iso639 tk)
                  (t_iso3166 tk) (t_full tk)) /\
  Z.of_nat (size (backfill_inflight w)) <= Z.max 0 (backfill_queue_limit app).

(** The world after a run of calls, worker tasks and clock readings. *)
Definition steps (app : App) (ops : list op) (w : World) : World :=
  foldl (fun w o => step app o w) w ops.


(** ** Who pays for a request *)

(** The bucket [_tmdb_open] draws from in a world. *)
Definition charged_bucket (app : App) (w : World) : bucket_name :=
  if tmdb_tls_bg w && bool_decide (is_Some (tmdb_bg_limiter app))
  then Background else Foreground.

(** [billed app w w']: the flag of the thread is the same in [w'], and the
    requests sent on the way from [w] to [w'] were all paid by the bucket
    of that flag. *)
Definition billed (app : App) (w w' : World) : Prop :=
  tmdb_tls_bg w' = tmdb_tls_bg w /\
  exists new, requests w' = (requests w ++ new)%list /\
    Forall (fun r => rq_bucket r = charged_bucket app w) new.

(** [quiet w w']: nothing was sent and the scheduler was not touched. *)
Definition quiet (w w' : World) : Prop :=
  requests w' = requests w /\ tmdb_tls_bg w' = tmdb_tls_bg w /\
  backfill_queue w' = backfill_queue w /\
  backfill_inflight w' = backfill_inflight w /\
  backfill_recent w' = backfill_recent w.




(** ** The rows behind the pages *)




(** ** Locales in normal form *)

(** A locale as [_split_lang] writes it: a language that is not empty,
    has no white space around it, no upper-case letter and no separator,
    and no region or one that is not empty, has no white space around it,
    no lower-case letter and no underscore. *)
Definition locale_ok (p : string * option string) : Prop :=
  fst p <> EmptyString /\ strip (fst p) = fst p /\ lower (fst p) = fst p /\
  str_contains "-" (fst p) = false /\ str_contains "_" (fst p) = false /\
  match snd p with
  | None => True
  | Some r =>
      r <> EmptyString /\ strip r = r /\ upper r = r /\ str_contains "_" r = false
  end.


(** [same_committed w w']: nothing was committed between [w] and [w']. *)
Definition same_committed (w w' : World) : Prop := committed w' = committed w.

(** [commits_last m]: [m] commits nothing when it raises, and when it
    returns what it has committed is one batch of statements. *)
Definition commits_last {A : Type} (m : M A) : Prop :=
  forall w,
    match m w with
    | Exc w' => committed w' = committed w
    | Ok _ w' => exists stmts, committed w' = (committed w ++ stmts)%list
    end.


(** [logo_of it loc fp]: the entry [it] of a list of logos is a logo of
    language [loc] with the file path [fp]. *)
Definition logo_of (it : jval) (loc : string) (fp : jval) : Prop :=
  exists kv, it = JObj kv /\ dget "file_path" kv = fp /\ jtruthy fp = true /\
             logo_lang kv = Val loc.


(** The body of the loop of [harvest]. *)
Definition harvest_step (it : jval) (by_lang : list (string * jval))
  : exn (list (string * jval) * bool) :=
  match it with
  | JObj kv =>
      let fp := dget "file_path" kv in
      if negb (jtruthy fp) then Val (by_lang, true)
      else
        loc <~ logo_lang kv ;;
        Val (if dhas loc by_lang then by_lang
             else (by_lang ++ [(loc, fp)])%list, true)
  | _ => Val (by_lang, true)
  end.


(** [nonblank v]: [(v or "").strip()] is a string that is not empty. *)
Definition nonblank (v : jval) : Prop :=
  exists d, jstrip (jor v (JStr EmptyString)) = Val d /\ str_truthy d = true.

(** [enriched card card']: [card'] is [card] but for its name, description,
    logo and backdrop; no key is lost, a name is not replaced by an empty
    one, and a description that is not blank and a backdrop are kept. *)
Definition enriched (card card' : list (string * jval)) : Prop :=
  (forall k, ~ In k ["name"; "description"; "logo"; "backdrop"] ->
     dget k card' = dget k card) /\
  (forall k, dhas k card = true -> dhas k card' = true) /\
  (jtruthy (dget "name" card) = true -> jtruthy (dget "name" card') = true) /\
  (nonblank (dget "description" card) ->
     dget "description" card' = dget "description" card) /\
  (jtruthy (dget "backdrop" card) = true ->
     dget "backdrop" card' = dget "backdrop" card).


(** [same_similar w w']: the cache of similar titles is the same in [w]
    and [w']. *)
Definition same_similar (w w' : World) : Prop :=
  similar_cache w' = similar_cache w.

(** A card of a list of similar titles: a dictionary with a positive id
    and a kind. *)
Definition similar_card_ok (c : jval) : Prop :=
  exists kv i, c = JObj kv /\ dget "id" kv = JInt i /\ 0 < i /\
    (dget "kind" kv = JStr "movie" \/ dget "kind" kv = JStr "series").

(** A list of similar titles as [_tmdb_similar] builds it. *)
Definition similar_list_ok (out : list jval) : Prop :=
  (length out <= 24)%nat /\ Forall similar_card_ok out.

(** Every list of the cache of similar titles is such a list. *)
Definition similar_cache_ok (w : World) : Prop :=
  forall k t out, similar_cache w !! k = Some (t, out) -> similar_list_ok out.


(** * Properties *)

Example split_lang_de_de : _split_lang "de_de" = ("de", Some "DE").
Proof. reflexivity. Qed.

Example split_lang_blank_lang : _split_lang " -us " = ("en", Some "US").
Proof. reflexivity. Qed.

Example pick_lang_query_wins :
  _pick_lang {[ "lang" := ["de"] ]} (Some "en-US,en;q=0.9") = ("de", None).
Proof. vm_compute. reflexivity. Qed.

Example pick_lang_header :
  _pick_lang ∅ (Some "de-DE;q=0.8, en") = ("de", Some "DE").
Proof. vm_compute. reflexivity. Qed.

(** ** Boolean tests on rationals *)

Lemma Qleb_true (a b : Q) : Qleb a b = true <-> (a <= b)%Q.
Proof. apply Qle_bool_iff. Qed.

Lemma Qleb_false (a b : Q) : Qleb a b = false <-> (b < a)%Q.
Proof.
  unfold Qleb. split; intros H.
  - apply Qnot_le_lt. intros Hle. apply Qle_bool_iff in Hle. congruence.
  - destruct (Qle_bool a b) eqn:E; [|reflexivity].
    apply Qle_bool_iff in E. exfalso. exact (Qlt_not_le _ _ H E).
Qed.

Lemma Qltb_true (a b : Q) : Qltb a b = true <-> (a < b)%Q.
Proof.
  unfold Qltb. rewrite negb_true_iff. apply (Qleb_false b a).
Qed.

Lemma Qltb_false (a b : Q) : Qltb a b = false <-> (b <= a)%Q.
Proof.
  unfold Qltb. rewrite negb_false_iff. apply (Qleb_true b a).
Qed.

Lemma py_min_spec (a b : Q) :
  ((b < a)%Q /\ py_min a b = b) \/ ((a <= b)%Q /\ py_min a b = a).
Proof.
  unfold py_min. destruct (Qltb b a) eqn:E.
  - left. split; [now apply Qltb_true|reflexivity].
  - right. split; [now apply Qltb_false|reflexivity].
Qed.

Lemma py_max_spec (a b : Q) :
  ((a < b)%Q /\ py_max a b = b) \/ ((b <= a)%Q /\ py_max a b = a).
Proof.
  unfold py_max. destruct (Qltb a b) eqn:E.
  - left. split; [now apply Qltb_true|reflexivity].
  - right. split; [now apply Qltb_false|reflexivity].
Qed.

(** ** The token bucket keeps its tokens between 0 and its capacity *)

Lemma refill_shape (b : _TokenBucket) (now : Q) :
  tb_rate (refill b now) = tb_rate b /\
  tb_capacity (refill b now) = tb_capacity b.
Proof. unfold refill. destruct (Qltb 0 (now - tb_t b)); auto. Qed.

Lemma refill_ok (b : _TokenBucket) (now : Q) :
  (0 < tb_rate b)%Q -> bucket_ok b -> bucket_ok (refill b now).
Proof.
  intros Hr [H0 Hc]. unfold refill.
  destruct (Qltb 0 (now - tb_t b)) eqn:E; [|split; assumption].
  apply Qltb_true in E.
  assert (Hp : (0 < (now - tb_t b) * tb_rate b)%Q)
    by (apply Qmult_lt_0_compat; assumption).
  unfold bucket_ok; simpl.
  destruct (py_min_spec (tb_capacity b)
              (tb_tokens b + (now - tb_t b) * tb_rate b)) as [[Hlt ->]|[Hle ->]];
    split; lra.
Qed.

Lemma acquire_step_ok (b : _TokenBucket) (n now : Q) :
  (0 < tb_rate b)%Q -> (0 < n)%Q -> bucket_ok b ->
  match acquire_step b n now with
  | inl b' | inr (b', _) =>
      bucket_ok b' /\ tb_rate b' = tb_rate b /\ tb_capacity b' = tb_capacity b
  end.
Proof.
  intros Hr Hn Hb. unfold acquire_step.
  pose proof (refill_ok b now Hr Hb) as [H0 Hc].
  pose proof (refill_shape b now) as [Er Ec].
  destruct (Qleb n (tb_tokens (refill b now))) eqn:E.
  - apply Qleb_true in E. unfold bucket_ok; simpl.
    repeat split; try assumption; lra.
  - repeat split; assumption.
Qed.

Lemma acquire_loop_ok (clock : list Q) (b : _TokenBucket) (n : Q) :
  (0 < tb_rate b)%Q -> (0 < n)%Q -> bucket_ok b ->
  let b' := fst (acquire_loop b n clock) in
  bucket_ok b' /\ tb_rate b' = tb_rate b /\ tb_capacity b' = tb_capacity b.
Proof.
  revert b. induction clock as [|now rest IH]; intros b Hr Hn Hb; simpl.
  - auto.
  - pose proof (acquire_step_ok b n now Hr Hn Hb) as Hs.
    destruct (acquire_step b n now) as [b1|[b1 need]]; simpl.
    + exact Hs.
    + destruct Hs as (Hb1 & Er & Ec).
      assert (Hr1 : (0 < tb_rate b1)%Q) by (rewrite Er; exact Hr).
      destruct (IH b1 Hr1 Hn Hb1) as (Hb2 & Er2 & Ec2).
      repeat split; try apply Hb2; congruence.
Qed.

Lemma acquire_ok (b : _TokenBucket) (n : Q) (clock : list Q) :
  (0 < tb_rate b)%Q -> (0 < n)%Q -> bucket_ok b ->
  let b' := fst (acquire b n clock) in
  bucket_ok b' /\ tb_rate b' = tb_rate b /\ tb_capacity b' = tb_capacity b.
Proof.
  intros Hr Hn Hb. unfold acquire.
  destruct (Qleb (tb_rate b) 0) eqn:E; simpl; [auto|].
  apply acquire_loop_ok; assumption.
Qed.

Lemma acquire_all_ok (calls : list (Q * list Q)) (b : _TokenBucket) :
  (0 < tb_rate b)%Q -> bucket_ok b ->
  Forall (fun c => (0 < fst c)%Q /\ (fst c <= tb_capacity b)%Q) calls ->
  bucket_ok (acquire_all b calls).
Proof.
  revert b. induction calls as [|[n clock] rest IH]; intros b Hr Hb Hall; simpl.
  - exact Hb.
  - inversion Hall as [|? ? [Hn Hle] Hrest]; subst. simpl in Hn, Hle.
    destruct (acquire_ok b n clock Hr Hn Hb) as (Hb1 & Er & Ec).
    apply IH; [rewrite Er; exact Hr | exact Hb1 |].
    rewrite Ec. exact Hrest.
Qed.


(** C9.  A bucket created with a positive rate starts full, and after every
    one of a sequence of [acquire(n)] calls with [0 < n <= capacity] its
    token count is at least 0 and at most its capacity, whatever the clock
    reads during the calls: after the first [k] calls, for every [k >= 1]. *)
Theorem token_bucket_invariant
    (rate : Q) (capacity : option Q) (t0 : Q) (calls : list (Q * list Q)) :
  (0 < rate)%Q ->
  Forall (fun c => (0 < fst c)%Q /\
                   (fst c <= tb_capacity (TokenBucket_init rate capacity t0))%Q)
         calls ->
  forall k : nat, (0 < k <= length calls)%nat ->
    let b := acquire_all (TokenBucket_init rate capacity t0) (take k calls) in
    (0 <= tb_tokens b)%Q /\ (tb_tokens b <= tb_capacity b)%Q /\
    tb_capacity b = tb_capacity (TokenBucket_init rate capacity t0).
Proof.
  intros Hr Hall k Hk.
  set (b0 := TokenBucket_init rate capacity t0) in *.
  assert (Hpre : Forall (fun c => (0 < fst c)%Q /\ (fst c <= tb_capacity b0)%Q)
                   (take k calls)) by (apply Forall_take; exact Hall).
  assert (Hb0 : bucket_ok b0).
  { destruct calls as [|c calls0]; [simpl in Hk; lia|].
    inversion Hall as [|? ? [Hn Hle] _]; subst.
    unfold bucket_ok. replace (tb_tokens b0) with (tb_capacity b0) by reflexivity.
    split; [lra|apply Qle_refl]. }
  assert (Hr0 : (0 < tb_rate b0)%Q) by exact Hr.
  clearbody b0. clear Hall Hk.
  revert b0 Hb0 Hr0 Hpre. induction (take k calls) as [|[n clock] rest IH];
    intros b0 Hb0 Hr0 Hpre; simpl.
  - destruct Hb0. auto.
  - inversion Hpre as [|? ? [Hn Hle] Hrest]; subst. simpl in Hn, Hle.
    destruct (acquire_ok b0 n clock Hr0 Hn Hb0) as (Hb1 & Er & Ec).
    rewrite <- Ec. apply IH; [exact Hb1|rewrite Er; exact Hr0|].
    rewrite Ec. exact Hrest.
Qed.

(** Witness of C9: the foreground bucket of the default configuration
    (rate 7, capacity 7) and two calls of [acquire(1)]. *)
Lemma token_bucket_invariant_witness :
  let b := acquire_all (TokenBucket_init 7 (Some 7%Q) 100)
                       (take 2 [(1%Q, [100%Q]); (1%Q, [(201#2)%Q])]) in
  (0 <= tb_tokens b)%Q /\ (tb_tokens b <= tb_capacity b)%Q /\
  tb_capacity b = tb_capacity (TokenBucket_init 7 (Some 7%Q) 100).
Proof.
  apply (token_bucket_invariant 7 (Some 7%Q) 100
           [(1%Q, [100%Q]); (1%Q, [(201#2)%Q])]).
  - reflexivity.
  - repeat constructor; simpl; discriminate.
  - simpl. lia.
Defined.

(** ** The split of the total Provider rate *)

(** C6 (as amended).  The foreground bucket always gets capacity
    [max(1, fg)] and starts full.  When the total rate [R] exceeds 1, its
    rate is [fg = min(configured_fg, R - 1)] and a background bucket is
    created with rate [bg = max(0, R - fg)], which is [R - fg > 0], and
    capacity [max(1, bg)].  When [R <= 1] the foreground bucket gets the
    whole rate [R] and no background bucket is created. *)
Theorem limiter_split (e : Env) (now : Q) :
  let R := init_tmdb_rps e in
  let fgl := init_tmdb_fg_limiter e now in
  tb_capacity fgl = py_max 1 (tb_rate fgl) /\
  tb_tokens fgl = tb_capacity fgl /\
  (((1 < R)%Q /\
    tb_rate fgl = py_min (init_fg_cfg e) (R - 1) /\
    exists bgl, init_tmdb_bg_limiter e now = Some bgl /\
      tb_rate bgl = py_max 0 (R - tb_rate fgl) /\
      (tb_rate bgl == R - tb_rate fgl)%Q /\ (0 < tb_rate bgl)%Q /\
      tb_capacity bgl = py_max 1 (tb_rate bgl) /\
      tb_tokens bgl = tb_capacity bgl)
   \/
   ((R <= 1)%Q /\ tb_rate fgl = R /\ init_tmdb_bg_limiter e now = None)).
Proof.
  intros R fgl. split; [reflexivity|]. split; [reflexivity|].
  unfold fgl, init_tmdb_fg_limiter, init_tmdb_bg_limiter, init_bg, init_fg.
  fold R. simpl.
  destruct (Qltb 1 R) eqn:E.
  - left. apply Qltb_true in E. split; [exact E|]. split; [reflexivity|].
    assert (Hfg : (py_min (init_fg_cfg e) (R - 1) <= R - 1)%Q).
    { destruct (py_min_spec (init_fg_cfg e) (R - 1)) as [[? ->]|[? ->]]; lra. }
    assert (Hbg : (0 < R - py_min (init_fg_cfg e) (R - 1))%Q) by lra.
    assert (Emax : py_max 0 (R - py_min (init_fg_cfg e) (R - 1))
                   = (R - py_min (init_fg_cfg e) (R - 1))%Q).
    { unfold py_max. apply Qltb_true in Hbg. rewrite Hbg. reflexivity. }
    rewrite Emax. apply Qltb_true in Hbg. rewrite Hbg.
    eexists. split; [reflexivity|]. simpl.
    apply Qltb_true in Hbg. repeat split; try reflexivity; try exact Hbg.
  - right. apply Qltb_false in E. split; [exact E|]. split; [reflexivity|].
    assert (Emax : py_max 0 (R - R) = 0%Q).
    { unfold py_max. assert (H : Qltb 0 (R - R) = false)
        by (apply Qltb_false; lra). rewrite H. reflexivity. }
    rewrite Emax. reflexivity.
Qed.

(** C6 fails as stated: with a total rate of 1 and the default foreground
    setting, the foreground rate is 1, not [min(7, 1 - 1) = 0], and there
    is no background bucket. *)
Lemma limiter_split_counterexample :
  let e := {| env_TMDB_API_KEY := Some "k"; file_TMDB_API_KEY := None;
              env_TMDB_RPS := Some 1%Q; env_TMDB_RPS_FOREGROUND := None;
              env_BACKFILL_WORKERS := None; env_BACKFILL_QUEUE_LIMIT := None |} in
  ~ ((tb_rate (init_tmdb_fg_limiter e 0)
      == py_min (init_fg_cfg e) (init_tmdb_rps e - 1))%Q /\
     exists bgl, init_tmdb_bg_limiter e 0 = Some bgl /\
       (tb_rate bgl == py_max 0 (init_tmdb_rps e - tb_rate (init_tmdb_fg_limiter e 0)))%Q).
Proof.
  intros e [H _]. vm_compute in H. discriminate H.
Qed.

Example limiter_split_default :
  let e := {| env_TMDB_API_KEY := Some "k"; file_TMDB_API_KEY := None;
              env_TMDB_RPS := None; env_TMDB_RPS_FOREGROUND := None;
              env_BACKFILL_WORKERS := None; env_BACKFILL_QUEUE_LIMIT := None |} in
  tb_rate (init_tmdb_fg_limiter e 0) = 7%Q /\
  (tb_rate <$> init_tmdb_bg_limiter e 0) = Some (47 - 7)%Q.
Proof. vm_compute. split; reflexivity. Qed.

(** ** The locale resolver *)

Lemma str_truthy_true (s : string) : str_truthy s = true <-> s <> EmptyString.
Proof. destruct s; simpl; split; intros; congruence. Qed.

Lemma str_truthy_false (s : string) : str_truthy s = false <-> s = EmptyString.
Proof. destruct s; simpl; split; intros; congruence. Qed.

Lemma str_map_app (f : ascii -> ascii) (a b : string) :
  str_map f (a ++ b) = str_map f a ++ str_map f b.
Proof. induction a as [|c a IH]; simpl; [reflexivity|]. now rewrite IH. Qed.

Lemma split_once_none (sep : ascii) (a : string) :
  str_contains sep a = false -> split_once sep a = (a, None).
Proof.
  induction a as [|c a IH]; simpl; intros H; [reflexivity|].
  apply orb_false_iff in H as [Hc Ha]. rewrite Hc, (IH Ha). reflexivity.
Qed.

Lemma split_once_app (sep : ascii) (a b : string) :
  str_contains sep a = false ->
  split_once sep (a ++ String sep b) = (a, Some b).
Proof.
  induction a as [|c a IH]; simpl; intros H.
  - now rewrite Ascii.eqb_refl.
  - apply orb_false_iff in H as [Hc Ha]. rewrite Hc, (IH Ha). reflexivity.
Qed.

Lemma str_contains_app (sep : ascii) (a b : string) :
  str_contains sep (a ++ b) = str_contains sep a || str_contains sep b.
Proof.
  induction a as [|c a IH]; simpl; [reflexivity|].
  now rewrite IH, orb_assoc.
Qed.

Lemma split_once_first_field (sep : ascii) (s a : string) :
  first_field sep s a -> fst (split_once sep s) = a.
Proof.
  intros [Ha [->|[b ->]]].
  - now rewrite split_once_none.
  - now rewrite split_once_app.
Qed.

Lemma first_field_exists (sep : ascii) (s : string) :
  first_field sep s (fst (split_once sep s)).
Proof.
  induction s as [|c s IH]; simpl.
  - split; [reflexivity|now left].
  - destruct (Ascii.eqb c sep) eqn:E.
    + apply Ascii.eqb_eq in E as ->. split; [reflexivity|]. right. now exists s.
    + destruct (split_once sep s) as [a b] eqn:Es. simpl in *.
      destruct IH as [Ha Hs]. split; [simpl; now rewrite E, Ha|].
      destruct Hs as [->|[b' ->]]; [now left|right; now exists b'].
Qed.

Lemma replace_underscore_id (a : string) :
  str_contains "_" a = false -> replace_char "_" "-" a = a.
Proof.
  unfold replace_char. induction a as [|c a IH]; simpl; intros H; [reflexivity|].
  apply orb_false_iff in H as [Hc Ha]. now rewrite Hc, (IH Ha).
Qed.

Lemma replace_underscore_no_dash (a : string) :
  str_contains "-" a = false -> str_contains "_" a = false ->
  str_contains "-" (replace_char "_" "-" a) = false.
Proof. intros Hd Hu. now rewrite replace_underscore_id. Qed.

Lemma lower_char_idem (c : ascii) : lower_char (lower_char c) = lower_char c.
Proof.
  destruct c as [[] [] [] [] [] [] [] []]; reflexivity.
Qed.

Lemma upper_char_idem (c : ascii) : upper_char (upper_char c) = upper_char c.
Proof.
  destruct c as [[] [] [] [] [] [] [] []]; reflexivity.
Qed.

Lemma lower_idem (s : string) : lower (lower s) = lower s.
Proof.
  unfold lower. induction s as [|c s IH]; simpl; [reflexivity|].
  now rewrite lower_char_idem, IH.
Qed.

Lemma upper_idem (s : string) : upper (upper s) = upper s.
Proof.
  unfold upper. induction s as [|c s IH]; simpl; [reflexivity|].
  now rewrite upper_char_idem, IH.
Qed.

(** What [_split_lang] returns on a tag that is not blank.  [s] is the tag
    without the white space around it. *)
Lemma split_lang_plain (s0 : string) :
  strip s0 <> EmptyString ->
  str_contains "-" (strip s0) = false -> str_contains "_" (strip s0) = false ->
  _split_lang s0 = (lower (strip s0), None).
Proof.
  intros Hne Hd Hu. unfold _split_lang.
  apply str_truthy_true in Hne. rewrite Hne. simpl.
  rewrite (replace_underscore_id _ Hu), Hd. reflexivity.
Qed.

Lemma split_lang_sep (s0 a b : string) (c : ascii) :
  strip s0 = a ++ String c b ->
  c = "-"%char \/ c = "_"%char ->
  str_contains "-" a = false -> str_contains "_" a = false ->
  _split_lang s0 =
    (if str_truthy (strip a) then lower (strip a) else "en",
     str_or_none (upper (strip (replace_char "_" "-" b)))).
Proof.
  intros Hs Hc Hd Hu. unfold _split_lang. rewrite Hs.
  assert (Hne : str_truthy (a ++ String c b) = true) by (destruct a; reflexivity).
  rewrite Hne. simpl negb. cbv iota.
  assert (Hrep : replace_char "_" "-" (a ++ String c b)
                 = a ++ String "-" (replace_char "_" "-" b)).
  { unfold replace_char at 1. rewrite str_map_app. simpl.
    fold (replace_char "_" "-" a). fold (replace_char "_" "-" b).
    rewrite (replace_underscore_id a Hu).
    destruct Hc as [-> | ->]; reflexivity. }
  rewrite Hrep, str_contains_app. simpl str_contains. rewrite orb_true_r.
  rewrite (split_once_app "-" a _ Hd).
  assert (Hl : str_truthy (lower (strip a)) = str_truthy (strip a))
    by (destruct (strip a); reflexivity).
  rewrite Hl. reflexivity.
Qed.

(** C3.  The locale comes from the [lang] query parameter (its first
    value) when that value is not blank, whatever the header says; else
    from the first comma-separated tag of the [Accept-Language] header
    without its q-factor, when that tag is not blank; else it is the
    default [("en", None)].  A tag is split at its first [-] or [_]; the
    language is lower-cased, the region upper-cased and optional. *)
Theorem locale_precedence
    (qs : gmap string (list string)) (accept_language : option string) :
  let v := strip (qs_first qs "lang") in
  (* the query wins over the header *)
  (v <> EmptyString ->
     _pick_lang qs accept_language = _split_lang v /\
     forall h', _pick_lang qs h' = _pick_lang qs accept_language) /\
  (* the header wins over the default *)
  (v = EmptyString ->
     forall h first tag,
       accept_language = Some h ->
       first_field "," h first ->
       first_field ";" (strip first) tag ->
       strip tag <> EmptyString ->
       _pick_lang qs accept_language = _split_lang (strip tag)) /\
  (* the default *)
  (v = EmptyString ->
     (accept_language = None \/
      exists h first tag, accept_language = Some h /\
        first_field "," h first /\ first_field ";" (strip first) tag /\
        strip tag = EmptyString) ->
     _pick_lang qs accept_language = ("en", None)) /\
  (* how a tag is parsed *)
  (forall s0 : string,
     (strip s0 = EmptyString -> _split_lang s0 = ("en", None)) /\
     (strip s0 <> EmptyString ->
      str_contains "-" (strip s0) = false ->
      str_contains "_" (strip s0) = false ->
      _split_lang s0 = (lower (strip s0), None)) /\
     (forall a b c,
        strip s0 = a ++ String c b ->
        c = "-"%char \/ c = "_"%char ->
        str_contains "-" a = false -> str_contains "_" a = false ->
        let lang := if str_truthy (strip a) then lower (strip a) else "en" in
        let region := upper (strip (replace_char "_" "-" b)) in
        _split_lang s0 = (lang, str_or_none region) /\
        lower lang = lang /\ upper region = region)).
Proof.
  intros v. unfold _pick_lang. fold v.
  split; [|split; [|split]].
  - intros Hv. apply str_truthy_true in Hv. rewrite Hv.
    split; [reflexivity|intros h'; reflexivity].
  - intros Hv h first tag -> Hf Ht Hne.
    rewrite Hv. simpl. unfold _accept_lang.
    destruct (ostr_truthy (Some h)) eqn:Eh; simpl.
    + rewrite (split_once_first_field _ _ _ Hf),
              (split_once_first_field _ _ _ Ht). reflexivity.
    + (* an empty header has an empty first tag *)
      simpl in Eh. apply str_truthy_false in Eh. subst h.
      destruct Hf as [Hc [E|[b E]]].
      * subst first. simpl in Ht. destruct Ht as [Hc' [E|[b E]]].
        -- subst tag. now simpl in Hne.
        -- destruct tag; discriminate E.
      * destruct first; discriminate E.
  - intros Hv Hd. rewrite Hv. simpl. unfold _accept_lang.
    destruct Hd as [->|(h & first & tag & -> & Hf & Ht & He)]; [reflexivity|].
    destruct (ostr_truthy (Some h)); simpl; [|reflexivity].
    rewrite (split_once_first_field _ _ _ Hf),
            (split_once_first_field _ _ _ Ht).
    unfold _split_lang.
    assert (Hs : strip (strip tag) = EmptyString) by now rewrite He.
    rewrite Hs. reflexivity.
  - intros s0. split; [|split].
    + intros He. unfold _split_lang. rewrite He. reflexivity.
    + apply split_lang_plain.
    + intros a b c Hs Hc Hd Hu.
      split; [exact (split_lang_sep s0 a b c Hs Hc Hd Hu)|]. split.
      * destruct (str_truthy (strip a)); [apply lower_idem|reflexivity].
      * apply upper_idem.
Qed.

(** Witness of C3: [?lang=de] with the header [en-US,en;q=0.9]. *)
Lemma locale_precedence_witness :
  _pick_lang {[ "lang" := ["de"] ]} (Some "en-US,en;q=0.9") = _split_lang "de" /\
  forall h', _pick_lang {[ "lang" := ["de"] ]} h'
             = _pick_lang {[ "lang" := ["de"] ]} (Some "en-US,en;q=0.9").
Proof.
  refine (proj1 (locale_precedence {[ "lang" := ["de"] ]}
                   (Some "en-US,en;q=0.9")) _).
  vm_compute. discriminate.
Defined.

(** ** The Provider client makes one attempt *)


(** ** What a computation leaves untouched *)

Section Respects.

Context (R : World -> World -> Prop) `{!PreOrder R}.

Lemma respects_ret {A : Type} (a : A) : respects R (ret a).
Proof. intros w. reflexivity. Qed.

Lemma respects_raise {A : Type} : respects R (@raise A).
Proof. intros w. reflexivity. Qed.

Lemma respects_lift {A : Type} (e : exn A) : respects R (lift e).
Proof. intros w. unfold lift. destruct e; reflexivity. Qed.

Lemma respects_get_world : respects R get_world.
Proof. intros w. reflexivity. Qed.

Lemma respects_bind {A B : Type} (m : M A) (k : A -> M B) :
  respects R m -> (forall a, respects R (k a)) -> respects R (bind m k).
Proof.
  intros Hm Hk w. unfold bind. specialize (Hm w).
  destruct (m w) as [a w1|w1]; simpl in *; [|exact Hm].
  etransitivity; [exact Hm|apply Hk].
Qed.

Lemma respects_catch {A : Type} (m h : M A) :
  respects R m -> respects R h -> respects R (catch m h).
Proof.
  intros Hm Hh w. unfold catch. specialize (Hm w).
  destruct (m w) as [a w1|w1]; simpl in *; [exact Hm|].
  etransitivity; [exact Hm|apply Hh].
Qed.

Lemma respects_mapM {A B : Type} (f : A -> M B) (xs : list A) :
  (forall x, respects R (f x)) -> respects R (mapM f xs).
Proof.
  intros Hf. induction xs as [|x xs IH]; simpl; [apply respects_ret|].
  apply respects_bind; [apply Hf|intros y].
  apply respects_bind; [exact IH|intros ys]. apply respects_ret.
Qed.

End Respects.

#[local] Instance only_net_preorder : PreOrder only_net.
Proof.
  split.
  - intros w. destruct w; reflexivity.
  - intros w1 w2 w3 H12 H23. unfold only_net in *.
    rewrite H23 at 1. rewrite H12 at 1. destruct w1; reflexivity.
Qed.

#[local] Instance similar_but_preorder (k : string * Z * string) :
  PreOrder (similar_but k).
Proof.
  split.
  - intros w. repeat split. lia.
  - intros w1 w2 w3 (A1 & B1 & C1) (A2 & B2 & C2).
    split; [congruence|]. split; [lia|].
    intros k0 Hk. rewrite (C2 k0 Hk). apply (C1 k0 Hk).
Qed.

Lemma respects_modify (R : World -> World -> Prop) (f : World -> World) :
  (forall w, R w (f w)) -> respects R (modify f).
Proof. intros H w. apply H. Qed.

Lemma only_net_opener_open (b : bucket_name) (url : string) (t : Z) :
  respects only_net (opener_open b url t).
Proof.
  intros w. unfold opener_open.
  destruct (provider w (length (requests w)) url) as [|st h body];
    [|destruct ((200 <=? st) && (st <? 300))]; destruct w; reflexivity.
Qed.

Lemma only_net_commit (c : conn) : respects only_net (commit c).
Proof. intros w. destruct w; reflexivity. Qed.

Lemma similar_but_opener_open (k : string * Z * string) (b : bucket_name)
    (url : string) (t : Z) :
  respects (similar_but k) (opener_open b url t).
Proof.
  intros w. unfold opener_open.
  destruct (provider w (length (requests w)) url) as [|st h body];
    [|destruct ((200 <=? st) && (st <? 300))]; repeat split; simpl; lia.
Qed.

Lemma similar_but_time_time (k : string * Z * string) :
  respects (similar_but k) time_time.
Proof. intros w. repeat split; simpl; lia. Qed.

Lemma similar_but_con (k : string * Z * string) : respects (similar_but k) _con.
Proof. intros w. unfold _con. destruct (store_ok w); repeat split; simpl; lia. Qed.

(** Routine steps of the proofs that a computation respects a relation. *)
Ltac respects_step :=
  first
    [ match goal with
      | |- PreOrder _ => exact _
      | |- respects _ _ => fail 1
      | |- forall _, _ => intros ?
      end
    | apply respects_ret | apply respects_raise | apply respects_lift
    | apply respects_get_world
    | apply only_net_opener_open | apply only_net_commit
    | apply similar_but_opener_open | apply similar_but_time_time
    | apply similar_but_con
    | apply respects_catch | apply respects_bind
    | match goal with
      | |- respects _ (if ?b then _ else _) => destruct b
      | |- respects _ (match ?x with _ => _ end) => destruct x
      end
    | progress cbv zeta ].

Lemma respects_tmdb_open (R : World -> World -> Prop) `{!PreOrder R}
    (app : App) (url : string) (t : Z) :
  (forall b, respects R (opener_open b url t)) ->
  respects R (_tmdb_open app url t).
Proof.
  intros H. unfold _tmdb_open.
  repeat first [ apply H | respects_step ].
Qed.

Lemma only_net_tmdb_get_json (app : App) (url : string) (t : Z) :
  respects only_net (_tmdb_get_json app url t).
Proof.
  unfold _tmdb_get_json.
  repeat first [ apply respects_tmdb_open | respects_step ].
Qed.

Ltac only_net_auto :=
  repeat first [ apply only_net_tmdb_get_json | respects_step ].

Lemma only_net_upsert_logos (app : App) (c : conn) (mt : string) (tid : Z)
    (lt : string) :
  respects only_net (_upsert_tmdb_logos app c mt tid lt).
Proof. unfold _upsert_tmdb_logos. only_net_auto. Qed.

Lemma only_net_upsert_videos (app : App) (c : conn) (mt : string) (tid : Z)
    (lt : string) :
  respects only_net (_upsert_tmdb_videos app c mt tid lt).
Proof. unfold _upsert_tmdb_videos. only_net_auto. Qed.

Lemma only_net_upsert_cast (app : App) (c : conn) (mt : string) (tid : Z) :
  respects only_net (_upsert_tmdb_cast app c mt tid).
Proof. unfold _upsert_tmdb_cast. only_net_auto. Qed.

Lemma only_net_upsert_translations (app : App) (c : conn) (mt : string) (tid : Z) :
  respects only_net (_upsert_tmdb_translations app c mt tid).
Proof. unfold _upsert_tmdb_translations. only_net_auto. Qed.

Lemma only_net_upsert_seasons (app : App) (c : conn) (tid : Z) (lt : string)
    (data : list (string * jval)) :
  respects only_net (_upsert_tmdb_tv_seasons_episodes app c tid lt data).
Proof. unfold _upsert_tmdb_tv_seasons_episodes. only_net_auto. Qed.

Lemma only_net_run_base (app : App) (tk : task) (miss : missing) (c : conn) :
  respects only_net (run_base app tk miss c).
Proof.
  unfold run_base.
  repeat first [ apply only_net_upsert_seasons | apply only_net_tmdb_get_json
               | respects_step ].
Qed.

Lemma only_net_run_parts (app : App) (tk : task) (miss : missing) (c : conn) :
  respects only_net (run_parts app tk miss c).
Proof.
  unfold run_parts.
  repeat first [ apply only_net_upsert_logos | apply only_net_upsert_videos
               | apply only_net_upsert_cast | apply only_net_upsert_translations
               | respects_step ].
Qed.

Lemma keeps_run_body (app : App) (tk : task) (c : conn) :
  respects only_net (run_body app tk c).
Proof.
  unfold run_body.
  repeat first [ apply only_net_run_base | apply only_net_run_parts | respects_step ].
Qed.

(** ** The backfill scheduler *)

Lemma schedulable_guard (app : App) (mt : string) (tid : Z) :
  schedulable app mt tid ->
  negb (str_truthy (tmdb_key app)) || negb (str_in mt ["movie"; "tv"]) || (tid <=? 0)
  = false.
Proof.
  intros (Hk & Hm & Ht). apply str_truthy_true in Hk.
  assert (Hin : str_in mt ["movie"; "tv"] = true)
    by (destruct Hm as [-> | ->]; reflexivity).
  rewrite Hk, Hin. simpl. apply Z.leb_gt. exact Ht.
Qed.

(** The world [_schedule_backfill] leaves, case by case. *)
Lemma schedule_eq (app : App) (mt : string) (tid : Z) (l : string)
    (r : option string) (f : bool) (w : World) :
  schedulable app mt tid ->
  let k := backfill_key mt tid l r f in
  let now := clock w (ticks w) in
  let w1 := set_backfill_recent (<[k := now]> (backfill_recent w)) (ticked w) in
  _schedule_backfill app mt tid l r f w =
    if recently app w k now then Ok tt (ticked w)
    else if (backfill_queue_limit app <=? Z.of_nat (size (backfill_inflight w)))
            || bool_decide (k ∈ backfill_inflight w)
         then Ok tt w1
         else Ok tt (set_backfill_queue
                       (backfill_queue w ++
                        [{| t_media_type := mt; t_tid := tid; t_iso639 := l;
                            t_iso3166 := r; t_full := f; t_key := k |}])
                       (set_backfill_inflight ({[k]} ∪ backfill_inflight w) w1)).
Proof.
  intros Hs k now w1. unfold _schedule_backfill.
  rewrite (schedulable_guard app mt tid Hs).
  unfold bind, time_time, get_world, modify, ret, recently. simpl. fold k. fold now.
  destruct (backfill_recent w !! k) as [t0|] eqn:Er; simpl.
  - destruct (Qnonzero t0 && Qltb (now - t0) (backfill_ttl_s app)); [reflexivity|].
    destruct ((backfill_queue_limit app <=? Z.of_nat (size (backfill_inflight w)))
              || bool_decide (k ∈ backfill_inflight w)); reflexivity.
  - destruct ((backfill_queue_limit app <=? Z.of_nat (size (backfill_inflight w)))
              || bool_decide (k ∈ backfill_inflight w)); reflexivity.
Qed.

Lemma only_net_fields (w w' : World) :
  only_net w w' ->
  clock w' = clock w /\ ticks w' = ticks w /\ provider w' = provider w /\
  store w' = store w /\ store_ok w' = store_ok w /\
  similar_cache w' = similar_cache w /\ home_cache w' = home_cache w /\
  trending_cache w' = trending_cache w /\
  backfill_recent w' = backfill_recent w /\
  backfill_inflight w' = backfill_inflight w /\
  backfill_queue w' = backfill_queue w /\ tmdb_tls_bg w' = tmdb_tls_bg w.
Proof. unfold only_net. intros ->. repeat split. Qed.

(** The world a worker task leaves. *)
Lemma run_world (app : App) (tk : task) (w : World) :
  world_of (run app tk w) =
    if store_ok w
    then run_finally tk
           (world_of (run_body app tk {| con_db := store w; con_pending := [] |}
                        (set_tmdb_tls_bg true w)))
    else set_tmdb_tls_bg true w.
Proof.
  unfold run, bind, modify, _con, finally. simpl.
  destruct (store_ok w); [|reflexivity].
  destruct (run_body app tk _ _); reflexivity.
Qed.

(** A worker task leaves the clock and [recent] as they are. *)
Lemma run_keeps_schedule (app : App) (tk : task) (w : World) :
  let w' := world_of (run app tk w) in
  clock w' = clock w /\ ticks w' = ticks w /\
  backfill_recent w' = backfill_recent w /\
  backfill_queue w' = backfill_queue w.
Proof.
  simpl. rewrite run_world. destruct (store_ok w); [|repeat split].
  pose proof (keeps_run_body app tk {| con_db := store w; con_pending := [] |}
                (set_tmdb_tls_bg true w)) as H.
  apply only_net_fields in H.
  destruct H as (Hc & Ht & _ & _ & _ & _ & _ & _ & Hr & _ & Hq & _).
  unfold run_finally. simpl. rewrite Hc, Ht, Hr, Hq. repeat split.
Qed.

Lemma worker_keeps_schedule (app : App) (w : World) :
  let w' := worker app w in
  clock w' = clock w /\ ticks w' = ticks w /\
  backfill_recent w' = backfill_recent w.
Proof.
  simpl. unfold worker. destruct (backfill_queue w) as [|tk rest]; [repeat split|].
  destruct (run_keeps_schedule app tk (set_backfill_queue rest w)) as (Hc & Ht & Hr & _).
  rewrite Hc, Ht, Hr. repeat split.
Qed.

Lemma clock_mono (w : World) (n m : nat) :
  clock_ok w -> (n <= m)%nat -> (clock w n <= clock w m)%Q.
Proof.
  intros [_ Hs] Hnm. induction Hnm as [|m Hnm IH]; [apply Qle_refl|].
  eapply Qle_trans; [exact IH|apply Hs].
Qed.

Lemma schedule_cases (app : App) (mt : string) (tid : Z) (l : string)
    (r : option string) (f : bool) (w : World) :
  schedule_outcome app w (backfill_key mt tid l r f)
    (world_of (_schedule_backfill app mt tid l r f w)).
Proof.
  destruct (negb (str_truthy (tmdb_key app)) || negb (str_in mt ["movie"; "tv"])
            || (tid <=? 0)) eqn:G.
  - apply Outcome_ignored. unfold _schedule_backfill. rewrite G. reflexivity.
  - assert (Hs : schedulable app mt tid).
    { apply orb_false_iff in G as [G Gt]. apply orb_false_iff in G as [Gk Gm].
      apply negb_false_iff in Gk, Gm. apply Z.leb_gt in Gt.
      split; [now apply str_truthy_true|]. split; [|exact Gt].
      unfold str_in in Gm. simpl in Gm. rewrite orb_false_r in Gm.
      apply orb_true_iff in Gm as [E|E]; apply String.eqb_eq in E; auto. }
    rewrite (schedule_eq app mt tid l r f w Hs).
    destruct (recently app w _ _) eqn:Er.
    + now apply Outcome_suppressed.
    + destruct ((backfill_queue_limit app <=? Z.of_nat (size (backfill_inflight w)))
                || bool_decide (backfill_key mt tid l r f ∈ backfill_inflight w)).
      * apply Outcome_recorded; try reflexivity; exact Er.
      * apply Outcome_submitted; try reflexivity; [exact Er|].
        simpl. rewrite length_app. simpl. lia.
Qed.

Lemma clock_ok_eq (w w' : World) : clock w' = clock w -> clock_ok w -> clock_ok w'.
Proof. unfold clock_ok. intros ->. auto. Qed.

(** A call that is not suppressed comes at least a TTL after the
    timestamp on record. *)
Lemma not_recently (app : App) (w : World) (k : bkey) (now r : Q) :
  recently app w k now = false -> backfill_recent w !! k = Some r ->
  (0 < r)%Q -> (backfill_ttl_s app <= now - r)%Q.
Proof.
  unfold recently. intros H Hk H0. rewrite Hk in H.
  apply andb_false_iff in H as [H|H].
  - unfold Qnonzero in H. apply negb_false_iff in H. apply Qeq_bool_iff in H.
    rewrite H in H0. exfalso. exact (Qlt_irrefl 0 H0).
  - now apply Qltb_false.
Qed.

(** One step keeps the clock and the invariant of [recent], and never
    moves a recorded timestamp back. *)
Lemma step_facts (app : App) (o : op) (w : World) :
  clock_ok w -> recent_ok w ->
  let w' := step app o w in
  clock w' = clock w /\ recent_ok w' /\
  (forall k r, backfill_recent w !! k = Some r ->
     exists r', backfill_recent w' !! k = Some r' /\ (r <= r')%Q).
Proof.
  intros Hc Hok.
  assert (Hsame : forall w', clock w' = clock w -> (ticks w <= ticks w')%nat ->
            backfill_recent w' = backfill_recent w ->
            clock w' = clock w /\ recent_ok w' /\
            (forall k r, backfill_recent w !! k = Some r ->
               exists r', backfill_recent w' !! k = Some r' /\ (r <= r')%Q)).
  { intros w' Ec Ht Er. split; [exact Ec|]. split.
    - intros k r Hk. rewrite Er in Hk. destruct (Hok k r Hk) as [H0 Hle].
      split; [exact H0|]. rewrite Ec. eapply Qle_trans; [exact Hle|].
      now apply clock_mono.
    - intros k r Hk. exists r. rewrite Er. split; [exact Hk|apply Qle_refl]. }
  assert (Hins : forall w' k0, clock w' = clock w -> ticks w' = S (ticks w) ->
            backfill_recent w' = <[k0 := clock w (ticks w)]> (backfill_recent w) ->
            clock w' = clock w /\ recent_ok w' /\
            (forall k r, backfill_recent w !! k = Some r ->
               exists r', backfill_recent w' !! k = Some r' /\ (r <= r')%Q)).
  { intros w' k0 Ec Ht Er. split; [exact Ec|]. split.
    - intros k r Hk. rewrite Er in Hk. rewrite Ec, Ht.
      destruct (decide (k0 = k)) as [->|Hne].
      + rewrite lookup_insert_eq in Hk. injection Hk as <-. split; apply Hc.
      + rewrite lookup_insert_ne in Hk by exact Hne.
        destruct (Hok k r Hk) as [H0 Hle]. split; [exact H0|].
        eapply Qle_trans; [exact Hle|apply Hc].
    - intros k r Hk. rewrite Er. destruct (decide (k0 = k)) as [->|Hne].
      + rewrite lookup_insert_eq. eexists. split; [reflexivity|].
        apply (Hok k r Hk).
      + rewrite lookup_insert_ne by exact Hne. exists r.
        split; [exact Hk|apply Qle_refl]. }
  destruct o as [mt tid l rg f| |]; simpl.
  - destruct (schedule_cases app mt tid l rg f w) as [E|E _|_ Ec Et Er _|_ Ec Et Er _].
    + rewrite E. apply Hsame; [reflexivity|lia|reflexivity].
    + rewrite E. apply Hsame; [reflexivity|simpl; lia|reflexivity].
    + eapply Hins; eauto.
    + eapply Hins; eauto.
  - destruct (worker_keeps_schedule app w) as (Ec & Et & Er).
    apply Hsame; [exact Ec|lia|exact Er].
  - apply (Hsame (ticked w)); [reflexivity|simpl; lia|reflexivity].
Qed.

(** One step adds at most one submission: that of a call that was not
    suppressed, stamped with the reading of the call, which is then on
    record for the key. *)
Lemma submissions_cons (app : App) (o : op) (rest : list op) (w : World) :
  submissions app (o :: rest) w = submissions app rest (step app o w) \/
  exists k,
    submissions app (o :: rest) w
      = (clock w (ticks w), k) :: submissions app rest (step app o w) /\
    recently app w k (clock w (ticks w)) = false /\
    backfill_recent (step app o w) !! k = Some (clock w (ticks w)).
Proof.
  destruct o as [mt tid l rg f| |]; [|now left|now left]. simpl.
  destruct (schedule_cases app mt tid l rg f w) as [E|E _|_ _ _ _ Eq|Hr _ _ Er El].
  - left. rewrite E, Nat.ltb_irrefl. reflexivity.
  - left. rewrite E. simpl. rewrite Nat.ltb_irrefl. reflexivity.
  - left. rewrite Eq, Nat.ltb_irrefl. reflexivity.
  - right. exists (backfill_key mt tid l rg f). rewrite El.
    assert (Hlt : (length (backfill_queue w) <? S (length (backfill_queue w)))%nat = true)
      by (apply Nat.ltb_lt; lia).
    rewrite Hlt. split; [reflexivity|]. split; [exact Hr|].
    rewrite Er. apply lookup_insert_eq.
Qed.

(** Every task submitted later for a key comes at least a TTL after the
    timestamp now on record for the key. *)
Lemma later_submissions (app : App) (ops : list op) :
  forall w, clock_ok w -> recent_ok w ->
  forall t2 k r, (t2, k) ∈ submissions app ops w ->
    backfill_recent w !! k = Some r -> (backfill_ttl_s app <= t2 - r)%Q.
Proof.
  induction ops as [|o rest IH]; intros w Hc Hok t2 k r Hin Hk.
  - inversion Hin.
  - destruct (step_facts app o w Hc Hok) as (Ec & Hok' & Hgrow).
    destruct (Hgrow k r Hk) as (r' & Hk' & Hle).
    assert (Htail : (t2, k) ∈ submissions app rest (step app o w) ->
                    (backfill_ttl_s app <= t2 - r)%Q).
    { intros Hin'.
      pose proof (IH _ (clock_ok_eq _ _ Ec Hc) Hok' t2 k r' Hin' Hk'). lra. }
    destruct (submissions_cons app o rest w) as [E|(k0 & E & Hr & _)];
      rewrite E in Hin; [now apply Htail|].
    apply elem_of_cons in Hin as [Heq|Hin]; [|now apply Htail].
    injection Heq as -> ->.
    apply (not_recently app w k0 _ r Hr Hk). apply (Hok k0 r Hk).
Qed.

(** Two tasks submitted for one key are at least a TTL apart. *)
Lemma submissions_apart (app : App) (ops : list op) :
  forall w, clock_ok w -> recent_ok w ->
  forall (i j : nat) t1 t2 k, (i < j)%nat ->
    submissions app ops w !! i = Some (t1, k) ->
    submissions app ops w !! j = Some (t2, k) ->
    (backfill_ttl_s app <= t2 - t1)%Q.
Proof.
  induction ops as [|o rest IH]; intros w Hc Hok i j t1 t2 k Hij Hi Hj.
  - simpl in Hi. rewrite lookup_nil in Hi. discriminate.
  - destruct (step_facts app o w Hc Hok) as (Ec & Hok' & _).
    pose proof (clock_ok_eq _ _ Ec Hc) as Hc'.
    destruct (submissions_cons app o rest w) as [E|(k0 & E & _ & Hk0)];
      rewrite E in Hi, Hj.
    + exact (IH _ Hc' Hok' i j t1 t2 k Hij Hi Hj).
    + destruct j as [|j]; [lia|]. simpl in Hj. destruct i as [|i].
      * simpl in Hi. injection Hi as <- <-.
        apply (later_submissions app rest _ Hc' Hok' t2 k0 _); [|exact Hk0].
        eapply list_elem_of_lookup_2. exact Hj.
      * simpl in Hi. apply (IH _ Hc' Hok' i j t1 t2 k); [lia|exact Hi|exact Hj].
Qed.

(** C1.  Backfill deduplication, for the key
    [(media_type, id, lang_tag, full)] of a call.
    - A call that reads the clock less than [backfill_ttl_s] after the
      timestamp on record for its key (a wall-clock reading, so not 0)
      returns without submitting a task and without touching [recent] or
      [inflight].
    - A call with accepted arguments and no timestamp on record, or one at
      least [backfill_ttl_s] old, records [recent[key] = now]; it submits
      a task, and puts the key in [inflight], exactly when [inflight] is
      below the queue limit and does not hold the key.
    - Along any run of calls, worker tasks and clock readings that starts
      with an empty [recent] and a clock that is past the epoch and does
      not go back, two tasks submitted for one key are at least
      [backfill_ttl_s] apart: within that window one key triggers at most
      one task. *)
Theorem backfill_dedup (app : App) :
  (forall w mt tid l rg f t0,
     let k := backfill_key mt tid l rg f in
     let now := clock w (ticks w) in
     backfill_recent w !! k = Some t0 -> (~ (t0 == 0)%Q) ->
     (now - t0 < backfill_ttl_s app)%Q ->
     exists w', _schedule_backfill app mt tid l rg f w = Ok tt w' /\
       backfill_queue w' = backfill_queue w /\
       backfill_inflight w' = backfill_inflight w /\
       backfill_recent w' = backfill_recent w) /\
  (forall w mt tid l rg f,
     let k := backfill_key mt tid l rg f in
     let now := clock w (ticks w) in
     schedulable app mt tid ->
     (backfill_recent w !! k = None \/
      exists t0, backfill_recent w !! k = Some t0 /\
                 (backfill_ttl_s app <= now - t0)%Q) ->
     exists w', _schedule_backfill app mt tid l rg f w = Ok tt w' /\
       backfill_recent w' = <[k := now]> (backfill_recent w) /\
       ((Z.of_nat (size (backfill_inflight w)) < backfill_queue_limit app /\
         (k ∉ backfill_inflight w) /\
         backfill_queue w' =
           (backfill_queue w ++
            [{| t_media_type := mt; t_tid := tid; t_iso639 := l;
                t_iso3166 := rg; t_full := f; t_key := k |}])%list /\
         backfill_inflight w' = {[k]} ∪ backfill_inflight w)
        \/
        (~ (Z.of_nat (size (backfill_inflight w)) < backfill_queue_limit app /\
            (k ∉ backfill_inflight w)) /\
         backfill_queue w' = backfill_queue w /\
         backfill_inflight w' = backfill_inflight w))) /\
  (forall ops w0,
     clock_ok w0 -> backfill_recent w0 = ∅ ->
     forall (i j : nat) t1 t2 k, (i < j)%nat ->
       submissions app ops w0 !! i = Some (t1, k) ->
       submissions app ops w0 !! j = Some (t2, k) ->
       (backfill_ttl_s app <= t2 - t1)%Q).
Proof.
  split; [|split].
  - intros w mt tid l rg f t0 k now Hk Hnz Hlt.
    assert (Hrec : recently app w k now = true).
    { unfold recently. rewrite Hk. apply andb_true_iff. split.
      - unfold Qnonzero. apply negb_true_iff.
        destruct (Qeq_bool t0 0) eqn:E; [|reflexivity].
        apply Qeq_bool_iff in E. contradiction.
      - now apply Qltb_true. }
    destruct (negb (str_truthy (tmdb_key app)) || negb (str_in mt ["movie"; "tv"])
              || (tid <=? 0)) eqn:G.
    + exists w. unfold _schedule_backfill. rewrite G. repeat split.
    + assert (Hs : schedulable app mt tid).
      { apply orb_false_iff in G as [G Gt]. apply orb_false_iff in G as [Gk Gm].
        apply negb_false_iff in Gk, Gm. apply Z.leb_gt in Gt.
        split; [now apply str_truthy_true|]. split; [|exact Gt].
        unfold str_in in Gm. simpl in Gm. rewrite orb_false_r in Gm.
        apply orb_true_iff in Gm as [E|E]; apply String.eqb_eq in E; auto. }
      exists (ticked w). rewrite (schedule_eq app mt tid l rg f w Hs).
      fold k. fold now. rewrite Hrec. repeat split.
  - intros w mt tid l rg f k now Hs Hpast.
    assert (Hrec : recently app w k now = false).
    { unfold recently. destruct Hpast as [->|(t0 & -> & Hle)]; [reflexivity|].
      apply andb_false_iff. right. now apply Qltb_false. }
    rewrite (schedule_eq app mt tid l rg f w Hs). fold k. fold now. rewrite Hrec.
    destruct (backfill_queue_limit app <=? Z.of_nat (size (backfill_inflight w))) eqn:El;
      simpl.
    + eexists. split; [reflexivity|]. split; [reflexivity|]. right.
      apply Z.leb_le in El. split; [lia|]. split; reflexivity.
    + apply Z.leb_gt in El.
      destruct (bool_decide (k ∈ backfill_inflight w)) eqn:Ei.
      * eexists. split; [reflexivity|]. split; [reflexivity|]. right.
        apply bool_decide_eq_true in Ei. split; [tauto|]. split; reflexivity.
      * eexists. split; [reflexivity|]. split; [reflexivity|]. left.
        apply bool_decide_eq_false in Ei. repeat split; auto.
  - intros ops w0 Hc He. apply submissions_apart; [exact Hc|].
    intros k r Hk. rewrite He, lookup_empty in Hk. discriminate.
Qed.

(** ** The cache of similar titles *)










(** ** Localized titles *)

Lemma year_of_text (o : option string) : exists y, _year (ojs o) = Val y.
Proof.
  destruct o as [s|]; simpl; [|eexists; reflexivity].
  unfold _year. destruct (negb (jtruthy (JStr s))); [eexists; reflexivity|].
  destruct (String.length s <? 4)%nat; eexists; reflexivity.
Qed.

Lemma region_rows_nil (con : DB) (mt : string) (tid : Z) (lang rg : string) :
  lang_rows con mt tid lang = [] -> region_rows con mt tid lang rg = [].
Proof.
  unfold region_rows, lang_rows.
  induction (title_translations con) as [|x xs IH]; [reflexivity|].
  rewrite !filter_cons.
  destruct (decide (tr_media_type x = mt /\ tr_tmdb_id x = tid
                    /\ tr_iso_639_1 x = lang)) as [Hx|Hx]; [discriminate|].
  destruct (decide (tr_media_type x = mt /\ tr_tmdb_id x = tid
                    /\ tr_iso_639_1 x = lang /\ tr_iso_3166_1 x = rg))
    as [Hy|Hy]; [exfalso; apply Hx; tauto|].
  exact IH.
Qed.

(** What [_translated] returns, from the rows of the table. *)
Lemma translated_cases (app : App) (con : DB) (mt : string) (tid : Z)
    (lang : string) (region : option string) :
  (has_translations app = false -> title_translations con = []) ->
  _translated app con mt tid lang region =
    match (if ostr_truthy region
           then head (region_rows con mt tid lang (ostr_or_empty region))
           else None) with
    | Some row => (tr_title row, tr_overview row)
    | None =>
        match head (lang_rows con mt tid lang) with
        | Some row => (tr_title row, tr_overview row)
        | None => (None, None)
        end
    end.
Proof.
  intros Hwf. unfold _translated.
  destruct (has_translations app) eqn:Eh; [reflexivity|]. simpl.
  unfold region_rows, lang_rows. rewrite (Hwf eq_refl). simpl.
  destruct (ostr_truthy region); reflexivity.
Qed.

(** C4.  Provided a translation table the application did not find at
    start-up holds no rows: [_translated] returns the title and overview
    of the first row for the exact [(lang, region)] when a region is given
    and such a row exists; else those of the first row for the language
    alone; else [(None, None)].  The caller then uses the base columns:
    the card of a title without translation row is named by its base
    name, and the card of a title with a titled row for the language but
    none for the region is named by that row. *)
Theorem translated_fallback (app : App) (con : DB) (mt : string) (tid : Z)
    (lang : string) (region : option string) :
  (has_translations app = false -> title_translations con = []) ->
  (forall rg row,
     region = Some rg -> rg <> EmptyString ->
     head (region_rows con mt tid lang rg) = Some row ->
     _translated app con mt tid lang region = (tr_title row, tr_overview row)) /\
  (forall row,
     (region = None \/ region = Some EmptyString \/
      exists rg, region = Some rg /\ region_rows con mt tid lang rg = []) ->
     head (lang_rows con mt tid lang) = Some row ->
     _translated app con mt tid lang region = (tr_title row, tr_overview row)) /\
  (lang_rows con mt tid lang = [] ->
   _translated app con mt tid lang region = (None, None)) /\
  (forall r : urow,
     u_id r = tid -> (if String.eqb (u_kind r) "movie" then "movie" else "tv") = mt ->
     (lang_rows con mt tid lang = [] ->
      exists card, list_card app con r lang region = Val (JObj card) /\
        dget "name" card = JStr (strip (ostr_or_empty (u_name r)))) /\
     (forall row t,
        (region = None \/ region = Some EmptyString \/
         exists rg, region = Some rg /\ region_rows con mt tid lang rg = []) ->
        head (lang_rows con mt tid lang) = Some row ->
        tr_title row = Some t -> t <> EmptyString ->
        exists card, list_card app con r lang region = Val (JObj card) /\
          dget "name" card = JStr (strip t))).
Proof.
  intros Hwf.
  assert (Hexact : forall rg row, region = Some rg -> rg <> EmptyString ->
            head (region_rows con mt tid lang rg) = Some row ->
            _translated app con mt tid lang region = (tr_title row, tr_overview row)).
  { intros rg row -> Hrg Hrow. rewrite (translated_cases _ _ _ _ _ _ Hwf).
    simpl. apply str_truthy_true in Hrg. rewrite Hrg, Hrow. reflexivity. }
  assert (Hlang : forall row,
            (region = None \/ region = Some EmptyString \/
             exists rg, region = Some rg /\ region_rows con mt tid lang rg = []) ->
            head (lang_rows con mt tid lang) = Some row ->
            _translated app con mt tid lang region = (tr_title row, tr_overview row)).
  { intros row Hreg Hrow. rewrite (translated_cases _ _ _ _ _ _ Hwf), Hrow.
    destruct Hreg as [->|[->|(rg & -> & Hnone)]]; [reflexivity|reflexivity|].
    simpl. rewrite Hnone. destruct (str_truthy rg); reflexivity. }
  assert (Hnone : lang_rows con mt tid lang = [] ->
            _translated app con mt tid lang region = (None, None)).
  { intros Hno. rewrite (translated_cases _ _ _ _ _ _ Hwf), Hno.
    rewrite (region_rows_nil _ _ _ _ _ Hno). destruct (ostr_truthy region); reflexivity. }
  split; [exact Hexact|]. split; [exact Hlang|]. split; [exact Hnone|].
  intros r Hid Hkind. unfold list_card. rewrite Hid, Hkind.
  destruct (year_of_text (u_dt r)) as [y Hy]. split.
  - intros Hno. rewrite (Hnone Hno). simpl. rewrite Hy.
    unfold text_or, jor. simpl.
    destruct (u_name r) as [n|]; simpl.
    + destruct (str_truthy n) eqn:En; simpl.
      * eexists. split; reflexivity.
      * apply str_truthy_false in En. subst n. eexists. split; reflexivity.
    + eexists. split; reflexivity.
  - intros row t Hreg Hrow Ht Hne. rewrite (Hlang row Hreg Hrow), Ht. simpl.
    apply str_truthy_true in Hne. unfold text_or. simpl. rewrite Hne. simpl.
    rewrite Hy. eexists. split; reflexivity.
Qed.

(** ** Browse pages *)






Lemma limit_offset_length {A : Type} (n k : Z) (l : list A) :
  0 <= n -> Z.of_nat (length (limit_offset n k l)) <= n.
Proof.
  intros Hn. unfold limit_offset. rewrite length_take. lia.
Qed.

Lemma run_statement_length (app : App) (con : DB) (s : statement) :
  0 <= stmt_limit s -> Z.of_nat (length (run_statement app con s)) <= stmt_limit s.
Proof. destruct s; simpl; apply limit_offset_length. Qed.


(** ** The backfill worker task *)













(** ** The shape of the cards *)

Lemma clip240_ok (s : string) : description_ok (clip240 s).
Proof.
  unfold clip240, description_ok.
  destruct (240 <? String.length s)%nat eqn:E.
  - apply Nat.ltb_lt in E. right. exists s.
    split; [intros ->; simpl in E; lia|]. right. split; [exact E|reflexivity].
  - apply Nat.ltb_ge in E. destruct s as [|c r]; [left; reflexivity|].
    right. exists (String c r). split; [discriminate|].
    left. split; [exact E|reflexivity].
Qed.

Lemma keys_assoc_set (k : string) (v : jval) (kv : list (string * jval)) :
  k ∈ keys kv -> keys (assoc_set k v kv) = keys kv.
Proof.
  induction kv as [|[k' v'] kv IH]; simpl; intros H.
  - inversion H.
  - destruct (String.eqb k k') eqn:E; simpl; [reflexivity|].
    f_equal. apply IH. apply String.eqb_neq in E.
    apply elem_of_cons in H as [-> | H]; [contradiction|exact H].
Qed.

Lemma dget_assoc_set (k k' : string) (v : jval) (kv : list (string * jval)) :
  dget k' (assoc_set k v kv) = if String.eqb k' k then v else dget k' kv.
Proof.
  unfold dget. induction kv as [|[k0 v0] kv IH]; simpl.
  - destruct (String.eqb k' k); reflexivity.
  - destruct (String.eqb k k0) eqn:E; simpl.
    + apply String.eqb_eq in E. subst k0.
      destruct (String.eqb k' k); reflexivity.
    + destruct (String.eqb k' k0) eqn:E'; simpl; [|exact IH].
      apply String.eqb_eq in E'. subst k0.
      rewrite String.eqb_sym, E. reflexivity.
Qed.

Lemma full_card_set (k : string) (v : jval) (kv : list (string * jval)) :
  full_card kv -> k ∈ K9 -> k <> "kind" ->
  (k = "description" -> description_ok v) ->
  full_card (assoc_set k v kv).
Proof.
  intros (Hk & Hkind & Hd) Hin Hne Hv. split; [|split].
  - rewrite keys_assoc_set; [exact Hk|]. rewrite Hk. exact Hin.
  - rewrite dget_assoc_set.
    destruct (String.eqb "kind" k) eqn:E; [|exact Hkind].
    apply String.eqb_eq in E. congruence.
  - rewrite dget_assoc_set.
    destruct (String.eqb "description" k) eqn:E; [|exact Hd].
    apply String.eqb_eq in E. auto.
Qed.

Lemma full_card_ok (kv : list (string * jval)) : full_card kv -> card_ok (JObj kv).
Proof.
  intros (Hk & Hkind & Hd). exists kv. repeat split; auto.
Qed.

Lemma ebind_val {A B : Type} (e : exn A) (k : A -> exn B) (b : B) :
  ebind e k = Val b -> exists a, e = Val a /\ k a = Val b.
Proof. destruct e as [a|]; simpl; [eauto|discriminate]. Qed.

Lemma tmdb_card_full (it kv : list (string * jval)) :
  tmdb_card it = Val (Some kv) -> full_card kv.
Proof.
  unfold tmdb_card. intros H. cbv zeta in H.
  apply ebind_val in H as (mt0 & _ & H).
  destruct (String.eqb (lower mt0) "movie" || String.eqb (lower mt0) "tv");
    [|discriminate].
  apply ebind_val in H as (tid & _ & H).
  apply ebind_val in H as (d & _ & H).
  apply ebind_val in H as (name & _ & H).
  apply ebind_val in H as (year & _ & H).
  injection H as <-. split; [reflexivity|]. split.
  - destruct (String.eqb (lower mt0) "movie"); [left|right]; reflexivity.
  - exact (clip240_ok d).
Qed.
(** [_card_from_row]: a card with all nine keys; its description is the
    clipped overview, translated where a translation is found, when a
    description is asked for, and nothing otherwise. *)
Lemma card_from_row_full (app : App) (mt : string) (r : list (string * jval))
    (con : option DB) (l : string) (rg : option string) (wd : bool) (c : jval) :
  _card_from_row app mt r con l rg wd = Val c ->
  exists kv tid, c = JObj kv /\ full_card kv /\
    dget "id" kv = JInt tid /\
    if wd
    then exists s,
        jstrip (text_or
                  (snd (match con with
                        | Some db => _translated app db
                                       (if String.eqb mt "movie" then "movie" else "tv")
                                       tid l rg
                        | None => (None, None)
                        end))
                  (dget "overview" r)) = Val s /\
        dget "description" kv = clip240 s
    else dget "description" kv = JNull.
Proof.
  unfold _card_from_row. intros H. cbv zeta in H.
  apply ebind_val in H as (idv & _ & H).
  apply ebind_val in H as (tid & _ & H).
  apply ebind_val in H as (base & _ & H).
  apply ebind_val in H as (title & _ & H).
  apply ebind_val in H as (description & Hd & H).
  apply ebind_val in H as (year & _ & H).
  injection H as <-. eexists _, tid. split; [reflexivity|].
  change (dget "description"
            [("id", JInt tid);
             ("kind", JStr (if String.eqb mt "movie" then "movie" else "series"));
             ("name", JStr title); ("description", description); ("year", year);
             ("rating", dget "vote_average" r); ("poster", dget "poster_path" r);
             ("logo", jor (_pick_logo (dget "logos_json" r) l) (dget "poster_path" r));
             ("backdrop", dget "backdrop_path" r)]) with description.
  assert (Hok : description_ok description).
  { destruct wd; [|injection Hd as <-; left; reflexivity].
    apply ebind_val in Hd as (s & _ & Hd). injection Hd as <-. apply clip240_ok. }
  split; [|split; [reflexivity|]].
  - split; [reflexivity|]. split; [|exact Hok].
    destruct (String.eqb mt "movie"); [left|right]; reflexivity.
  - destruct wd; [|congruence].
    apply ebind_val in Hd as (s & Hs & Hd). injection Hd as <-. eauto.
Qed.

Lemma card_from_row_ok (app : App) (mt : string) (r : list (string * jval))
    (con : option DB) (l : string) (rg : option string) (wd : bool) (c : jval) :
  _card_from_row app mt r con l rg wd = Val c -> card_ok c.
Proof.
  intros H. apply card_from_row_full in H as (kv & tid & -> & Hf & _).
  apply full_card_ok, Hf.
Qed.

Lemma enrich_from_row_full (app : App) (con : DB) (movie : bool) (tid : Z)
    (r card : list (string * jval)) (l : string) (rg : option string)
    (card' : list (string * jval)) :
  full_card card ->
  enrich_from_row app con movie tid r card l rg = Val card' ->
  full_card card'.
Proof.
  unfold enrich_from_row. intros Hc H. cbv zeta in H.
  apply ebind_val in H as (nm & _ & H).
  set (card1 := if str_truthy nm then assoc_set "name" (JStr nm) card else card) in H.
  assert (H1 : full_card card1).
  { subst card1. destruct (str_truthy nm); [|exact Hc].
    apply full_card_set; [exact Hc|unfold K9; set_solver|discriminate|discriminate]. }
  clearbody card1.
  apply ebind_val in H as (d & _ & H).
  apply ebind_val in H as (card2 & H2 & H).
  assert (H2' : full_card card2).
  { destruct (negb (str_truthy d)).
    - apply ebind_val in H2 as (s & _ & H2). injection H2 as <-.
      apply full_card_set;
        [exact H1|unfold K9; set_solver|discriminate|intros _; apply clip240_ok].
    - injection H2 as <-. exact H1. }
  injection H as <-.
  assert (H3 : forall v, full_card (assoc_set "logo" v card2)).
  { intros v. apply full_card_set;
      [exact H2'|unfold K9; set_solver|discriminate|discriminate]. }
  destruct (negb (jtruthy (dget "backdrop" (assoc_set "logo" _ card2)))); [|apply H3].
  apply full_card_set; [apply H3|unfold K9; set_solver|discriminate|discriminate].
Qed.

(** ** What a computation returns *)

Lemma post_ret {A : Type} (a : A) (Q : A -> Prop) : Q a -> post (ret a) Q.
Proof. intros H w a' w' E. injection E as <- _. exact H. Qed.

Lemma post_raise {A : Type} (Q : A -> Prop) : post raise Q.
Proof. intros w a w' E. discriminate. Qed.

Lemma post_lift {A : Type} (e : exn A) (Q : A -> Prop) :
  (forall a, e = Val a -> Q a) -> post (lift e) Q.
Proof.
  intros H w a w' E. unfold lift in E. destruct e as [a0|]; [|discriminate].
  injection E as <- _. apply H. reflexivity.
Qed.

Lemma post_bind {A B : Type} (m : M A) (k : A -> M B) (P : A -> Prop)
    (Q : B -> Prop) :
  post m P -> (forall a, P a -> post (k a) Q) -> post (bind m k) Q.
Proof.
  intros Hm Hk w b w' E. unfold bind in E.
  destruct (m w) as [a w1|w1] eqn:Em; [|discriminate].
  exact (Hk a (Hm _ _ _ Em) _ _ _ E).
Qed.

Lemma post_any {A : Type} (m : M A) : post m (fun _ => True).
Proof. intros w a w' _. exact I. Qed.

Lemma enrich_card_full (app : App) (con : DB) (card : list (string * jval))
    (l : string) (rg : option string) :
  full_card card -> post (_enrich_card app con card l rg) full_card.
Proof.
  intros Hc. unfold _enrich_card.
  apply (post_bind _ _ _ _ (post_any _)). intros tid _. cbv zeta.
  destruct ((tid <=? 0) || _); [apply post_ret, Hc|].
  apply (post_bind _ _ _ _ (post_any _)). intros _ _.
  apply (post_bind _ _ full_card).
  - destruct (enrich_row con _ tid) as [r|]; [|apply post_ret, Hc].
    apply post_lift. intros card' E.
    exact (enrich_from_row_full _ _ _ _ _ _ _ _ _ Hc E).
  - intros card1 H1. apply post_ret.
    assert (H2 : full_card (if negb (jtruthy (dget "logo" card1))
                            then assoc_set "logo" (dget "poster" card1) card1
                            else card1)).
    { destruct (negb (jtruthy (dget "logo" card1))); [|exact H1].
      apply full_card_set; [exact H1|unfold K9; set_solver|discriminate|discriminate]. }
    destruct (negb (dhas "backdrop" _)); [|exact H2].
    apply full_card_set; [exact H2|unfold K9; set_solver|discriminate|discriminate].
Qed.

Lemma trending_cards_ok (app : App) (con : DB) (items : list jval)
    (l : string) (rg : option string) :
  post (trending_cards app con items l rg) (Forall card_ok).
Proof.
  induction items as [|it items IH]; simpl; [apply post_ret; constructor|].
  apply (post_bind _ _ (fun c => forall kv, c = Some kv -> full_card kv)).
  - apply post_lift. intros c E kv ->.
    destruct it; try discriminate. exact (tmdb_card_full _ _ E).
  - intros [kv|] Hc; [|exact IH].
    apply (post_bind _ _ _ _ (enrich_card_full _ _ _ _ _ (Hc kv eq_refl))).
    intros kv' Hkv'. apply (post_bind _ _ _ _ IH). intros cs Hcs.
    apply post_ret. constructor; [apply full_card_ok, Hkv'|exact Hcs].
Qed.

Lemma emap_Forall {A B : Type} (f : A -> exn B) (P : A -> Prop) (Q : B -> Prop)
    (xs : list A) (ys : list B) :
  (forall x y, P x -> f x = Val y -> Q y) ->
  Forall P xs -> emap f xs = Val ys -> Forall Q ys.
Proof.
  intros Hf. revert ys. induction xs as [|x xs IH]; simpl; intros ys Hxs E.
  - injection E as <-. constructor.
  - apply ebind_val in E as (y & Ey & E).
    apply ebind_val in E as (ys' & Eys & E). injection E as <-.
    inversion Hxs; subst. constructor; [eapply Hf; eauto|apply IH; auto].
Qed.

Lemma Forall_any {A : Type} (xs : list A) : Forall (fun _ => True) xs.
Proof. induction xs; constructor; auto. Qed.

Lemma movie_cards_ok (app : App) (con : DB) (rows : list movie_row)
    (l : string) (rg : option string) (wd : bool) (cs : list jval) :
  movie_cards app con rows l rg wd = Val cs -> Forall card_ok cs.
Proof.
  unfold movie_cards. apply (emap_Forall _ (fun _ => True)); [|apply Forall_any].
  intros r c _. apply card_from_row_ok.
Qed.

Lemma series_cards_ok (app : App) (con : DB) (rows : list series_row)
    (l : string) (rg : option string) (wd : bool) (cs : list jval) :
  series_cards app con rows l rg wd = Val cs -> Forall card_ok cs.
Proof.
  unfold series_cards. apply (emap_Forall _ (fun _ => True)); [|apply Forall_any].
  intros r c _. apply card_from_row_ok.
Qed.

Lemma popular_cards_ok (app : App) (con : DB) (n : nat) (l : string)
    (rg : option string) (wd : bool) (cs : list jval) :
  popular_cards app con n l rg wd = Val cs -> Forall card_ok cs.
Proof.
  unfold popular_cards. intros H.
  apply ebind_val in H as (ms & Hm & H).
  apply ebind_val in H as (ss & Hs & H). injection H as <-.
  apply Forall_take, Forall_app. split.
  - exact (movie_cards_ok _ _ _ _ _ _ _ Hm).
  - exact (series_cards_ok _ _ _ _ _ _ _ Hs).
Qed.
(** ** The rows of the list statements are movies and series *)

Lemma Forall_insert_by {A : Type} (P : A -> Prop) (before : A -> A -> bool)
    (x : A) (l : list A) :
  P x -> Forall P l -> Forall P (insert_by before x l).
Proof.
  intros Hx. induction 1 as [|y l Hy Hl IH]; simpl.
  - constructor; [exact Hx|constructor].
  - destruct (before x y); repeat constructor; auto.
Qed.

Lemma Forall_order_by {A : Type} (P : A -> Prop) (before : A -> A -> bool)
    (l : list A) :
  Forall P l -> Forall P (order_by before l).
Proof.
  unfold order_by. induction 1 as [|x l Hx Hl IH]; simpl; [constructor|].
  apply Forall_insert_by; assumption.
Qed.

Lemma Forall_limit_offset {A : Type} (P : A -> Prop) (n k : Z) (l : list A) :
  Forall P l -> Forall P (limit_offset n k l).
Proof. intros H. unfold limit_offset. apply Forall_take, Forall_drop, H. Qed.

Lemma Forall_list_filter {A : Type} (P : A -> Prop) (f : A -> bool) (l : list A) :
  Forall P l -> Forall P (List.filter f l).
Proof.
  induction 1 as [|x l Hx Hl IH]; simpl; [constructor|].
  destruct (f x); [constructor|]; assumption.
Qed.

Lemma Forall_distinct (P : urow -> Prop) (l : list urow) (seen : list (string * Z)) :
  Forall P l -> Forall P (distinct l seen).
Proof.
  intros H. revert seen. induction H as [|x l Hx Hl IH]; simpl; intros seen.
  - constructor.
  - destruct (existsb _ seen); [apply IH|constructor; [exact Hx|apply IH]].
Qed.

Lemma Forall_const_bind {A B : Type} (P : B -> Prop) (f : A -> list B)
    (l : list A) :
  (forall x, Forall P (f x)) -> Forall P (l ≫= f).
Proof.
  intros H. apply Forall_bind. induction l; constructor; auto.
Qed.

Lemma genre_edge_rows_kind (con : DB) (names : list string) :
  Forall (fun r => kind_ok (u_kind r)) (genre_edge_rows con names).
Proof.
  unfold genre_edge_rows. apply Forall_app. split.
  - apply Forall_const_bind. intros m. apply Forall_const_bind. intros _.
    repeat constructor.
  - apply Forall_const_bind. intros s. apply Forall_const_bind. intros _.
    constructor; [right; reflexivity|constructor].
Qed.

Lemma run_statement_kind (app : App) (con : DB) (s : statement) :
  Forall (fun r => kind_ok (u_kind r)) (run_statement app con s).
Proof.
  destruct s as [names limit offset|wm ws o limit offset]; simpl.
  - apply Forall_limit_offset, Forall_order_by, Forall_distinct,
      genre_edge_rows_kind.
  - apply Forall_limit_offset, Forall_order_by, Forall_app. split.
    + apply Forall_list_filter, Forall_map.
      apply Forall_forall. intros m _. left. reflexivity.
    + apply Forall_list_filter, Forall_map.
      apply Forall_forall. intros m _. right. reflexivity.
Qed.

Lemma search_join_kind (con : DB) (mt : string) (tid : Z) (l : string)
    (base : urow) (over : option string) :
  kind_ok (u_kind base) ->
  Forall (fun r => kind_ok (u_kind (sr_row r))) (search_join con mt tid l base over).
Proof.
  intros H. unfold search_join.
  destruct (List.filter _ (title_translations con)) as [|t ts].
  - constructor; [exact H|constructor].
  - apply Forall_map. apply Forall_forall. intros t' _. exact H.
Qed.

Lemma search_rows_kind (con : DB) (l like : string) (limit : Z) :
  Forall (fun r => kind_ok (u_kind r)) (search_rows con l like limit).
Proof.
  unfold search_rows. cbv zeta.
  apply Forall_limit_offset, Forall_order_by, Forall_map, Forall_list_filter.
  apply Forall_app. split.
  - apply Forall_const_bind. intros m. apply search_join_kind. left. reflexivity.
  - apply Forall_const_bind. intros s. apply search_join_kind. right. reflexivity.
Qed.

(** The cards of the lists and of the search have eight keys. *)
Lemma list_card_ok (app : App) (con : DB) (r : urow) (l : string)
    (rg : option string) (c : jval) :
  kind_ok (u_kind r) -> list_card app con r l rg = Val c -> card_ok c.
Proof.
  unfold list_card. intros Hk H. cbv zeta in H.
  apply ebind_val in H as (name & _ & H).
  apply ebind_val in H as (year & _ & H). injection H as <-.
  eexists. split; [reflexivity|]. split; [right; reflexivity|]. split.
  - destruct Hk as [-> | ->]; [left|right]; reflexivity.
  - left. reflexivity.
Qed.

Lemma search_card_ok (r : urow) (l : string) (c : jval) :
  kind_ok (u_kind r) -> search_card r l = Val c -> card_ok c.
Proof.
  unfold search_card. intros Hk H.
  apply ebind_val in H as (name & _ & H).
  apply ebind_val in H as (year & _ & H). injection H as <-.
  eexists. split; [reflexivity|]. split; [right; reflexivity|]. split.
  - destruct Hk as [-> | ->]; [left|right]; reflexivity.
  - left. reflexivity.
Qed.

Lemma list_cards_ok (app : App) (con : DB) (s : statement) (n : nat)
    (l : string) (rg : option string) (cs : list jval) :
  emap (fun r => list_card app con r l rg) (take n (run_statement app con s))
  = Val cs ->
  Forall card_ok cs.
Proof.
  apply (emap_Forall _ (fun r => kind_ok (u_kind r))).
  - intros r c. apply list_card_ok.
  - apply Forall_take, run_statement_kind.
Qed.

Lemma genre_cards_ok (app : App) (con : DB) (names : list string) (l : string)
    (rg : option string) (cs : list jval) :
  genre_cards app con names l rg = Val cs -> Forall card_ok cs.
Proof.
  unfold genre_cards. intros H.
  assert (Hs : forall s cs,
             emap (fun r => list_card app con r l rg) (run_statement app con s)
             = Val cs -> Forall card_ok cs).
  { intros s cs0. apply (emap_Forall _ (fun r => kind_ok (u_kind r))).
    - intros r c. apply list_card_ok.
    - apply run_statement_kind. }
  destruct (has_genres app && has_title_genres app).
  - destruct names; [injection H as <-; constructor|exact (Hs _ _ H)].
  - destruct (str_in "genres" (movies_cols app) || str_in "genres" (series_cols app));
      [exact (Hs _ _ H)|injection H as <-; constructor].
Qed.

Lemma dict_of_ok (ks : list string) (f : string -> exn (list jval))
    (d : list (string * jval)) :
  (forall k cs, f k = Val cs -> Forall card_ok cs) ->
  dict_of ks f = Val d -> card_map_ok (JObj d).
Proof.
  intros Hf H. exists d. split; [reflexivity|].
  revert d H. induction ks as [|k ks IH]; simpl; intros d H.
  - injection H as <-. constructor.
  - apply ebind_val in H as (v & Hv & H).
    apply ebind_val in H as (d' & Hd' & H). injection H as <-.
    constructor; [|exact (IH _ Hd')].
    exists v. split; [reflexivity|exact (Hf _ _ Hv)].
Qed.

Lemma home_local_ok (app : App) (con : DB) (l : string) (rg : option string)
    (b : list jval * list jval * list jval) :
  home_local app con l rg = Val b ->
  Forall card_ok (fst (fst b)) /\ Forall card_ok (snd (fst b)) /\
  Forall card_ok (snd b).
Proof.
  unfold home_local. intros H.
  apply ebind_val in H as (s & Hs & H).
  apply ebind_val in H as (t & Ht & H).
  apply ebind_val in H as (u & Hu & H). injection H as <-. simpl.
  repeat split; eapply popular_cards_ok; eassumption.
Qed.

Lemma home_trending_ok (app : App) (con : DB) (l : string) (rg : option string)
    (rnd : list nat * list nat) :
  post (home_trending app con l rg rnd)
       (fun b => Forall card_ok (fst (fst b)) /\ Forall card_ok (snd (fst b)) /\
                 Forall card_ok (snd b)).
Proof.
  unfold home_trending. cbv zeta.
  apply (post_bind _ _ _ _ (post_any _)). intros day0 _.
  apply (post_bind _ _ _ _ (post_any _)). intros day _.
  apply (post_bind _ _ _ _ (trending_cards_ok _ _ _ _ _)). intros slider Hs.
  apply (post_bind _ _ _ _ (trending_cards_ok _ _ _ _ _)). intros top10 Ht.
  apply (post_bind _ _ _ _ (post_any _)). intros week0 _.
  apply (post_bind _ _ _ _ (post_any _)). intros week _.
  apply (post_bind _ _ _ _ (trending_cards_ok _ _ _ _ _)). intros trending Hr.
  apply (post_bind _ _ (Forall card_ok)).
  { destruct top10; [|apply post_ret, Ht].
    apply post_lift. intros cs. apply popular_cards_ok. }
  intros top10' Ht'.
  apply (post_bind _ _ (Forall card_ok)).
  { destruct trending; [|apply post_ret, Hr].
    apply post_lift. intros cs. apply popular_cards_ok. }
  intros trending' Hr'. apply post_ret. simpl. auto.
Qed.

Lemma home_compose_ok (app : App) (con : DB) (l : string) (rg : option string)
    (rnd : list nat * list nat) :
  post (home_compose app con l rg rnd) home_ok.
Proof.
  unfold home_compose.
  apply (post_bind _ _
           (fun b => Forall card_ok (fst (fst b)) /\ Forall card_ok (snd (fst b)) /\
                     Forall card_ok (snd b))).
  { destruct (str_truthy (tmdb_key app)); [apply home_trending_ok|].
    apply post_lift. intros b. apply home_local_ok. }
  intros blocks (Hs & Ht & Hr).
  apply (post_bind _ _ (fun d => card_map_ok (JObj d))).
  { apply post_lift. intros d. apply dict_of_ok. intros k cs.
    destruct (str_in "networks" (series_cols app)).
    - apply series_cards_ok.
    - intros E. injection E as <-. constructor. }
  intros series_on Hon.
  apply (post_bind _ _ (Forall card_ok)).
  { apply post_lift. intros cs. apply movie_cards_ok. }
  intros tm Htm.
  apply (post_bind _ _ (Forall card_ok)).
  { apply post_lift. intros cs. apply series_cards_ok. }
  intros ts Hts.
  apply (post_bind _ _ (fun d => card_map_ok (JObj d))).
  { apply post_lift. intros d. apply dict_of_ok. intros k cs.
    apply genre_cards_ok. }
  intros genres Hg.
  apply (post_bind _ _ _ _ (post_any _)). intros as_of _.
  apply post_ret. eexists. split; [reflexivity|].
  split; [eexists; split; [reflexivity|exact Hs]|].
  split; [eexists; split; [reflexivity|exact Ht]|].
  split; [eexists; split; [reflexivity|exact Hr]|].
  split; [exact Hon|]. split; [|exact Hg].
  eexists. split; [reflexivity|].
  constructor; [eexists; split; [reflexivity|exact Htm]|].
  constructor; [eexists; split; [reflexivity|exact Hts]|constructor].
Qed.
(** ** The home cache *)

#[local] Instance home_same_preorder : PreOrder home_same.
Proof.
  split.
  - intros w. reflexivity.
  - intros w1 w2 w3 H12 H23. unfold home_same in *. congruence.
Qed.

Lemma home_same_opener_open (b : bucket_name) (url : string) (t : Z) :
  respects home_same (opener_open b url t).
Proof.
  intros w. unfold opener_open.
  destruct (provider w (length (requests w)) url) as [|st h body];
    [|destruct ((200 <=? st) && (st <? 300))]; reflexivity.
Qed.

Lemma home_same_time_time : respects home_same time_time.
Proof. intros w. reflexivity. Qed.

Lemma home_same_con : respects home_same _con.
Proof. intros w. unfold _con. destruct (store_ok w); reflexivity. Qed.

Ltac home_same_step :=
  first
    [ apply home_same_opener_open | apply home_same_time_time
    | apply home_same_con
    | match goal with
      | |- respects _ (modify _) => apply respects_modify; intros ?; reflexivity
      end
    | apply respects_tmdb_open
    | respects_step ].

Lemma home_same_schedule (app : App) (mt : string) (tid : Z) (l : string)
    (r : option string) (f : bool) :
  respects home_same (_schedule_backfill app mt tid l r f).
Proof. unfold _schedule_backfill. repeat home_same_step. Qed.

Lemma home_same_enrich_card (app : App) (con : DB) (card : list (string * jval))
    (l : string) (r : option string) :
  respects home_same (_enrich_card app con card l r).
Proof.
  unfold _enrich_card. repeat first [ apply home_same_schedule | home_same_step ].
Qed.

Lemma home_same_trending_cards (app : App) (con : DB) (items : list jval)
    (l : string) (r : option string) :
  respects home_same (trending_cards app con items l r).
Proof.
  induction items as [|it items IH]; simpl; [apply respects_ret; exact _|].
  apply respects_bind; [exact _|apply respects_lift; exact _|].
  intros [kv|]; [|exact IH].
  apply respects_bind; [exact _|apply home_same_enrich_card|]. intros kv'.
  apply respects_bind; [exact _|exact IH|]. intros cs.
  apply respects_ret; exact _.
Qed.

Lemma home_same_tmdb_trending (app : App) (window lang : string) :
  respects home_same (_tmdb_trending app window lang).
Proof. unfold _tmdb_trending. repeat home_same_step. Qed.

Lemma home_same_home_compose (app : App) (con : DB) (l : string)
    (rg : option string) (rnd : list nat * list nat) :
  respects home_same (home_compose app con l rg rnd).
Proof.
  unfold home_compose, home_trending.
  repeat first [ apply home_same_trending_cards | apply home_same_tmdb_trending
               | home_same_step ].
Qed.

Lemma respects_ok (R : World -> World -> Prop) {A : Type} (m : M A)
    (w : World) (a : A) (w' : World) :
  respects R m -> m w = Ok a w' -> R w w'.
Proof. intros H E. specialize (H w). rewrite E in H. exact H. Qed.

Lemma bind_ok {A B : Type} (m : M A) (k : A -> M B) (w : World) (b : B)
    (w' : World) :
  bind m k w = Ok b w' -> exists a w1, m w = Ok a w1 /\ k a w1 = Ok b w'.
Proof.
  unfold bind. intros E. destruct (m w) as [a w1|w1]; [eauto|discriminate].
Qed.

Lemma lift_ok {A : Type} (e : exn A) (w : World) (a : A) (w' : World) :
  lift e w = Ok a w' -> e = Val a /\ w' = w.
Proof.
  unfold lift. destruct e as [a0|]; [|discriminate].
  intros E. injection E as -> ->. auto.
Qed.

Lemma home_cache_ok_same (w w' : World) :
  home_same w w' -> home_cache_ok w -> home_cache_ok w'.
Proof. intros H Hc k t v E. rewrite H in E. exact (Hc k t v E). Qed.

Lemma cache_fresh_some {V : Type} (cur : option (Q * V)) (now ttl : Q) (v : V) :
  cache_fresh cur now ttl = Some v -> exists t0, cur = Some (t0, v).
Proof.
  unfold cache_fresh. destruct cur as [[t0 v0]|]; [|discriminate].
  destruct (Qltb (now - t0) ttl); [|discriminate].
  intros E. injection E as <-. eauto.
Qed.

(** [app_home] returns a home object whose cards are cards, and keeps such
    objects in its cache. *)
Lemma app_home_ok (app : App) (l : string) (rg : option string)
    (rnd : list nat * list nat) (w : World) (out : jval) (w' : World) :
  home_cache_ok w -> app_home app l rg rnd w = Ok out w' ->
  home_ok out /\ home_cache_ok w'.
Proof.
  intros Hc H. unfold app_home in H. cbv zeta in H.
  apply bind_ok in H as (now & w1 & Hnow & H).
  apply (respects_ok home_same) in Hnow; [|apply home_same_time_time].
  apply (home_cache_ok_same _ _ Hnow) in Hc. clear Hnow.
  apply bind_ok in H as (w2 & w3 & Hg & H). injection Hg as <- <-.
  destruct (cache_fresh _ now (home_ttl_s app)) as [out0|] eqn:Ef.
  - injection H as <- <-.
    apply cache_fresh_some in Ef as (t0 & Ef).
    split; [exact (Hc _ _ _ Ef)|exact Hc].
  - clear Ef.
    apply bind_ok in H as (con & w2 & Hcon & H).
    apply (respects_ok home_same) in Hcon; [|apply home_same_con].
    apply (home_cache_ok_same _ _ Hcon) in Hc. clear Hcon.
    apply bind_ok in H as (out1 & w3 & Hout & H).
    pose proof (home_compose_ok _ _ _ _ _ _ _ _ Hout) as Hok.
    apply (respects_ok home_same) in Hout; [|apply home_same_home_compose].
    apply (home_cache_ok_same _ _ Hout) in Hc. clear Hout.
    apply bind_ok in H as (stored & w4 & Hst & H).
    apply (respects_ok home_same) in Hst; [|apply home_same_time_time].
    apply (home_cache_ok_same _ _ Hst) in Hc. clear Hst.
    apply bind_ok in H as (u & w5 & Hm & H).
    injection H as <- <-. unfold modify in Hm. injection Hm as _ <-.
    split; [exact Hok|].
    intros k t v E. unfold set_home_cache in E. cbn [home_cache] in E.
    destruct (decide (k = _lang_tag l rg)) as [-> | Hne].
    + rewrite lookup_insert_eq in E. injection E as <- <-. exact Hok.
    + rewrite lookup_insert_ne in E by congruence. exact (Hc _ _ _ E).
Qed.

Lemma dindex_dget (k : string) (kv : list (string * jval)) (v : jval) :
  dindex k kv = Val v -> dget k kv = v.
Proof.
  unfold dindex, dget. destruct (assoc k kv); [|discriminate]. congruence.
Qed.

(** The search page shows the trending cards of the home object. *)
Lemma app_search_page_ok (app : App) (l : string) (rg : option string)
    (rnd : list nat * list nat) (w : World) (out : jval) (w' : World) :
  home_cache_ok w -> app_search_page app l rg rnd w = Ok out w' ->
  (exists kv, out = JObj kv /\ cards_ok (dget "trending_today" kv)) /\
  home_cache_ok w'.
Proof.
  intros Hc H. unfold app_search_page in H.
  apply bind_ok in H as (home & w1 & Hh & H).
  apply (app_home_ok _ _ _ _ _ _ _ Hc) in Hh as [(kv & -> & _ & _ & Ht & _) Hc1].
  apply bind_ok in H as (t & w2 & Ht' & H). apply lift_ok in Ht' as [Ht' ->].
  injection H as <- <-. split; [|exact Hc1].
  eexists. split; [reflexivity|].
  apply dindex_dget in Ht'. rewrite Ht' in Ht. exact Ht.
Qed.

Lemma app_browse_ok (app : App) (tab : string) (page : Z) (l : string)
    (rg : option string) (w : World) (out : jval) (w' : World) :
  app_browse app tab page l rg w = Ok (Some out) w' ->
  exists kv, out = JObj kv /\ cards_ok (dget "items" kv).
Proof.
  unfold app_browse. intros H.
  destruct (page <? 1); [discriminate|].
  destruct (table_get tab BROWSE_TABS); [|discriminate].
  destruct (browse_statement app tab page) as [stmt|]; [|discriminate].
  apply bind_ok in H as (con & w1 & _ & H). cbv zeta in H.
  apply bind_ok in H as (items & w2 & Hi & H). apply lift_ok in Hi as [Hi _].
  injection H as <- _.
  eexists. split; [reflexivity|]. exists items. split; [reflexivity|].
  exact (list_cards_ok _ _ _ _ _ _ _ Hi).
Qed.

Lemma app_search_ok (app : App) (query : string) (l : string)
    (rg : option string) (w : World) (out : jval) (w' : World) :
  app_search app query l rg w = Ok out w' ->
  exists kv, out = JObj kv /\ cards_ok (dget "results" kv).
Proof.
  unfold app_search. intros H. cbv zeta in H.
  destruct (negb (str_truthy (strip query))).
  - injection H as <- _. eexists. split; [reflexivity|].
    exists []. split; [reflexivity|constructor].
  - apply bind_ok in H as (con & w1 & _ & H).
    destruct (negb (str_in "title_translations" (db_tables con))); [discriminate|].
    apply bind_ok in H as (res0 & w2 & Hr & H). apply lift_ok in Hr as [Hr _].
    injection H as <- _.
    eexists. split; [reflexivity|]. exists res0. split; [reflexivity|].
    revert Hr. apply (emap_Forall _ (fun r => kind_ok (u_kind r))).
    + intros r c. apply search_card_ok.
    + apply search_rows_kind.
Qed.
(** C8. Card shape uniformity.  Every card of the home object (the lists
    [slider], [top10_today] and [trending_today], and the lists under
    [series_on], [top_rated] and [genres]), of a browse page and of the
    search results is a dictionary whose keys are [id], [kind], [name],
    [description], [year], [rating], [poster], [logo] and [backdrop], or
    these without [description]; its kind is [movie] or [series]; and its
    description is nothing, or a text of at most 240 characters, or the
    first 240 characters of a longer text followed by an ellipsis.  In a
    card made from a row of the store, the text is the overview with the
    white space around it removed, taken from the translation
    [_translated] picks for the language and region when it has one and
    from the row otherwise.  The home object may be the one in the cache;
    the objects [app_home] puts there have the property, so it holds for
    every later answer too. *)
Theorem card_shape_uniformity (app : App) (l : string) (rg : option string) :
  (forall mt r con wd c,
      _card_from_row app mt r con l rg wd = Val c ->
      card_ok c /\
      exists kv tid, c = JObj kv /\ keys kv = K9 /\ dget "id" kv = JInt tid /\
        if wd
        then exists s,
            jstrip (text_or
                      (snd (match con with
                            | Some db =>
                                _translated app db
                                  (if String.eqb mt "movie" then "movie" else "tv")
                                  tid l rg
                            | None => (None, None)
                            end))
                      (dget "overview" r)) = Val s /\
            dget "description" kv = clip240 s
        else dget "description" kv = JNull) /\
  (forall tab page w out w',
      app_browse app tab page l rg w = Ok (Some out) w' ->
      exists kv, out = JObj kv /\ cards_ok (dget "items" kv)) /\
  (forall query w out w',
      app_search app query l rg w = Ok out w' ->
      exists kv, out = JObj kv /\ cards_ok (dget "results" kv)) /\
  (forall rnd w out w',
      home_cache_ok w -> app_home app l rg rnd w = Ok out w' ->
      home_ok out /\ home_cache_ok w').
Proof.
  split; [|split; [|split]].
  - intros mt r con wd c H. split; [exact (card_from_row_ok _ _ _ _ _ _ _ _ H)|].
    apply card_from_row_full in H as (kv & tid & -> & (Hk & _) & Hid & Hd).
    exists kv, tid. auto.
  - intros tab page w out w'. apply app_browse_ok.
  - intros query w out w'. apply app_search_ok.
  - intros rnd w out w'. apply app_home_ok.
Qed.

(** * Further properties of the code *)

(** ** The token bucket as a rate limit *)




(** X2.  [acquire(n)] for more tokens than the capacity never returns:
    with a positive rate, whatever the clock reads, no iteration finds
    [n] tokens in the bucket. *)
Theorem acquire_beyond_capacity (b : _TokenBucket) (n : Q) (clock : list Q) :
  (0 < tb_rate b)%Q -> bucket_ok b -> (tb_capacity b < n)%Q ->
  snd (acquire b n clock) = false.
Proof.
  intros Hr Hb Hn. unfold acquire.
  destruct (Qleb (tb_rate b) 0) eqn:E0; [apply Qleb_true in E0; lra|].
  clear E0. revert b Hr Hb Hn.
  induction clock as [|now rest IH]; intros b Hr Hb Hn; simpl; [reflexivity|].
  unfold acquire_step.
  pose proof (refill_ok b now Hr Hb) as [H0 Hc].
  destruct (refill_shape b now) as [Er Ec].
  destruct (Qleb n (tb_tokens (refill b now))) eqn:E.
  - apply Qleb_true in E. rewrite Ec in Hc. lra.
  - apply IH; [rewrite Er; exact Hr|split; assumption|rewrite Ec; exact Hn].
Qed.


(** ** The rate limit per client address *)




(** X5.  The table of the rate limit stays small: when the limit is on,
    the table holds at most 20000 addresses after every request,
    whatever it held before; when [RATE_LIMIT_RPS] or [RATE_LIMIT_BURST]
    is not positive the limit is off, every request passes and the table
    is not touched. *)
Theorem rate_table_bounded (re be : option Q) (hd : string -> option string)
    (peer : string) (now : Q) (rl : gmap string (Q * Q)) :
  ((0 < rate_rps re)%Q /\ (0 < rate_burst be)%Q ->
   Z.of_nat (size (snd (_rate_allow re be hd peer now rl))) <= 20000) /\
  ((rate_rps re <= 0)%Q \/ (rate_burst be <= 0)%Q ->
   _rate_allow re be hd peer now rl = (true, rl)).
Proof.
  unfold _rate_allow. cbv zeta. split.
  - intros [Hr Hb].
    assert (E1 : Qleb (rate_rps re) 0 = false) by (apply Qleb_false; exact Hr).
    assert (E2 : Qleb (rate_burst be) 0 = false) by (apply Qleb_false; exact Hb).
    rewrite E1, E2. cbn [orb].
    destruct (Qltb _ 1); cbn [snd];
      match goal with
      | |- context [20000 <? ?x] => destruct (20000 <? x) eqn:E
      end;
      try (rewrite map_size_empty; simpl; lia);
      apply Z.ltb_ge in E; exact E.
  - intros [H | H]; apply Qleb_true in H; rewrite H; [|rewrite orb_true_r];
      reflexivity.
Qed.

(** X6.  A burst below 1 locks everybody out: with a positive rate and
    [0 < RATE_LIMIT_BURST < 1] no request ever passes, since a bucket
    never holds the one token a request costs. *)
Theorem rate_allow_small_burst (re be : option Q) (hd : string -> option string)
    (peer : string) (now : Q) (rl : gmap string (Q * Q)) :
  (0 < rate_rps re)%Q -> (0 < rate_burst be)%Q -> (rate_burst be < 1)%Q ->
  fst (_rate_allow re be hd peer now rl) = false.
Proof.
  intros Hr Hb H1. unfold _rate_allow. cbv zeta.
  assert (E1 : Qleb (rate_rps re) 0 = false) by (apply Qleb_false; exact Hr).
  assert (E2 : Qleb (rate_burst be) 0 = false) by (apply Qleb_false; exact Hb).
  rewrite E1, E2. cbn [orb].
  match goal with
  | |- context [Qltb (py_min ?x ?y) 1] =>
      assert (E : Qltb (py_min x y) 1 = true)
  end.
  { apply Qltb_true.
    match goal with
    | |- (py_min ?x ?y < 1)%Q => destruct (py_min_spec x y) as [[H ->]|[H ->]]
    end; lra. }
  rewrite E. reflexivity.
Qed.

(** ** The bookkeeping of the scheduler *)

Lemma run_inflight (app : App) (tk : task) (w : World) :
  let w' := world_of (run app tk w) in
  backfill_queue w' = backfill_queue w /\
  backfill_inflight w' =
    if store_ok w then backfill_inflight w ∖ {[t_key tk]} else backfill_inflight w.
Proof.
  intros w'. subst w'. rewrite run_world.
  destruct (store_ok w); [|split; reflexivity].
  pose proof (keeps_run_body app tk {| con_db := store w; con_pending := [] |}
                (set_tmdb_tls_bg true w)) as H.
  apply only_net_fields in H
    as (_ & _ & _ & _ & _ & _ & _ & _ & _ & Hi & Hq & _).
  unfold run_finally. cbn [backfill_queue backfill_inflight set_backfill_inflight
                           set_tmdb_tls_bg].
  rewrite Hi, Hq. split; reflexivity.
Qed.

Lemma queue_ok_step (app : App) (o : op) (w : World) :
  queue_ok app w -> queue_ok app (step app o w).
Proof.
  intros (Hnd & Hin & Hsz). destruct o as [mt tid l r f| |]; cbn [step].
  - destruct (negb (str_truthy (tmdb_key app)) || negb (str_in mt ["movie"; "tv"])
              || (tid <=? 0)) eqn:G.
    + unfold _schedule_backfill. rewrite G. split; [|split]; assumption.
    + assert (Hs : schedulable app mt tid).
      { apply orb_false_iff in G as [G Gt]. apply orb_false_iff in G as [Gk Gm].
        apply negb_false_iff in Gk, Gm. apply Z.leb_gt in Gt.
        split; [now apply str_truthy_true|]. split; [|exact Gt].
        unfold str_in in Gm. simpl in Gm. rewrite orb_false_r in Gm.
        apply orb_true_iff in Gm as [E|E]; apply String.eqb_eq in E; auto. }
      rewrite (schedule_eq app mt tid l r f w Hs).
      set (k := backfill_key mt tid l r f).
      destruct (recently app w k _); [split; [|split]; assumption|].
      destruct (backfill_queue_limit app <=? Z.of_nat (size (backfill_inflight w)))
        eqn:El; cbn [orb]; [split; [|split]; assumption|].
      destruct (bool_decide (k ∈ backfill_inflight w)) eqn:Ek;
        [split; [|split]; assumption|].
      apply Z.leb_gt in El. apply bool_decide_eq_false in Ek.
      cbn [world_of]. unfold queue_ok.
      cbn [backfill_queue backfill_inflight set_backfill_queue
           set_backfill_inflight set_backfill_recent ticked world_of time_time].
      split; [|split].
      * rewrite map_app. cbn [map t_key].
        apply NoDup_app. split; [exact Hnd|]. split; [|apply NoDup_singleton].
        intros k' Hk' Hk1. apply list_elem_of_singleton in Hk1. subst k'.
        apply list_elem_of_fmap in Hk' as (tk & Ek' & Htk).
        apply Ek. rewrite Ek'. apply (Hin tk Htk).
      * intros tk Htk. apply elem_of_app in Htk as [Htk | Htk].
        -- destruct (Hin tk Htk) as [H1 H2].
           split; [apply elem_of_union; right; exact H1|exact H2].
        -- apply list_elem_of_singleton in Htk. subst tk. cbn [t_key].
           split; [|reflexivity].
           apply elem_of_union. left. apply elem_of_singleton. reflexivity.
      * rewrite size_union by (apply disjoint_singleton_l; exact Ek).
        rewrite size_singleton. lia.
  - unfold worker. destruct (backfill_queue w) as [|tk rest] eqn:Eq;
      [unfold queue_ok; rewrite Eq; split; [|split]; assumption|].
    destruct (run_inflight app tk (set_backfill_queue rest w)) as [Hq Hi].
    cbn [backfill_queue backfill_inflight set_backfill_queue store_ok] in Hq, Hi.
    cbn [map] in Hnd. apply NoDup_cons in Hnd as [Hfresh Hnd].
    unfold queue_ok. rewrite Hq, Hi. split; [exact Hnd|].
    destruct (store_ok w).
    + split.
      * intros tk' Htk'.
        destruct (Hin tk' ltac:(right; exact Htk')) as [H1 H2].
        split; [|exact H2].
        apply elem_of_difference. split; [exact H1|].
        intros Hk. apply elem_of_singleton in Hk.
        apply Hfresh. rewrite <- Hk. apply list_elem_of_fmap. eauto.
      * assert (Hle : (size (backfill_inflight w ∖ {[t_key tk]})
                       <= size (backfill_inflight w))%nat)
          by (apply subseteq_size; intros x Hx;
              apply elem_of_difference in Hx as [Hx _]; exact Hx).
        lia.
    + split; [|exact Hsz].
      intros tk' Htk'. apply Hin. right. exact Htk'.
  - split; [|split]; assumption.
Qed.

(** X7.  The scheduler keeps its books: along every run of calls of
    [_schedule_backfill], worker tasks and clock readings, the queued
    tasks have distinct keys, so no task is queued twice, every queued
    key is in [inflight], and [inflight] never holds more than
    [BACKFILL_QUEUE_LIMIT] keys. *)
Theorem scheduler_bookkeeping (app : App) (ops : list op) (w : World) :
  queue_ok app w -> queue_ok app (steps app ops w).
Proof.
  unfold steps. revert w. induction ops as [|o ops IH]; intros w H; simpl.
  - exact H.
  - apply IH, queue_ok_step, H.
Qed.

(** ** Relations that only watch the requests and the scheduler *)

Section Frames.

Variable app : App.
Variable R : World -> World -> Prop.
Context `{!PreOrder R}.

(** [R] holds between worlds with the same requests, thread flag and
    scheduler state; [_tmdb_open] and [_schedule_backfill] respect it. *)
Hypothesis R_frame : forall w w',
  quiet w w' -> R w w'.
Hypothesis R_open : forall url t, respects R (_tmdb_open app url t).
Hypothesis R_schedule : forall mt tid l r f,
  respects R (_schedule_backfill app mt tid l r f).

Lemma frame_time_time : respects R time_time.
Proof. intros w. apply R_frame. repeat split. Qed.

Lemma frame_con : respects R _con.
Proof. intros w. unfold _con. destruct (store_ok w); reflexivity. Qed.

Lemma frame_commit (c : conn) : respects R (commit c).
Proof. intros w. apply R_frame. repeat split. Qed.

Ltac frame_step :=
  first
    [ apply R_open | apply R_schedule | apply frame_time_time | apply frame_con
    | apply frame_commit
    | match goal with
      | |- respects _ (modify _) =>
          apply respects_modify; intros ?; apply R_frame; repeat split
      end
    | respects_step ].

Lemma frame_get_json (url : string) (t : Z) :
  respects R (_tmdb_get_json app url t).
Proof. unfold _tmdb_get_json. repeat frame_step. Qed.

Lemma frame_upsert_logos (c : conn) (mt : string) (tid : Z) (lt : string) :
  respects R (_upsert_tmdb_logos app c mt tid lt).
Proof.
  unfold _upsert_tmdb_logos. repeat first [ apply frame_get_json | frame_step ].
Qed.

Lemma frame_upsert_videos (c : conn) (mt : string) (tid : Z) (lt : string) :
  respects R (_upsert_tmdb_videos app c mt tid lt).
Proof.
  unfold _upsert_tmdb_videos. repeat first [ apply frame_get_json | frame_step ].
Qed.

Lemma frame_upsert_cast (c : conn) (mt : string) (tid : Z) :
  respects R (_upsert_tmdb_cast app c mt tid).
Proof.
  unfold _upsert_tmdb_cast. repeat first [ apply frame_get_json | frame_step ].
Qed.

Lemma frame_upsert_translations (c : conn) (mt : string) (tid : Z) :
  respects R (_upsert_tmdb_translations app c mt tid).
Proof.
  unfold _upsert_tmdb_translations.
  repeat first [ apply frame_get_json | frame_step ].
Qed.

Lemma frame_upsert_seasons (c : conn) (tid : Z) (lt : string)
    (data : list (string * jval)) :
  respects R (_upsert_tmdb_tv_seasons_episodes app c tid lt data).
Proof.
  unfold _upsert_tmdb_tv_seasons_episodes.
  repeat first [ apply frame_get_json | frame_step ].
Qed.

Lemma frame_run_body (tk : task) (c : conn) : respects R (run_body app tk c).
Proof.
  unfold run_body, run_base, run_parts.
  repeat first
    [ apply frame_get_json | apply frame_upsert_logos | apply frame_upsert_videos
    | apply frame_upsert_cast | apply frame_upsert_translations
    | apply frame_upsert_seasons | frame_step ].
Qed.

Lemma frame_enrich_card (con : DB) (card : list (string * jval)) (l : string)
    (r : option string) :
  respects R (_enrich_card app con card l r).
Proof. unfold _enrich_card. repeat frame_step. Qed.

Lemma frame_tmdb_similar (kind : string) (tid : Z) (l : string)
    (r : option string) :
  respects R (_tmdb_similar app kind tid l r).
Proof.
  unfold _tmdb_similar, enrich_all.
  repeat first
    [ apply respects_mapM; [exact _|intros ?] | apply frame_enrich_card
    | frame_step ].
Qed.

Lemma frame_tmdb_trending (window lang : string) :
  respects R (_tmdb_trending app window lang).
Proof. unfold _tmdb_trending. repeat frame_step. Qed.

Lemma frame_trending_cards (con : DB) (items : list jval) (l : string)
    (r : option string) :
  respects R (trending_cards app con items l r).
Proof.
  induction items as [|it items IH]; simpl; [apply respects_ret; exact _|].
  apply respects_bind; [exact _|apply respects_lift; exact _|].
  intros [kv|]; [|exact IH].
  apply respects_bind; [exact _|apply frame_enrich_card|]. intros kv'.
  apply respects_bind; [exact _|exact IH|]. intros cs.
  apply respects_ret; exact _.
Qed.

Lemma frame_app_home (l : string) (rg : option string)
    (rnd : list nat * list nat) :
  respects R (app_home app l rg rnd).
Proof.
  unfold app_home, home_compose, home_trending.
  repeat first [ apply frame_trending_cards | apply frame_tmdb_trending
               | frame_step ].
Qed.

Lemma frame_app_search_page (l : string) (rg : option string)
    (rnd : list nat * list nat) :
  respects R (app_search_page app l rg rnd).
Proof. unfold app_search_page. repeat first [ apply frame_app_home | frame_step ]. Qed.

Lemma frame_app_browse (tab : string) (page : Z) (l : string)
    (rg : option string) :
  respects R (app_browse app tab page l rg).
Proof. unfold app_browse. repeat frame_step. Qed.

Lemma frame_app_search (q l : string) (rg : option string) :
  respects R (app_search app q l rg).
Proof. unfold app_search. repeat frame_step. Qed.

End Frames.

(** ** Without a key nothing is sent *)

#[local] Instance quiet_preorder : PreOrder quiet.
Proof.
  split.
  - intros w. repeat split.
  - intros w1 w2 w3 (A1 & B1 & C1 & D1 & E1) (A2 & B2 & C2 & D2 & E2).
    repeat split; congruence.
Qed.

Lemma quiet_open (app : App) (url : string) (t : Z) :
  tmdb_key app = EmptyString -> respects quiet (_tmdb_open app url t).
Proof.
  intros Hk. unfold _tmdb_open. rewrite Hk. cbn [str_truthy negb].
  apply respects_ret; exact _.
Qed.

Lemma quiet_schedule (app : App) (mt : string) (tid : Z) (l : string)
    (r : option string) (f : bool) :
  tmdb_key app = EmptyString ->
  respects quiet (_schedule_backfill app mt tid l r f).
Proof.
  intros Hk. unfold _schedule_backfill. rewrite Hk. cbn [str_truthy negb orb].
  apply respects_ret; exact _.
Qed.

(** X8.  Without a Provider key the service keeps to itself: the home
    page, the search page and the enrichment of a card send no request
    and leave the scheduler as it is, and a backfill task sends no
    request either. *)
Theorem no_key_no_request (app : App) :
  tmdb_key app = EmptyString ->
  (forall l rg rnd w, quiet w (world_of (app_home app l rg rnd w))) /\
  (forall l rg rnd w, quiet w (world_of (app_search_page app l rg rnd w))) /\
  (forall con card l rg w, quiet w (world_of (_enrich_card app con card l rg w))) /\
  (forall kind tid l rg w, _tmdb_similar app kind tid l rg w = Ok [] w) /\
  (forall window lang w, _tmdb_trending app window lang w = Ok [] w) /\
  (forall tk w, requests (world_of (run app tk w)) = requests w).
Proof.
  intros Hk.
  assert (Ho := fun url t => quiet_open app url t Hk).
  assert (Hs := fun mt tid l r f => quiet_schedule app mt tid l r f Hk).
  split; [|split; [|split; [|split; [|split]]]].
  - intros l rg rnd w.
    exact (frame_app_home app quiet (fun _ _ H => H) Ho Hs l rg rnd w).
  - intros l rg rnd w.
    exact (frame_app_search_page app quiet (fun _ _ H => H) Ho Hs l rg rnd w).
  - intros con card l rg w.
    exact (frame_enrich_card app quiet Hs con card l rg w).
  - intros kind tid l rg w. unfold _tmdb_similar. rewrite Hk. reflexivity.
  - intros window lang w. unfold _tmdb_trending. rewrite Hk. reflexivity.
  - intros tk w. rewrite run_world. destruct (store_ok w); [|reflexivity].
    pose proof (frame_run_body app quiet (fun _ _ H => H) Ho tk
                  {| con_db := store w; con_pending := [] |}
                  (set_tmdb_tls_bg true w)) as (Hr & _).
    unfold run_finally. cbn [requests set_backfill_inflight set_tmdb_tls_bg].
    exact Hr.
Qed.

(** ** The bucket that pays *)

#[local] Instance billed_preorder (app : App) : PreOrder (billed app).
Proof.
  split.
  - intros w. split; [reflexivity|]. exists []. split; [|constructor].
    now rewrite app_nil_r.
  - intros w1 w2 w3 (F1 & new1 & E1 & A1) (F2 & new2 & E2 & A2).
    split; [congruence|]. exists (new1 ++ new2)%list. split.
    + rewrite E2, E1, app_assoc. reflexivity.
    + apply Forall_app. split; [exact A1|].
      assert (Hb : charged_bucket app w2 = charged_bucket app w1)
        by (unfold charged_bucket; rewrite F1; reflexivity).
      rewrite <- Hb. exact A2.
Qed.

Lemma billed_frame (app : App) (w w' : World) : quiet w w' -> billed app w w'.
Proof.
  intros (Hr & Hf & _). split; [exact Hf|]. exists []. split; [|constructor].
  rewrite Hr, app_nil_r. reflexivity.
Qed.

Lemma billed_open (app : App) (url : string) (t : Z) :
  respects (billed app) (_tmdb_open app url t).
Proof.
  intros w. unfold _tmdb_open.
  destruct (negb (str_truthy (tmdb_key app))); [reflexivity|].
  unfold bind, get_world, opener_open.
  assert (H : forall w', w' = sent app url t w -> billed app w w').
  { intros w' ->. split; [reflexivity|]. eexists. split; [reflexivity|].
    constructor; [reflexivity|constructor]. }
  destruct (provider w (length (requests w)) url) as [|st h body];
    [|destruct ((200 <=? st) && (st <? 300))]; apply H; reflexivity.
Qed.

Lemma billed_schedule (app : App) (mt : string) (tid : Z) (l : string)
    (r : option string) (f : bool) :
  respects (billed app) (_schedule_backfill app mt tid l r f).
Proof.
  assert (Hm : forall g : World -> World,
             (forall w, requests (g w) = requests w /\
                        tmdb_tls_bg (g w) = tmdb_tls_bg w) ->
             respects (billed app) (modify g)).
  { intros g Hg w. destruct (Hg w) as [Hr Hf]. split; [exact Hf|].
    exists []. split; [|constructor]. cbn [world_of modify].
    rewrite Hr, app_nil_r. reflexivity. }
  unfold _schedule_backfill.
  repeat first
    [ match goal with
      | |- respects _ time_time =>
          intros ?; apply billed_frame; repeat split
      | |- respects _ (modify _) => apply Hm; intros ?; split; reflexivity
      end
    | respects_step ].
Qed.

(** X9.  The two token buckets keep their customers apart: every request
    of a backfill task is paid by the background bucket when there is
    one, and every request sent while serving the home page, the search
    page or the list of similar titles, on a thread that is not a
    worker, is paid by the foreground bucket. *)
Theorem bucket_routing (app : App) :
  (forall tk w, exists new,
      requests (world_of (run app tk w)) = (requests w ++ new)%list /\
      Forall (fun r => rq_bucket r = worker_bucket app) new) /\
  (forall l rg rnd w, tmdb_tls_bg w = false -> exists new,
      requests (world_of (app_home app l rg rnd w)) = (requests w ++ new)%list /\
      Forall (fun r => rq_bucket r = Foreground) new) /\
  (forall l rg rnd w, tmdb_tls_bg w = false -> exists new,
      requests (world_of (app_search_page app l rg rnd w))
      = (requests w ++ new)%list /\
      Forall (fun r => rq_bucket r = Foreground) new) /\
  (forall kind tid l rg w, tmdb_tls_bg w = false -> exists new,
      requests (world_of (_tmdb_similar app kind tid l rg w))
      = (requests w ++ new)%list /\
      Forall (fun r => rq_bucket r = Foreground) new).
Proof.
  assert (Hfg : forall w, tmdb_tls_bg w = false -> charged_bucket app w = Foreground)
    by (intros w Hf; unfold charged_bucket; rewrite Hf; reflexivity).
  split; [|split; [|split]].
  - intros tk w. rewrite run_world. destruct (store_ok w).
    + destruct (frame_run_body app (billed app) (billed_frame app)
                  (billed_open app) tk
                  {| con_db := store w; con_pending := [] |}
                  (set_tmdb_tls_bg true w)) as (_ & new & Hr & Hall).
      exists new. unfold run_finally.
      cbn [requests set_backfill_inflight set_tmdb_tls_bg] in *.
      split; [exact Hr|exact Hall].
    + exists []. split; [|constructor]. cbn [requests set_tmdb_tls_bg].
      now rewrite app_nil_r.
  - intros l rg rnd w Hf.
    destruct (frame_app_home app (billed app) (billed_frame app)
                (billed_open app) (billed_schedule app) l rg rnd w)
      as (_ & new & Hr & Hall).
    exists new. rewrite (Hfg w Hf) in Hall. auto.
  - intros l rg rnd w Hf.
    destruct (frame_app_search_page app (billed app) (billed_frame app)
                (billed_open app) (billed_schedule app) l rg rnd w)
      as (_ & new & Hr & Hall).
    exists new. rewrite (Hfg w Hf) in Hall. auto.
  - intros kind tid l rg w Hf.
    destruct (frame_tmdb_similar app (billed app) (billed_frame app)
                (billed_open app) (billed_schedule app) kind tid l rg w)
      as (_ & new & Hr & Hall).
    exists new. rewrite (Hfg w Hf) in Hall. auto.
Qed.

(** ** The caches of the home page and of the trending lists *)

(** X10.  The home page is repeatable: the object [app_home] returns is
    in the cache under the language tag, and as long as it stays there
    and the clock reads less than [home_ttl_s] (90 minutes) after its
    timestamp, every call returns that same object after one reading of
    the clock, whatever the random picks and whether or not the store
    opens and the Provider answers. *)
Theorem home_cache_round_trip (app : App) (l : string) (rg : option string)
    (rnd : list nat * list nat) (w : World) (out : jval) (w1 : World) :
  app_home app l rg rnd w = Ok out w1 ->
  exists t, home_cache w1 !! _lang_tag l rg = Some (t, out) /\
    forall rnd2 w2,
      home_cache w2 !! _lang_tag l rg = Some (t, out) ->
      (clock w2 (ticks w2) - t < home_ttl_s app)%Q ->
      app_home app l rg rnd2 w2 = Ok out (ticked w2).
Proof.
  intros H.
  assert (Hhit : forall t rnd2 w2,
             home_cache w2 !! _lang_tag l rg = Some (t, out) ->
             (clock w2 (ticks w2) - t < home_ttl_s app)%Q ->
             app_home app l rg rnd2 w2 = Ok out (ticked w2)).
  { intros t rnd2 w2 Hc Hf. unfold app_home. cbv zeta.
    unfold bind at 1, time_time at 1. cbv beta iota.
    unfold bind at 1, get_world at 1. cbv beta iota.
    cbn [home_cache]. rewrite Hc. unfold cache_fresh.
    apply Qltb_true in Hf. rewrite Hf. reflexivity. }
  unfold app_home in H. cbv zeta in H.
  apply bind_ok in H as (now & w0 & Hnow & H).
  unfold time_time in Hnow. injection Hnow as <- <-.
  apply bind_ok in H as (w2 & w3 & Hg & H). injection Hg as <- <-.
  cbn [home_cache] in H.
  destruct (cache_fresh (home_cache w !! _lang_tag l rg) (clock w (ticks w))
              (home_ttl_s app)) as [out0|] eqn:Ef.
  - injection H as <- <-. apply cache_fresh_some in Ef as (t0 & Ef).
    exists t0. split; [exact Ef|]. intros rnd' w'. apply Hhit.
  - apply bind_ok in H as (con & w2 & _ & H).
    apply bind_ok in H as (out1 & w3 & _ & H).
    apply bind_ok in H as (stored & w4 & _ & H).
    apply bind_ok in H as (u & w5 & Hm & H).
    injection H as <- <-. unfold modify in Hm. injection Hm as _ <-.
    exists stored. split.
    + unfold set_home_cache. cbn [home_cache]. apply lookup_insert_eq.
    + intros rnd' w'. apply Hhit.
Qed.


(** ** Pages and search results *)



Lemma emap_length {A B : Type} (f : A -> exn B) (xs : list A) (ys : list B) :
  emap f xs = Val ys -> length ys = length xs.
Proof.
  revert ys. induction xs as [|x xs IH]; simpl; intros ys E.
  - injection E as <-. reflexivity.
  - apply ebind_val in E as (y & _ & E).
    apply ebind_val in E as (ys' & Eys & E). injection E as <-.
    simpl. f_equal. exact (IH _ Eys).
Qed.



(** X13.  A search never changes anything and is short: [app_search]
    leaves the world as it is, a blank query is answered with no results
    without opening the store, and every answer holds the query with the
    white space around it removed and at most 12 results. *)
Theorem search_bounds (app : App) (query l : string) (rg : option string)
    (w : World) :
  world_of (app_search app query l rg w) = w /\
  (strip query = EmptyString ->
   app_search app query l rg w
   = Ok (JObj [("query", JStr EmptyString); ("results", JArr [])]) w) /\
  (forall out w', app_search app query l rg w = Ok out w' ->
     exists res, out = JObj [("query", JStr (strip query)); ("results", JArr res)] /\
                 (length res <= 12)%nat).
Proof.
  unfold app_search. cbv zeta.
  destruct (str_truthy (strip query)) eqn:Eq; cbn [negb].
  - split; [|split].
    + unfold bind, _con. destruct (store_ok w); [|reflexivity].
      destruct (negb (str_in "title_translations" (db_tables (store w))));
        [reflexivity|].
      unfold lift. destruct (emap _ _); reflexivity.
    + intros E. rewrite E in Eq. discriminate.
    + intros out w' H.
      apply bind_ok in H as (con & w1 & _ & H).
      destruct (negb (str_in "title_translations" (db_tables con)));
        [discriminate|].
      apply bind_ok in H as (res & w2 & Hr & H). apply lift_ok in Hr as [Hr _].
      injection H as <- _. exists res. split; [reflexivity|].
      rewrite (emap_length _ _ _ Hr).
      pose proof (limit_offset_length 12 0
                    (order_by before_pop
                       (map sr_row
                          (List.filter
                             (fun r => sql_like ("%" ++ strip query ++ "%")
                                         (ostr_or_empty (u_name (sr_row r)))
                                       || sql_like ("%" ++ strip query ++ "%")
                                            (ostr_or_empty (sr_over r)))
                             ((m ← movies con;
                               search_join con "movie" (m_id m) l
                                 (movie_urow false m) (m_overview m))
                              ++ (s ← series con;
                                  search_join con "tv" (s_id s) l
                                    (series_urow false s) (s_overview s)))%list)))
                    ltac:(lia)) as Hlen.
      unfold search_rows. cbv zeta. lia.
  - apply str_truthy_false in Eq. split; [reflexivity|]. split.
    + intros _. reflexivity.
    + intros out w' H. injection H as <- _. rewrite Eq.
      exists []. split; [reflexivity|]. simpl. lia.
Qed.

(** ** Strings: [strip], [lower] and [upper] together *)

Lemma is_space_lower (c : ascii) : is_space (lower_char c) = is_space c.
Proof. destruct c as [[] [] [] [] [] [] [] []]; reflexivity. Qed.

Lemma is_space_upper (c : ascii) : is_space (upper_char c) = is_space c.
Proof. destruct c as [[] [] [] [] [] [] [] []]; reflexivity. Qed.

Lemma is_space_replace (c : ascii) :
  is_space (if Ascii.eqb c "_" then "-"%char else c) = is_space c.
Proof. destruct c as [[] [] [] [] [] [] [] []]; reflexivity. Qed.

Lemma lstrip_map (f : ascii -> ascii) (s : string) :
  (forall c, is_space (f c) = is_space c) ->
  lstrip (str_map f s) = str_map f (lstrip s).
Proof.
  intros Hf. induction s as [|c r IH]; simpl; [reflexivity|].
  rewrite Hf. destruct (is_space c); [exact IH|reflexivity].
Qed.

Lemma rstrip_map (f : ascii -> ascii) (s : string) :
  (forall c, is_space (f c) = is_space c) ->
  rstrip (str_map f s) = str_map f (rstrip s).
Proof.
  intros Hf. induction s as [|c r IH]; simpl; [reflexivity|].
  rewrite IH, Hf. destruct (rstrip r); simpl; [|reflexivity].
  destruct (is_space c); reflexivity.
Qed.

Lemma strip_map (f : ascii -> ascii) (s : string) :
  (forall c, is_space (f c) = is_space c) ->
  strip (str_map f s) = str_map f (strip s).
Proof.
  intros Hf. unfold strip. rewrite (lstrip_map f s Hf). apply rstrip_map, Hf.
Qed.

Lemma lstrip_idem (s : string) : lstrip (lstrip s) = lstrip s.
Proof.
  induction s as [|c r IH]; simpl; [reflexivity|].
  destruct (is_space c) eqn:E; [exact IH|]. simpl. rewrite E. reflexivity.
Qed.

Lemma rstrip_idem (s : string) : rstrip (rstrip s) = rstrip s.
Proof.
  induction s as [|c r IH]; simpl; [reflexivity|].
  destruct (rstrip r) as [|c' r'] eqn:E.
  - destruct (is_space c) eqn:Ec; simpl; [reflexivity|]. rewrite Ec. reflexivity.
  - simpl in *. rewrite IH. reflexivity.
Qed.

(** The first character of a text that [lstrip] leaves alone is not
    white space. *)
Lemma lstrip_fixed (c : ascii) (r : string) :
  lstrip (String c r) = String c r <-> is_space c = false.
Proof.
  simpl. destruct (is_space c) eqn:E; split; try reflexivity; try discriminate.
  intros H. exfalso.
  assert (Hlen : forall s, (String.length (lstrip s) <= String.length s)%nat).
  { induction s as [|c0 r0 IH0]; simpl; [lia|].
    destruct (is_space c0); simpl; lia. }
  pose proof (Hlen r) as Hl. rewrite H in Hl. simpl in Hl. lia.
Qed.

Lemma rstrip_head (c : ascii) (r : string) :
  is_space c = false -> exists r', rstrip (String c r) = String c r'.
Proof.
  intros E. simpl. destruct (rstrip r); [rewrite E|]; eauto.
Qed.

Lemma lstrip_rstrip (s : string) : lstrip s = s -> lstrip (rstrip s) = rstrip s.
Proof.
  destruct s as [|c r]; [reflexivity|]. intros H.
  apply lstrip_fixed in H. destruct (rstrip_head c r H) as [r' ->].
  apply lstrip_fixed. exact H.
Qed.

Lemma strip_idem (s : string) : strip (strip s) = strip s.
Proof.
  unfold strip.
  rewrite (lstrip_rstrip (lstrip s) (lstrip_idem s)). apply rstrip_idem.
Qed.

Lemma rstrip_length (s : string) :
  (String.length (rstrip s) <= String.length s)%nat.
Proof.
  induction s as [|c r IH]; simpl; [lia|].
  destruct (rstrip r); [destruct (is_space c)|]; simpl in *; lia.
Qed.

Lemma lstrip_length (s : string) :
  (String.length (lstrip s) <= String.length s)%nat.
Proof.
  induction s as [|c r IH]; simpl; [lia|].
  destruct (is_space c); simpl; lia.
Qed.

(** A text that [strip] leaves alone is left alone by both halves. *)
Lemma strip_fixed (s : string) :
  strip s = s -> lstrip s = s /\ rstrip s = s.
Proof.
  intros H. assert (Hl : lstrip s = s).
  { destruct s as [|c r]; [reflexivity|]. apply lstrip_fixed.
    destruct (is_space c) eqn:E; [exfalso|reflexivity].
    unfold strip in H. simpl in H. rewrite E in H.
    pose proof (rstrip_length (lstrip r)) as H1.
    pose proof (lstrip_length r) as H2. rewrite H in H1. simpl in H1. lia. }
  split; [exact Hl|]. unfold strip in H. rewrite Hl in H. exact H.
Qed.

Lemma lstrip_app (a b : string) :
  a <> EmptyString -> lstrip a = a -> lstrip (a ++ b) = a ++ b.
Proof.
  destruct a as [|c r]; [contradiction|]. intros _ H.
  apply lstrip_fixed in H. simpl. rewrite H. reflexivity.
Qed.

Lemma rstrip_app (a b : string) :
  b <> EmptyString -> rstrip b = b -> rstrip (a ++ b) = a ++ b.
Proof.
  intros Hb H. induction a as [|c r IH]; [exact H|].
  change (String c r ++ b) with (String c (r ++ b)).
  cbn [rstrip]. rewrite IH. destruct (r ++ b) eqn:E; [|reflexivity].
  destruct r; simpl in E; [contradiction|discriminate].
Qed.

Lemma str_contains_lstrip (sep : ascii) (s : string) :
  str_contains sep s = false -> str_contains sep (lstrip s) = false.
Proof.
  induction s as [|c r IH]; simpl; [reflexivity|]. intros H.
  apply orb_false_iff in H as [H1 H2].
  destruct (is_space c); [apply IH, H2|]. simpl. rewrite H1, H2. reflexivity.
Qed.

Lemma str_contains_rstrip (sep : ascii) (s : string) :
  str_contains sep s = false -> str_contains sep (rstrip s) = false.
Proof.
  induction s as [|c r IH]; simpl; [reflexivity|]. intros H.
  apply orb_false_iff in H as [H1 H2]. specialize (IH H2).
  destruct (rstrip r); [destruct (is_space c)|]; simpl in *;
    rewrite ?H1, ?IH; reflexivity.
Qed.

Lemma str_contains_strip (sep : ascii) (s : string) :
  str_contains sep s = false -> str_contains sep (strip s) = false.
Proof. intros H. apply str_contains_rstrip, str_contains_lstrip, H. Qed.

Lemma str_contains_map (sep : ascii) (f : ascii -> ascii) (s : string) :
  (forall c, Ascii.eqb (f c) sep = Ascii.eqb c sep) ->
  str_contains sep (str_map f s) = str_contains sep s.
Proof.
  intros Hf. induction s as [|c r IH]; simpl; [reflexivity|].
  rewrite Hf, IH. reflexivity.
Qed.

Lemma lower_keeps_dash (c : ascii) : Ascii.eqb (lower_char c) "-" = Ascii.eqb c "-".
Proof. destruct c as [[] [] [] [] [] [] [] []]; reflexivity. Qed.

Lemma lower_keeps_underscore (c : ascii) :
  Ascii.eqb (lower_char c) "_" = Ascii.eqb c "_".
Proof. destruct c as [[] [] [] [] [] [] [] []]; reflexivity. Qed.

Lemma upper_keeps_underscore (c : ascii) :
  Ascii.eqb (upper_char c) "_" = Ascii.eqb c "_".
Proof. destruct c as [[] [] [] [] [] [] [] []]; reflexivity. Qed.

Lemma replace_no_underscore (s : string) :
  str_contains "_" (replace_char "_" "-" s) = false.
Proof.
  unfold replace_char.
  induction s as [|c r IH]; simpl; [reflexivity|]. rewrite IH, orb_false_r.
  destruct (Ascii.eqb c "_") eqn:E; [reflexivity|exact E].
Qed.

Lemma str_map_empty (f : ascii -> ascii) (s : string) :
  str_map f s = EmptyString -> s = EmptyString.
Proof. destruct s; [reflexivity|discriminate]. Qed.

(** A text has no separator, or a first one. *)
Lemma first_separator (s : string) :
  (str_contains "-" s = false /\ str_contains "_" s = false) \/
  exists a c b, s = a ++ String c b /\ (c = "-"%char \/ c = "_"%char) /\
    str_contains "-" a = false /\ str_contains "_" a = false.
Proof.
  induction s as [|c r IH]; [left; split; reflexivity|].
  destruct (Ascii.eqb c "-") eqn:E1.
  { right. exists EmptyString, c, r. apply Ascii.eqb_eq in E1. auto. }
  destruct (Ascii.eqb c "_") eqn:E2.
  { right. exists EmptyString, c, r. apply Ascii.eqb_eq in E2. auto. }
  destruct IH as [[H1 H2] | (a & c' & b & -> & Hc & H1 & H2)].
  - left. simpl. rewrite E1, E2, H1, H2. split; reflexivity.
  - right. exists (String c a), c', b. simpl. rewrite E1, E2, H1, H2. auto.
Qed.

Lemma split_lang_ok (s0 : string) : locale_ok (_split_lang s0).
Proof.
  destruct (strip s0) as [|c0 r0] eqn:Es.
  { unfold _split_lang. rewrite Es. vm_compute. repeat split; discriminate. }
  assert (Hne : strip s0 <> EmptyString) by (rewrite Es; discriminate).
  assert (Hss : strip (strip s0) = strip s0) by apply strip_idem.
  clear Es.
  destruct (first_separator (strip s0))
    as [[H1 H2] | (a & c & b & Hs & Hc & H1 & H2)].
  - rewrite (split_lang_plain s0 Hne H1 H2). unfold locale_ok. cbn [fst snd].
    split; [intros E; apply str_map_empty in E; contradiction|].
    split; [unfold lower; rewrite (strip_map _ _ is_space_lower), Hss; reflexivity|].
    split; [apply lower_idem|].
    split; [|split; [|exact I]].
    + unfold lower. rewrite (str_contains_map _ _ _ lower_keeps_dash). exact H1.
    + unfold lower. rewrite (str_contains_map _ _ _ lower_keeps_underscore).
      exact H2.
  - rewrite (split_lang_sep s0 a b c Hs Hc H1 H2). unfold locale_ok. cbn [fst snd].
    assert (Hlang : forall x, x = (if str_truthy (strip a) then lower (strip a) else "en") ->
              x <> EmptyString /\ strip x = x /\ lower x = x /\
              str_contains "-" x = false /\ str_contains "_" x = false).
    { intros x ->. destruct (str_truthy (strip a)) eqn:Ea;
        [|vm_compute; repeat split; discriminate].
      apply str_truthy_true in Ea.
      split; [intros E; apply str_map_empty in E; contradiction|].
      split; [unfold lower; rewrite (strip_map _ _ is_space_lower), strip_idem;
              reflexivity|].
      split; [apply lower_idem|]. unfold lower. split.
      - rewrite (str_contains_map _ _ _ lower_keeps_dash).
        apply str_contains_strip, H1.
      - rewrite (str_contains_map _ _ _ lower_keeps_underscore).
        apply str_contains_strip, H2. }
    destruct (Hlang _ eq_refl) as (L1 & L2 & L3 & L4 & L5).
    repeat (split; [assumption|]).
    unfold str_or_none.
    destruct (str_truthy (upper (strip (replace_char "_" "-" b)))) eqn:Er;
      [|exact I].
    apply str_truthy_true in Er. split; [exact Er|].
    split; [unfold upper; rewrite (strip_map _ _ is_space_upper), strip_idem;
            reflexivity|].
    split; [apply upper_idem|].
    unfold upper. rewrite (str_contains_map _ _ _ upper_keeps_underscore).
    apply str_contains_strip, replace_no_underscore.
Qed.

(** X14.  The locale of a request is always in normal form: whatever the
    [lang] parameter and the [Accept-Language] header hold, the language
    is not empty, has no white space around it, no upper-case letter, no
    [-] and no [_]; the region is absent or not empty, with no white
    space around it, no lower-case letter and no [_]. *)
Theorem pick_lang_normal_form (qs : gmap string (list string))
    (accept_language : option string) :
  locale_ok (_pick_lang qs accept_language).
Proof.
  unfold _pick_lang. cbv zeta.
  destruct (str_truthy (strip (qs_first qs "lang"))); [apply split_lang_ok|].
  unfold _accept_lang. destruct (negb (ostr_truthy accept_language));
    [vm_compute; repeat split; discriminate|apply split_lang_ok].
Qed.

(** X15.  The language tag round trip: the tag [_lang_tag] composes from
    a locale in normal form, which is the one sent to the Provider and
    used as a cache key, parses back to that locale with [_split_lang];
    so two requests share a tag exactly when they have the same locale. *)
Theorem lang_tag_round_trip (p : string * option string) :
  locale_ok p ->
  _split_lang (_lang_tag (fst p) (snd p)) = p /\
  forall q, locale_ok q ->
    _lang_tag (fst q) (snd q) = _lang_tag (fst p) (snd p) -> q = p.
Proof.
  assert (Hrt : forall p, locale_ok p -> _split_lang (_lang_tag (fst p) (snd p)) = p).
  { clear p. intros [lang region] (L1 & L2 & L3 & L4 & L5 & Hr). cbn [fst snd] in *.
    destruct region as [r|].
    - destruct Hr as (R1 & R2 & R3 & R4). unfold _lang_tag.
      apply str_truthy_true in R1. rewrite R1.
      destruct (strip_fixed lang L2) as [Ll _].
      destruct (strip_fixed r R2) as [_ Rr].
      apply str_truthy_true in R1.
      assert (Hs : strip (lang ++ "-" ++ r) = lang ++ String "-" r).
      { unfold strip. rewrite (lstrip_app lang _ L1 Ll).
        change (lang ++ "-" ++ r) with (lang ++ String "-" r).
        apply rstrip_app; [discriminate|].
        cbn [rstrip]. rewrite Rr. destruct r; [contradiction|reflexivity]. }
      rewrite (split_lang_sep (lang ++ "-" ++ r) lang r "-" Hs (or_introl eq_refl)
                 L4 L5).
      rewrite L2, L3, (replace_underscore_id r R4), R2, R3.
      apply str_truthy_true in L1. rewrite L1.
      unfold str_or_none. apply str_truthy_true in R1. rewrite R1. reflexivity.
    - unfold _lang_tag.
      assert (Hne : strip lang <> EmptyString) by (rewrite L2; exact L1).
      rewrite (split_lang_plain lang Hne); rewrite L2; try assumption.
      rewrite L3. reflexivity. }
  intros Hp. split; [apply Hrt, Hp|].
  intros q Hq E. rewrite <- (Hrt q Hq), <- (Hrt p Hp), E. reflexivity.
Qed.

(** ** The year of a date and the logo of a language *)

Lemma digit_not_space (c : ascii) (n : Z) : digit_of c = Some n -> is_space c = false.
Proof.
  destruct c as [[] [] [] [] [] [] [] []]; vm_compute; intros H;
    try reflexivity; discriminate.
Qed.

(** [int] of a text that starts with a digit reads it from its first
    character on. *)
Lemma py_int_of_digits (c : ascii) (r : string) (n : Z) :
  digit_of c = Some n -> strip (String c r) = String c r ->
  py_int_of_string (String c r) = parse_digits (String c r) 0 false.
Proof.
  intros Hd Hs. unfold py_int_of_string. rewrite Hs.
  destruct c as [[] [] [] [] [] [] [] []]; try reflexivity;
    vm_compute in Hd; discriminate.
Qed.

(** X16.  The year of a date: [_year] never raises on a text or on
    nothing, returns nothing or a number, nothing for a text shorter than
    four characters, and for a text that starts with four digits, such
    as an ISO date, the number these digits write. *)
Theorem year_of_date :
  (forall o : option string,
     exists v, _year (ojs o) = Val v /\ (v = JNull \/ exists n, v = JInt n)) /\
  (forall s : string, (String.length s < 4)%nat -> _year (JStr s) = Val JNull) /\
  (forall (d1 d2 d3 d4 : ascii) (n1 n2 n3 n4 : Z) (rest : string),
     digit_of d1 = Some n1 -> digit_of d2 = Some n2 ->
     digit_of d3 = Some n3 -> digit_of d4 = Some n4 ->
     _year (JStr (String d1 (String d2 (String d3 (String d4 rest)))))
     = Val (JInt (1000 * n1 + 100 * n2 + 10 * n3 + n4))).
Proof.
  split; [|split].
  - intros [s|]; simpl; [|eexists; split; [reflexivity|left; reflexivity]].
    unfold _year. destruct (negb (jtruthy (JStr s)));
      [eexists; split; [reflexivity|left; reflexivity]|].
    destruct (String.length s <? 4)%nat;
      [eexists; split; [reflexivity|left; reflexivity]|].
    destruct (py_int_of_string (substring 0 4 s)) as [n|];
      eexists; (split; [reflexivity|]); [right; eauto|left; reflexivity].
  - intros s Hs. unfold _year. destruct (negb (jtruthy (JStr s))); [reflexivity|].
    apply Nat.ltb_lt in Hs. rewrite Hs. reflexivity.
  - intros d1 d2 d3 d4 n1 n2 n3 n4 rest H1 H2 H3 H4.
    unfold _year. cbn [jtruthy str_truthy negb String.length Nat.ltb Nat.leb].
    cbn [substring].
    replace (substring 0 0 rest) with EmptyString by (destruct rest; reflexivity).
    assert (Hs : strip (String d1 (String d2 (String d3 (String d4 EmptyString))))
                 = String d1 (String d2 (String d3 (String d4 EmptyString)))).
    { unfold strip. cbn [lstrip]. rewrite (digit_not_space d1 n1 H1).
      cbn [rstrip]. rewrite (digit_not_space d4 n4 H4). reflexivity. }
    rewrite (py_int_of_digits d1 _ n1 H1 Hs).
    cbn [parse_digits]. rewrite H1, H2, H3, H4. cbn [ojz].
    do 2 f_equal. lia.
Qed.

Lemma first_truthy_spec (d : list (string * jval)) :
  (first_truthy d = JNull /\ forall k v, (k, v) ∈ d -> jtruthy v = false) \/
  (jtruthy (first_truthy d) = true /\ exists k, (k, first_truthy d) ∈ d).
Proof.
  induction d as [|[k v] rest IH]; simpl.
  - left. split; [reflexivity|]. intros k v H. inversion H.
  - destruct (jtruthy v) eqn:E.
    + right. split; [exact E|]. exists k. left.
    + destruct IH as [[H1 H2] | [H1 [k' H2]]].
      * left. split; [exact H1|]. intros k0 v0 H.
        apply elem_of_cons in H as [[= -> ->] | H]; [exact E|exact (H2 _ _ H)].
      * right. split; [exact H1|]. exists k'. right. exact H2.
Qed.

Lemma dget_elem (k : string) (d : list (string * jval)) :
  jtruthy (dget k d) = true -> (k, dget k d) ∈ d.
Proof.
  unfold dget. induction d as [|[k' v] rest IH]; simpl; [discriminate|].
  destruct (String.eqb k k') eqn:E.
  - apply String.eqb_eq in E. subst k'. intros _. left.
  - intros H. right. exact (IH H).
Qed.

Lemma dget_falsy (k : string) (d : list (string * jval)) :
  (forall k' v, (k', v) ∈ d -> jtruthy v = false) -> jtruthy (dget k d) = false.
Proof.
  intros H. destruct (jtruthy (dget k d)) eqn:E; [|reflexivity].
  rewrite <- E. exact (H _ _ (dget_elem k d E)).
Qed.

(** X17.  The logo of a language: when the stored text decodes to a
    dictionary, [_pick_logo] returns the logo of the language asked for
    when there is one, else the English one, else the one without
    language, else the first there is; what it returns is one of the
    stored logos, and it returns nothing exactly when no language has a
    logo.  When the text is missing or does not decode to a dictionary,
    it returns nothing. *)
Theorem pick_logo_priority (logos : jval) (lang : string) :
  (forall d, _json_loads_best_effort logos = JObj d ->
     let pick := _pick_logo logos lang in
     (jtruthy (dget lang d) = true -> pick = dget lang d) /\
     (jtruthy (dget lang d) = false -> jtruthy (dget "en" d) = true ->
      pick = dget "en" d) /\
     (jtruthy (dget lang d) = false -> jtruthy (dget "en" d) = false ->
      jtruthy (dget "und" d) = true -> pick = dget "und" d) /\
     (jtruthy pick = true -> exists k, (k, pick) ∈ d) /\
     (pick = JNull <-> forall k v, (k, v) ∈ d -> jtruthy v = false)) /\
  ((forall d, _json_loads_best_effort logos <> JObj d) ->
   _pick_logo logos lang = JNull).
Proof.
  assert (Hhas : forall k d, jtruthy (dget k d) = true -> dhas k d = true).
  { intros k d. unfold dget, dhas. destruct (assoc k d); [reflexivity|discriminate]. }
  split.
  - intros d Hd pick. subst pick. unfold _pick_logo. rewrite Hd.
    split; [intros H; rewrite (Hhas _ _ H), H; reflexivity|].
    split; [intros H0 H1; rewrite H0, andb_false_r, (Hhas _ _ H1), H1; reflexivity|].
    split; [intros H0 H1 H2;
            rewrite H0, H1, !andb_false_r, (Hhas _ _ H2), H2; reflexivity|].
    destruct (jtruthy (dget lang d)) eqn:E0.
    { rewrite (Hhas _ _ E0). cbn [andb]. split.
      - intros _. exists lang. apply dget_elem, E0.
      - split.
        + intros H. rewrite H in E0. discriminate.
        + intros H. rewrite (dget_falsy lang d H) in E0. discriminate. }
    rewrite andb_false_r.
    destruct (jtruthy (dget "en" d)) eqn:E1.
    { rewrite (Hhas _ _ E1). cbn [andb]. split.
      - intros _. exists "en". apply dget_elem, E1.
      - split.
        + intros H. rewrite H in E1. discriminate.
        + intros H. rewrite (dget_falsy "en" d H) in E1. discriminate. }
    rewrite andb_false_r.
    destruct (jtruthy (dget "und" d)) eqn:E2.
    { rewrite (Hhas _ _ E2). cbn [andb]. split.
      - intros _. exists "und". apply dget_elem, E2.
      - split.
        + intros H. rewrite H in E2. discriminate.
        + intros H. rewrite (dget_falsy "und" d H) in E2. discriminate. }
    rewrite andb_false_r.
    destruct (first_truthy_spec d) as [[H1 H2] | [H1 H2]].
    + split; [rewrite H1; discriminate|]. split; [intros _; exact H2|auto].
    + split; [intros _; exact H2|]. split.
      * intros H. rewrite H in H1. discriminate.
      * intros H. destruct H2 as [k Hk]. rewrite (H _ _ Hk) in H1. discriminate.
  - intros H. unfold _pick_logo.
    destruct (_json_loads_best_effort logos) as [| | | | | |d] eqn:E;
      try reflexivity.
    exfalso. exact (H d eq_refl).
Qed.

(** ** A task commits all of its statements or none *)

#[local] Instance same_committed_preorder : PreOrder same_committed.
Proof.
  split.
  - intros w. reflexivity.
  - intros w1 w2 w3 H1 H2. unfold same_committed in *. congruence.
Qed.

Lemma same_committed_open (app : App) (url : string) (t : Z) :
  respects same_committed (_tmdb_open app url t).
Proof.
  apply respects_tmdb_open; [exact _|]. intros b w. unfold opener_open.
  destruct (provider w (length (requests w)) url) as [|st h body];
    [|destruct ((200 <=? st) && (st <? 300))]; reflexivity.
Qed.

Lemma commits_last_ret {A : Type} (a : A) : commits_last (ret a).
Proof. intros w. exists []. cbn. now rewrite app_nil_r. Qed.

Lemma commits_last_bind {A B : Type} (m : M A) (k : A -> M B) :
  respects same_committed m -> (forall a, commits_last (k a)) ->
  commits_last (bind m k).
Proof.
  intros Hm Hk w. unfold bind. specialize (Hm w). unfold same_committed in Hm.
  destruct (m w) as [a w1|w1]; cbn [world_of] in Hm; [|exact Hm].
  specialize (Hk a w1). rewrite Hm in Hk. exact Hk.
Qed.

Lemma commits_last_run_body (app : App) (tk : task) (c : conn) :
  commits_last (run_body app tk c).
Proof.
  assert (Ho := same_committed_open app).
  unfold run_body.
  destruct (_missing_parts _ _ _ _ _ _ _) as [miss|]; [|apply commits_last_ret].
  apply commits_last_bind.
  - unfold run_base.
    repeat first
      [ exact Ho | apply frame_get_json | apply frame_upsert_seasons
      | respects_step ].
  - intros [c1|]; [|apply commits_last_ret]. unfold run_parts.
    repeat
      (apply commits_last_bind;
       [ repeat first
           [ exact Ho | apply frame_upsert_logos | apply frame_upsert_videos
           | apply frame_upsert_cast | apply frame_upsert_translations
           | respects_step ]
       | intros ? ]).
    intros w. exists (con_pending a2). reflexivity.
Qed.

(** X18.  A backfill task commits all of its statements or none: when
    the task raises, at whatever step, nothing has been committed, and
    when it returns, what it has committed is one batch, appended to what
    was committed before. *)
Theorem task_commits_all_or_nothing (app : App) (tk : task) (w : World) :
  match run app tk w with
  | Exc w' => committed w' = committed w
  | Ok _ w' => exists stmts, committed w' = (committed w ++ stmts)%list
  end.
Proof.
  unfold run, bind, modify, _con, finally.
  cbn [store_ok store set_tmdb_tls_bg].
  destruct (store_ok w); [|reflexivity].
  pose proof (commits_last_run_body app tk {| con_db := store w; con_pending := [] |}
                (set_tmdb_tls_bg true w)) as H.
  destruct (run_body app tk _ (set_tmdb_tls_bg true w)) as [[] w1|w1];
    unfold run_finally; cbn [committed set_backfill_inflight set_tmdb_tls_bg] in *;
    exact H.
Qed.

(** ** The logos kept by language *)

Lemma dhas_keys (k : string) (d : list (string * jval)) :
  dhas k d = true <-> In k (keys d).
Proof.
  unfold dhas, keys. induction d as [|[k' v] rest IH]; simpl.
  - split; [discriminate|intros []].
  - destruct (String.eqb k k') eqn:E.
    + apply String.eqb_eq in E. subst k'. split; [intros _; now left|reflexivity].
    + apply String.eqb_neq in E. rewrite IH. split; [intros H; now right|].
      intros [H|H]; [congruence|exact H].
Qed.

Lemma keys_snoc_nodup (k : string) (v : jval) (d : list (string * jval)) :
  List.NoDup (keys d) -> ~ In k (keys d) -> List.NoDup (keys (d ++ [(k, v)])).
Proof.
  unfold keys. induction d as [|[k' v'] rest IH]; simpl; intros Hn Hi.
  - constructor; [intros []|constructor].
  - inversion Hn as [|? ? H1 H2]; subst. constructor.
    + rewrite map_app, in_app_iff. simpl. intros [H|[H|[]]]; [exact (H1 H)|].
      apply Hi. now left.
    + apply IH; [exact H2|]. intros H. apply Hi. now right.
Qed.

Lemma harvest_loop (logos : list jval) :
  forall acc out,
    for_each logos harvest_step acc = Val out ->
    List.NoDup (keys acc) ->
    exists ext, out = (acc ++ ext)%list /\ List.NoDup (keys out) /\
      (forall loc fp, In (loc, fp) ext ->
         dhas loc acc = false /\
         exists pre it post, logos = (pre ++ it :: post)%list /\
           logo_of it loc fp /\
           forall it' fp', In it' pre -> ~ logo_of it' loc fp') /\
      (forall it loc fp, In it logos -> logo_of it loc fp -> In loc (keys out)).
Proof.
  induction logos as [|it rest IH]; intros acc out H Hn.
  - simpl in H. injection H as <-. exists []. rewrite app_nil_r.
    split; [reflexivity|]. split; [exact Hn|]. split; intros; contradiction.
  - cbn [for_each] in H.
    (* the entries that add nothing *)
    assert (Hskip : for_each rest harvest_step acc = Val out ->
                    (forall loc fp, logo_of it loc fp -> dhas loc acc = true) ->
                    exists ext, out = (acc ++ ext)%list /\ List.NoDup (keys out) /\
                      (forall loc fp, In (loc, fp) ext ->
                         dhas loc acc = false /\
                         exists pre it0 post, it :: rest = (pre ++ it0 :: post)%list /\
                           logo_of it0 loc fp /\
                           forall it' fp', In it' pre -> ~ logo_of it' loc fp') /\
                      (forall it0 loc fp, In it0 (it :: rest) -> logo_of it0 loc fp ->
                         In loc (keys out))).
    { intros H' Hno. destruct (IH acc out H' Hn) as (ext & -> & Hd & Hf & Hc).
      exists ext. split; [reflexivity|]. split; [exact Hd|]. split.
      - intros loc fp Hi. destruct (Hf loc fp Hi) as (Ha & pre & it0 & post & -> & Hl & Hp).
        split; [exact Ha|]. exists (it :: pre), it0, post.
        split; [reflexivity|]. split; [exact Hl|].
        intros it' fp' [<-|Hi'] Hl'; [|exact (Hp it' fp' Hi' Hl')].
        rewrite (Hno _ _ Hl') in Ha. discriminate.
      - intros it0 loc fp [<-|Hi] Hl; [|exact (Hc it0 loc fp Hi Hl)].
        pose proof (Hno _ _ Hl) as Hk. apply dhas_keys in Hk. unfold keys in *.
        rewrite map_app, in_app_iff. now left. }
    destruct it as [| | | | | |kv];
      try (apply Hskip; [exact H|];
           intros loc fp (kv' & Hk & _); discriminate).
    cbn [harvest_step] in H.
    destruct (jtruthy (dget "file_path" kv)) eqn:Efp; cbn [negb] in H.
    2:{ apply Hskip; [exact H|]. intros loc fp (kv' & [= <-] & <- & Ht & _).
        congruence. }
    destruct (logo_lang kv) as [loc0|] eqn:El; [|discriminate].
    cbn [ebind snd fst] in H.
    destruct (dhas loc0 acc) eqn:Eh.
    { apply Hskip; [exact H|]. intros loc fp (kv' & [= <-] & _ & _ & Hl).
      congruence. }
    assert (Hn' : List.NoDup (keys (acc ++ [(loc0, dget "file_path" kv)]))).
    { apply keys_snoc_nodup; [exact Hn|]. intros Hi. apply dhas_keys in Hi.
      congruence. }
    destruct (IH _ out H Hn') as (ext & -> & Hd & Hf & Hc).
    exists ((loc0, dget "file_path" kv) :: ext). rewrite <- app_assoc in *.
    split; [reflexivity|]. split; [exact Hd|]. split.
    + intros loc fp [[= <- <-]|Hi].
      * split; [exact Eh|]. exists [], (JObj kv), rest.
        split; [reflexivity|]. split; [|intros ? ? []].
        exists kv. repeat split; [exact Efp|exact El].
      * destruct (Hf loc fp Hi) as (Ha & pre & it0 & post & -> & Hl & Hp).
        assert (Hne : loc <> loc0 /\ dhas loc acc = false).
        { destruct (dhas loc (acc ++ [(loc0, dget "file_path" kv)])) eqn:E;
            [discriminate|].
          split.
          - intros ->. assert (Hin : In loc0 (keys (acc ++ [(loc0, dget "file_path" kv)]))).
            { unfold keys. rewrite map_app, in_app_iff. right. now left. }
            apply dhas_keys in Hin. congruence.
          - destruct (dhas loc acc) eqn:E'; [|reflexivity].
            apply dhas_keys in E'.
            assert (Hin : In loc (keys (acc ++ [(loc0, dget "file_path" kv)]))).
            { unfold keys in *. rewrite map_app, in_app_iff. now left. }
            apply dhas_keys in Hin. congruence. }
        destruct Hne as [Hne Ha'].
        split; [exact Ha'|]. exists (JObj kv :: pre), it0, post.
        split; [reflexivity|]. split; [exact Hl|].
        intros it' fp' [<-|Hi'] Hl'; [|exact (Hp it' fp' Hi' Hl')].
        destruct Hl' as (kv' & [= <-] & _ & _ & Hl'). congruence.
    + intros it0 loc fp [<-|Hi] Hl; [|exact (Hc it0 loc fp Hi Hl)].
      destruct Hl as (kv' & [= <-] & _ & _ & Hl).
      assert (loc = loc0) by congruence. subst loc.
      unfold keys. rewrite !map_app, !in_app_iff. right. left. now left.
Qed.

(** X19.  [harvest] keeps one file path per language, the first: when it
    returns a dictionary, the dictionary is not empty, no language occurs
    twice in it, each of its entries is the path of the first logo of that
    language in the list of the Provider, and every logo of the list that
    has a file path finds its language in the dictionary. *)
Theorem harvest_first_per_language (idata d : list (string * jval)) :
  harvest idata = Val (Some d) ->
  exists logos, jor (dget "logos" idata) (JArr []) = JArr logos /\
    d <> [] /\ List.NoDup (keys d) /\
    (forall loc fp, In (loc, fp) d ->
       exists pre it post, logos = (pre ++ it :: post)%list /\
         logo_of it loc fp /\
         forall it' fp', In it' pre -> ~ logo_of it' loc fp') /\
    (forall it loc fp, In it logos -> logo_of it loc fp -> In loc (keys d)).
Proof.
  unfold harvest. intros H.
  destruct (jor (dget "logos" idata) (JArr [])) as [| | | | |logos|]; try discriminate.
  exists logos. split; [reflexivity|].
  change (ebind (for_each logos harvest_step [])
            (fun by_lang => Val (match by_lang with [] => None | _ => Some by_lang end))
          = Val (Some d)) in H.
  destruct (for_each logos harvest_step []) as [out|] eqn:E; [|discriminate].
  cbn [ebind] in H.
  assert (out = d /\ d <> []) as [-> Hd].
  { destruct out; [discriminate|]. injection H as <-. split; [reflexivity|discriminate]. }
  destruct (harvest_loop logos [] d E (List.NoDup_nil _)) as (ext & He & Hn & Hf & Hc).
  simpl in He. subst ext.
  split; [exact Hd|]. split; [exact Hn|]. split; [|exact Hc].
  intros loc fp Hi. exact (proj2 (Hf loc fp Hi)).
Qed.

(** ** What the enrichment of a card keeps *)

Lemma dhas_assoc_set (k k' : string) (v : jval) (kv : list (string * jval)) :
  dhas k' (assoc_set k v kv) = String.eqb k' k || dhas k' kv.
Proof.
  unfold dhas. induction kv as [|[k0 v0] kv IH]; simpl.
  - destruct (String.eqb k' k); reflexivity.
  - destruct (String.eqb k k0) eqn:E; simpl.
    + apply String.eqb_eq in E. subst k0.
      destruct (String.eqb k' k); reflexivity.
    + destruct (String.eqb k' k0) eqn:E'; simpl; [|exact IH].
      now rewrite orb_true_r.
Qed.

Lemma enriched_refl (card : list (string * jval)) : enriched card card.
Proof. repeat split; auto. Qed.

Lemma enriched_trans (c1 c2 c3 : list (string * jval)) :
  enriched c1 c2 -> enriched c2 c3 -> enriched c1 c3.
Proof.
  intros (A1 & B1 & C1 & D1 & E1) (A2 & B2 & C2 & D2 & E2).
  split; [|split; [|split; [|split]]].
  - intros k Hk. rewrite (A2 k Hk). exact (A1 k Hk).
  - intros k Hk. exact (B2 k (B1 k Hk)).
  - intros H. exact (C2 (C1 H)).
  - intros H. pose proof (D1 H) as H1. rewrite <- H1 in H.
    rewrite (D2 H). exact H1.
  - intros H. pose proof (E1 H) as H1. rewrite <- H1 in H.
    rewrite (E2 H). exact H1.
Qed.

Lemma enriched_set (k : string) (v : jval) (card : list (string * jval)) :
  In k ["name"; "description"; "logo"; "backdrop"] ->
  (k = "name" -> jtruthy v = true) ->
  (k = "description" -> ~ nonblank (dget "description" card)) ->
  (k = "backdrop" -> jtruthy (dget "backdrop" card) = false) ->
  enriched card (assoc_set k v card).
Proof.
  intros Hk Hn Hd Hb. split; [|split; [|split; [|split]]].
  - intros k0 Hk0. rewrite dget_assoc_set.
    destruct (String.eqb k0 k) eqn:E; [|reflexivity].
    apply String.eqb_eq in E. subst k0. contradiction.
  - intros k0 H. rewrite dhas_assoc_set, H. apply orb_true_r.
  - intros H. rewrite dget_assoc_set.
    destruct (String.eqb "name" k) eqn:E; [|exact H].
    apply String.eqb_eq in E. apply Hn. now symmetry.
  - intros H. rewrite dget_assoc_set.
    destruct (String.eqb "description" k) eqn:E; [|reflexivity].
    apply String.eqb_eq in E. destruct (Hd (eq_sym E) H).
  - intros H. rewrite dget_assoc_set.
    destruct (String.eqb "backdrop" k) eqn:E; [|reflexivity].
    apply String.eqb_eq in E. rewrite (Hb (eq_sym E)) in H. discriminate.
Qed.

Lemma enrich_from_row_enriched (app : App) (con : DB) (movie : bool) (tid : Z)
    (r card : list (string * jval)) (l : string) (rg : option string)
    (card' : list (string * jval)) :
  enrich_from_row app con movie tid r card l rg = Val card' ->
  enriched card card'.
Proof.
  unfold enrich_from_row. intros H. cbv zeta in H.
  apply ebind_val in H as (nm & _ & H).
  set (card1 := if str_truthy nm then assoc_set "name" (JStr nm) card else card) in H.
  assert (H1 : enriched card card1).
  { subst card1. destruct (str_truthy nm) eqn:E; [|apply enriched_refl].
    apply enriched_set; [now left|intros _; exact E|discriminate|discriminate]. }
  clearbody card1.
  apply ebind_val in H as (d & Hd & H).
  apply ebind_val in H as (card2 & H2 & H).
  assert (H2' : enriched card1 card2).
  { destruct (str_truthy d) eqn:E; cbn [negb] in H2.
    - injection H2 as <-. apply enriched_refl.
    - apply ebind_val in H2 as (s & _ & H2). injection H2 as <-.
      apply enriched_set; [right; now left|discriminate| |discriminate].
      intros _ (d' & Hd' & Ht). rewrite Hd in Hd'. injection Hd' as <-.
      congruence. }
  injection H as <-.
  apply (enriched_trans _ _ _ H1). apply (enriched_trans _ _ _ H2').
  set (card3 := assoc_set "logo" _ card2).
  assert (H3 : enriched card2 card3).
  { apply enriched_set; [right; right; now left|discriminate..]. }
  destruct (jtruthy (dget "backdrop" card3)) eqn:E; cbn [negb]; [exact H3|].
  apply (enriched_trans _ _ _ H3).
  apply enriched_set; [right; right; right; now left|discriminate|discriminate|].
  intros _. exact E.
Qed.

(** X20.  What the enrichment of a card keeps.  A card whose id is not
    positive or whose kind is neither movie nor series comes back as it
    is.  Any other card comes back with its id, kind, year, rating, poster
    and every other key but the name, the description, the logo and the
    backdrop as they were; no key is lost; a name is not replaced by an
    empty one; a description that is not blank and a backdrop that is set
    are not overwritten; and the card has a logo key and a backdrop key,
    the logo being the poster when no logo is found. *)
Theorem enrich_card_keeps (app : App) (con : DB) (card : list (string * jval))
    (l : string) (rg : option string) (w : World)
    (card' : list (string * jval)) (w' : World) :
  _enrich_card app con card l rg w = Ok card' w' ->
  enriched card card' /\
  exists tid, py_int (jor (dget "id" card) (JInt 0)) = Val tid /\
    if (tid <=? 0) || negb (jstr_eqb (dget "kind" card) "movie"
                            || jstr_eqb (dget "kind" card) "series")
    then card' = card
    else dhas "logo" card' = true /\ dhas "backdrop" card' = true /\
         (jtruthy (dget "logo" card') = true \/
          dget "logo" card' = dget "poster" card).
Proof.
  unfold _enrich_card. intros H.
  apply bind_ok in H as (tid & w1 & Hl & H).
  apply lift_ok in Hl as [Hid ->]. cbv zeta in H.
  destruct ((tid <=? 0) || _) eqn:Ec.
  - injection H as <- _. split; [apply enriched_refl|].
    exists tid. split; [exact Hid|]. rewrite Ec. reflexivity.
  - apply bind_ok in H as (u & w2 & _ & H).
    apply bind_ok in H as (card1 & w3 & H1 & H).
    assert (E1 : enriched card card1).
    { destruct (enrich_row con _ tid) as [r|].
      - apply lift_ok in H1 as [H1 _].
        exact (enrich_from_row_enriched _ _ _ _ _ _ _ _ _ H1).
      - injection H1 as <- _. apply enriched_refl. }
    clear H1. injection H as <- _.
    set (card2 := if negb (jtruthy (dget "logo" card1))
                  then assoc_set "logo" (dget "poster" card1) card1 else card1).
    assert (E2 : enriched card1 card2 /\ dhas "logo" card2 = true /\
                 (jtruthy (dget "logo" card2) = true \/
                  dget "logo" card2 = dget "poster" card)).
    { subst card2. destruct (jtruthy (dget "logo" card1)) eqn:E; cbn [negb].
      - split; [apply enriched_refl|]. split; [|left; exact E].
        unfold dhas. unfold dget in E. destruct (assoc "logo" card1);
          [reflexivity|discriminate].
      - split; [apply enriched_set;
                [right; right; now left|discriminate..]|].
        split; [rewrite dhas_assoc_set; reflexivity|]. right.
        rewrite dget_assoc_set. cbn [String.eqb Ascii.eqb Bool.eqb andb].
        apply (proj1 E1). intros [H|[H|[H|[H|[]]]]]; discriminate. }
    destruct E2 as (E2 & Hlogo & Hfall).
    split.
    + apply (enriched_trans _ _ _ E1). apply (enriched_trans _ _ _ E2).
      destruct (dhas "backdrop" card2) eqn:E; cbn [negb]; [apply enriched_refl|].
      apply enriched_set; [right; right; right; now left|discriminate|discriminate|].
      intros _. unfold dhas in E. unfold dget.
      destruct (assoc "backdrop" card2); [discriminate|reflexivity].
    + exists tid. split; [exact Hid|]. rewrite Ec.
      destruct (dhas "backdrop" card2) eqn:E; cbn [negb].
      * split; [exact Hlogo|]. split; [exact E|exact Hfall].
      * rewrite !dhas_assoc_set, !dget_assoc_set, Hlogo.
        split; [apply orb_true_r|]. split; [reflexivity|exact Hfall].
Qed.

(** ** The statements of the upserts *)

Lemma execute_val (s : sql_write) (c c' : conn) :
  execute s c = Val c' ->
  con_db c' = con_db c /\ con_pending c' = (con_pending c ++ [s])%list.
Proof.
  unfold execute. destruct (sql_accepts _ _ _); [|discriminate].
  intros [= <-]. split; reflexivity.
Qed.

(** A loop that leaves after the first statement it executes. *)
Lemma for_each_break_once (body : jval -> conn -> exn (conn * bool))
    (P : sql_write -> Prop) :
  (forall it c r, body it c = Val r ->
     fst r = c \/ (snd r = false /\ exists s, P s /\ execute s c = Val (fst r))) ->
  forall items c c', for_each items body c = Val c' ->
    c' = c \/ exists s, P s /\ execute s c = Val c'.
Proof.
  intros Hb. induction items as [|it rest IH]; intros c c' H.
  - injection H as <-. now left.
  - cbn [for_each] in H. apply ebind_val in H as (r & Hr & H).
    destruct (Hb it c r Hr) as [E|[E (s & Hs & He)]].
    + destruct (snd r).
      * rewrite E in H. exact (IH c c' H).
      * injection H as <-. left. exact E.
    + rewrite E in H. injection H as <-. right. eauto.
Qed.

(** A loop that executes at most one statement for each item. *)
Lemma for_each_adds (body : jval -> conn -> exn (conn * bool))
    (P : sql_write -> Prop) :
  (forall it c r, body it c = Val r ->
     fst r = c \/ exists s, P s /\ execute s c = Val (fst r)) ->
  forall items c c', for_each items body c = Val c' ->
    exists ext, Forall P ext /\ (length ext <= length items)%nat /\
      con_db c' = con_db c /\ con_pending c' = (con_pending c ++ ext)%list.
Proof.
  intros Hb. induction items as [|it rest IH]; intros c c' H.
  - injection H as <-. exists []. rewrite app_nil_r. repeat split; constructor.
  - cbn [for_each] in H. apply ebind_val in H as (r & Hr & H).
    assert (Hrest : exists ext, Forall P ext /\ (length ext <= length rest)%nat /\
                      con_db c' = con_db (fst r) /\
                      con_pending c' = (con_pending (fst r) ++ ext)%list).
    { destruct (snd r); [exact (IH _ _ H)|]. injection H as <-.
      exists []. rewrite app_nil_r. repeat split; [constructor|cbn; lia]. }
    destruct Hrest as (ext & Hf & Hl & Hd & Hp).
    destruct (Hb it c r Hr) as [E|(s & Hs & He)].
    + rewrite E in Hd, Hp. exists ext. repeat split; [exact Hf|cbn; lia|exact Hd|exact Hp].
    + apply execute_val in He as [Ed Ep]. exists (s :: ext).
      split; [constructor; [exact Hs|exact Hf]|].
      split; [cbn; lia|]. split; [congruence|].
      rewrite Hp, Ep, <- app_assoc. reflexivity.
Qed.

(** X21.  [_upsert_tmdb_videos] stores at most one video for a title:
    when it returns, it has executed no statement, or one statement which
    writes a video of that title whose key is set, and it has left the
    loop there. *)
Theorem videos_at_most_one (app : App) (c : conn) (mt : string) (tid : Z)
    (lt : string) (w : World) (c' : conn) (w' : World) :
  _upsert_tmdb_videos app c mt tid lt w = Ok c' w' ->
  con_db c' = con_db c /\
  (con_pending c' = con_pending c \/
   exists vals, con_pending c' = (con_pending c ++ [W_video mt tid vals])%list /\
     length vals = 10%nat /\ jtruthy (nth 1 vals JNull) = true).
Proof.
  unfold _upsert_tmdb_videos. intros H.
  destruct (negb (has_videos app)); [injection H as <- _; split; [|left]; reflexivity|].
  apply bind_ok in H as (r & w1 & _ & H).
  destruct (fetch_failed r); [injection H as <- _; split; [|left]; reflexivity|].
  apply lift_ok in H as [H _].
  apply ebind_val in H as (items & _ & H).
  apply (for_each_break_once _
           (fun s => exists vals, s = W_video mt tid vals /\ length vals = 10%nat /\
                                  jtruthy (nth 1 vals JNull) = true)) in H.
  - destruct H as [->|(s & (vals & -> & Hl & Hk) & He)];
      [split; [|left]; reflexivity|].
    apply execute_val in He as [Ed Ep]. split; [exact Ed|]. right. eauto.
  - intros it c0 r0 Hr. destruct it as [| | | | | |kv];
      try (injection Hr as <-; now left).
    cbv zeta in Hr.
    destruct (jtruthy (jor (dget "key" kv) JNull)) eqn:Ek; cbn [negb] in Hr;
      [|injection Hr as <-; now left].
    apply ebind_val in Hr as (c1 & He & Hr). injection Hr as <-.
    right. split; [reflexivity|]. eexists. split; [|exact He].
    eexists. split; [reflexivity|]. split; [reflexivity|exact Ek].
Qed.

Lemma slice24_length (v : jval) (items : list jval) :
  slice24 v = Val items -> (length items <= 24)%nat.
Proof.
  destruct v; try discriminate; intros [= <-]; rewrite length_take; lia.
Qed.

(** X22.  [_upsert_tmdb_cast] replaces the cast of a title: when it
    returns, it has executed no statement, or it has first deleted the
    cast rows of the title and then inserted at most 24 members, each
    with a person id and a credit id that are not null. *)
Theorem cast_replaced (app : App) (c : conn) (mt : string) (tid : Z)
    (w : World) (c' : conn) (w' : World) :
  _upsert_tmdb_cast app c mt tid w = Ok c' w' ->
  con_db c' = con_db c /\
  (con_pending c' = con_pending c \/
   exists ins,
     con_pending c' = (con_pending c ++ W_cast_delete mt tid :: ins)%list /\
     (length ins <= 24)%nat /\
     Forall (fun s => exists vals, s = W_cast_insert mt tid vals /\
                        length vals = 7%nat /\
                        is_null (nth 0 vals JNull) = false /\
                        is_null (nth 1 vals JNull) = false) ins).
Proof.
  unfold _upsert_tmdb_cast. intros H.
  destruct (negb (has_cast app)); [injection H as <- _; split; [|left]; reflexivity|].
  apply bind_ok in H as (r & w1 & _ & H).
  destruct (fetch_failed r); [injection H as <- _; split; [|left]; reflexivity|].
  apply lift_ok in H as [H _].
  apply ebind_val in H as (c1 & He & H).
  apply ebind_val in H as (items & Hs & H).
  apply slice24_length in Hs. apply execute_val in He as [Ed Ep].
  apply (for_each_adds _
           (fun s => exists vals, s = W_cast_insert mt tid vals /\
                       length vals = 7%nat /\
                       is_null (nth 0 vals JNull) = false /\
                       is_null (nth 1 vals JNull) = false)) in H.
  - destruct H as (ext & Hf & Hl & Hd & Hp).
    split; [congruence|]. right. exists ext.
    split; [rewrite Hp, Ep, <- app_assoc; reflexivity|].
    split; [lia|exact Hf].
  - intros it c0 r0 Hr. destruct it as [| | | | | |kv];
      try (injection Hr as <-; now left).
    cbv zeta in Hr.
    destruct (is_null (dget "id" kv)) eqn:E1; cbn [orb] in Hr;
      [injection Hr as <-; now left|].
    destruct (is_null (dget "credit_id" kv)) eqn:E2;
      [injection Hr as <-; now left|].
    apply ebind_val in Hr as (c2 & He' & Hr). injection Hr as <-.
    right. eexists. split; [|exact He'].
    eexists. split; [reflexivity|]. split; [reflexivity|]. split; [exact E1|exact E2].
Qed.

(** X23.  [_upsert_tmdb_translations] writes only translations with a
    language and a region: each statement it executes is a translation of
    the title whose language code is in lower case and whose region code
    is in upper case, neither of them empty. *)
Theorem translations_normalised (app : App) (c : conn) (mt : string) (tid : Z)
    (w : World) (c' : conn) (w' : World) :
  _upsert_tmdb_translations app c mt tid w = Ok c' w' ->
  con_db c' = con_db c /\
  exists ext, con_pending c' = (con_pending c ++ ext)%list /\
    Forall (fun s => exists l0 r0 rest,
              s = W_translation mt tid (JStr (lower l0) :: JStr (upper r0) :: rest) /\
              str_truthy (lower l0) = true /\ str_truthy (upper r0) = true /\
              length rest = 4%nat) ext.
Proof.
  unfold _upsert_tmdb_translations. intros H.
  assert (Hnil : con_db c = con_db c /\
                 exists ext, con_pending c = (con_pending c ++ ext)%list /\
                   Forall (fun s => exists l0 r0 rest,
                             s = W_translation mt tid
                                   (JStr (lower l0) :: JStr (upper r0) :: rest) /\
                             str_truthy (lower l0) = true /\
                             str_truthy (upper r0) = true /\
                             length rest = 4%nat) ext).
  { split; [reflexivity|]. exists []. rewrite app_nil_r. split; [reflexivity|constructor]. }
  destruct (negb (has_translations app)); [injection H as <- _; exact Hnil|].
  apply bind_ok in H as (r & w1 & _ & H).
  destruct (fetch_failed r); [injection H as <- _; exact Hnil|].
  clear Hnil. apply lift_ok in H as [H _].
  apply ebind_val in H as (items & _ & H).
  apply (for_each_adds _
           (fun s => exists l0 r0 rest,
              s = W_translation mt tid (JStr (lower l0) :: JStr (upper r0) :: rest) /\
              str_truthy (lower l0) = true /\ str_truthy (upper r0) = true /\
              length rest = 4%nat)) in H.
  - destruct H as (ext & Hf & _ & Hd & Hp). split; [exact Hd|]. eauto.
  - intros it c0 r0 Hr. destruct it as [| | | | | |kv];
      try (injection Hr as <-; now left).
    apply ebind_val in Hr as (l0 & _ & Hr).
    apply ebind_val in Hr as (rg0 & _ & Hr). cbv zeta in Hr.
    destruct (str_truthy (lower l0)) eqn:El; cbn [negb orb] in Hr;
      [|injection Hr as <-; now left].
    destruct (str_truthy (upper rg0)) eqn:Er; cbn [negb] in Hr;
      [|injection Hr as <-; now left].
    destruct (jor (dget "data" kv) (JObj [])) as [| | | | | |td];
      try (injection Hr as <-; now left).
    apply ebind_val in Hr as (c2 & He & Hr). injection Hr as <-.
    right. eexists. split; [|exact He].
    exists l0, rg0. eexists. split; [reflexivity|].
    split; [exact El|]. split; [exact Er|reflexivity].
Qed.

(** ** The list of similar titles *)

#[local] Instance same_similar_preorder : PreOrder same_similar.
Proof.
  split.
  - intros w. reflexivity.
  - intros w1 w2 w3 H1 H2. unfold same_similar in *. congruence.
Qed.

Lemma same_similar_open (app : App) (url : string) (t : Z) :
  respects same_similar (_tmdb_open app url t).
Proof.
  apply respects_tmdb_open; [exact _|]. intros b w. unfold opener_open.
  destruct (provider w (length (requests w)) url) as [|st h body];
    [|destruct ((200 <=? st) && (st <? 300))]; reflexivity.
Qed.

Lemma same_similar_schedule (app : App) (mt : string) (tid : Z) (l : string)
    (r : option string) (f : bool) :
  respects same_similar (_schedule_backfill app mt tid l r f).
Proof.
  unfold _schedule_backfill.
  repeat first
    [ match goal with
      | |- respects _ time_time => intros ?; reflexivity
      | |- respects _ (modify _) => intros ?; reflexivity
      end
    | respects_step ].
Qed.

Lemma same_similar_enrich_all (app : App) (con : DB) (cards : list jval)
    (l : string) (r : option string) :
  respects same_similar (enrich_all app con cards l r).
Proof.
  unfold enrich_all. apply respects_mapM; [exact _|]. intros c.
  repeat first
    [ apply frame_enrich_card; [exact _|apply same_similar_schedule]
    | respects_step ].
Qed.

Lemma post_catch {A : Type} (m h : M A) (Q : A -> Prop) :
  post m Q -> post h Q -> post (catch m h) Q.
Proof.
  intros Hm Hh w a w' E. unfold catch in E.
  destruct (m w) as [a1 w1|w1] eqn:Em.
  - injection E as <- _. exact (Hm _ _ _ Em).
  - exact (Hh _ _ _ E).
Qed.

Lemma similar_card_shape (mt : string) (it c : jval) :
  similar_card mt it = Val (Some c) -> similar_card_ok c.
Proof.
  unfold similar_card. destruct it as [| | | | | |kv]; try discriminate.
  intros H. apply ebind_val in H as (i & _ & H).
  destruct (i <=? 0) eqn:Ei; [discriminate|]. apply Z.leb_gt in Ei.
  apply ebind_val in H as (name & _ & H).
  apply ebind_val in H as (year & _ & H). injection H as <-.
  eexists _, i. split; [reflexivity|]. split; [reflexivity|]. split; [exact Ei|].
  destruct (String.eqb mt "movie"); [left|right]; reflexivity.
Qed.

Lemma similar_cards_shape (mt : string) (items out : list jval) :
  similar_cards mt items = Val out ->
  (length out <= length items)%nat /\ Forall similar_card_ok out.
Proof.
  revert out. induction items as [|it rest IH]; intros out H.
  - injection H as <-. split; [reflexivity|constructor].
  - cbn [similar_cards] in H. apply ebind_val in H as (c & Hc & H).
    apply ebind_val in H as (cs & Hcs & H). injection H as <-.
    destruct (IH cs Hcs) as [Hl Hf]. destruct c as [c|].
    + split; [cbn; lia|]. constructor; [exact (similar_card_shape _ _ _ Hc)|exact Hf].
    + split; [cbn; lia|exact Hf].
Qed.

Lemma similar_parse_shape (mt : string) (r : response) (out : list jval) :
  similar_parse mt r = Val out -> similar_list_ok out.
Proof.
  assert (Hnil : similar_list_ok []) by (split; [cbn; lia|constructor]).
  unfold similar_parse. destruct (resp_status r =? 200); [|intros [= <-]; exact Hnil].
  destruct (json_loads (resp_body r)) as [data|]; [|discriminate].
  intros H. apply ebind_val in H as (res0 & _ & H).
  destruct (jor res0 (JArr [])) as [| | | | |res|]; try (injection H as <-; exact Hnil).
  apply similar_cards_shape in H as [Hl Hf]. split; [|exact Hf].
  rewrite length_take in Hl. lia.
Qed.

Lemma enrich_card_enriched (app : App) (con : DB) (card : list (string * jval))
    (l : string) (rg : option string) :
  post (_enrich_card app con card l rg) (enriched card).
Proof.
  unfold _enrich_card.
  apply (post_bind _ _ _ _ (post_any _)). intros tid _. cbv zeta.
  destruct ((tid <=? 0) || _); [apply post_ret, enriched_refl|].
  apply (post_bind _ _ _ _ (post_any _)). intros _ _.
  apply (post_bind _ _ (enriched card)).
  - destruct (enrich_row con _ tid) as [r|]; [|apply post_ret, enriched_refl].
    apply post_lift. intros card' E.
    exact (enrich_from_row_enriched _ _ _ _ _ _ _ _ _ E).
  - intros card1 E1. apply post_ret.
    apply (enriched_trans _ _ _ E1).
    set (card2 := if negb (jtruthy (dget "logo" card1))
                  then assoc_set "logo" (dget "poster" card1) card1 else card1).
    assert (E2 : enriched card1 card2).
    { subst card2. destruct (negb (jtruthy (dget "logo" card1)));
        [|apply enriched_refl].
      apply enriched_set; [right; right; now left|discriminate..]. }
    apply (enriched_trans _ _ _ E2).
    destruct (dhas "backdrop" card2) eqn:E; cbn [negb]; [apply enriched_refl|].
    apply enriched_set; [right; right; right; now left|discriminate|discriminate|].
    intros _. unfold dhas in E. unfold dget.
    destruct (assoc "backdrop" card2); [discriminate|reflexivity].
Qed.

Lemma enrich_all_similar (app : App) (con : DB) (cards : list jval)
    (l : string) (r : option string) :
  Forall similar_card_ok cards ->
  post (enrich_all app con cards l r)
       (fun out => length out = length cards /\ Forall similar_card_ok out).
Proof.
  unfold enrich_all. induction cards as [|c rest IH]; intros Hf; cbn [mapM].
  - apply post_ret. split; [reflexivity|constructor].
  - inversion Hf as [|? ? Hc Hrest]; subst.
    destruct Hc as (kv & i & -> & Hid & Hi & Hk).
    apply (post_bind _ _ similar_card_ok).
    + apply (post_bind _ _ _ _ (enrich_card_enriched app con kv l r)).
      intros kv' (Ha & _). apply post_ret. exists kv', i.
      split; [reflexivity|].
      assert (Hn : forall k, k = "id" \/ k = "kind" ->
                   ~ In k ["name"; "description"; "logo"; "backdrop"]).
      { intros k [->| ->] [H|[H|[H|[H|[]]]]]; discriminate. }
      rewrite !Ha by (apply Hn; auto). auto.
    + intros y Hy. apply (post_bind _ _ _ _ (IH Hrest)). intros ys [Hl Hys].
      apply post_ret. split; [cbn; congruence|]. constructor; [exact Hy|exact Hys].
Qed.

(** X24.  A list of similar titles is short and well formed: when every
    list of the cache has at most 24 cards, each a dictionary with a
    positive id and the kind movie or series, so has the list
    [_tmdb_similar] returns, from the cache or from the Provider, and so
    has every list of the cache afterwards. *)
Theorem similar_list_bounded (app : App) (kind : string) (tid : Z)
    (l : string) (r : option string) (w : World) (out : list jval) (w' : World) :
  similar_cache_ok w ->
  _tmdb_similar app kind tid l r w = Ok out w' ->
  (length out <= 24)%nat /\ Forall similar_card_ok out /\ similar_cache_ok w'.
Proof.
  intros Hinv H.
  assert (Hnil : similar_list_ok []) by (split; [cbn; lia|constructor]).
  assert (Hkeep : forall w1, same_similar w w1 -> similar_cache_ok w1).
  { intros w1 E k t o. rewrite E. apply Hinv. }
  unfold _tmdb_similar in H.
  destruct (negb (str_truthy (tmdb_key app))).
  { injection H as <- <-. destruct Hnil. auto. }
  cbv zeta in H.
  apply bind_ok in H as (now & w1 & Hnow & H).
  assert (E1 : same_similar w w1) by (injection Hnow as _ <-; reflexivity).
  apply bind_ok in H as (w0 & w2 & Hw & H). injection Hw as <- <-.
  destruct (cache_fresh (similar_cache w1 !! _) now (similar_ttl_s app))
    as [out0|] eqn:Ec.
  { injection H as <- <-.
    assert (Hin : exists t0, similar_cache w1 !! (kind, tid, _lang_tag l r)
                             = Some (t0, out0)).
    { unfold cache_fresh in Ec.
      destruct (similar_cache w1 !! _) as [[t0 v]|]; [|discriminate].
      destruct (Qltb (now - t0) (similar_ttl_s app)); [|discriminate].
      injection Ec as ->. eauto. }
    destruct Hin as (t0 & Hin). destruct (Hkeep w1 E1 _ _ _ Hin). auto. }
  apply bind_ok in H as (fetched & w3 & Hf & H).
  assert (E3 : same_similar w1 w3).
  { refine (respects_ok same_similar _ _ _ _ _ Hf).
    repeat first [ apply same_similar_open | respects_step ]. }
  assert (Hfetched : forall o, fetched = Some o -> similar_list_ok o).
  { match type of Hf with
    | ?m _ = _ =>
        assert (Hp : post m (fun f => forall o, f = Some o -> similar_list_ok o))
    end.
    { apply post_catch.
      - apply (post_bind _ _ _ _ (post_any _)). intros [resp|] _.
        + apply (post_bind _ _ similar_list_ok).
          * apply post_lift. intros o. apply similar_parse_shape.
          * intros o Ho. apply post_ret. intros o' [= <-]. exact Ho.
        + apply post_ret. discriminate.
      - apply post_ret. intros o [= <-]. exact Hnil. }
    exact (Hp _ _ _ Hf). }
  destruct fetched as [out1|].
  2:{ injection H as <- <-. destruct Hnil.
      split; [assumption|]. split; [assumption|].
      apply Hkeep. etransitivity; [exact E1|exact E3]. }
  destruct (Hfetched out1 eq_refl) as [Hl1 Hf1].
  apply bind_ok in H as (out2 & w4 & He & H).
  assert (E4 : same_similar w3 w4).
  { refine (respects_ok same_similar _ _ _ _ _ He).
    destruct out1; [apply respects_ret; exact _|].
    apply respects_bind; [exact _| |intros con; apply same_similar_enrich_all].
    intros w5. unfold _con. destruct (store_ok w5); reflexivity. }
  assert (Hout2 : similar_list_ok out2).
  { destruct out1 as [|c1 rest1] eqn:Eo.
    - injection He as <- _. exact Hnil.
    - rewrite <- Eo in *. clear Eo.
      apply bind_ok in He as (con & w5 & _ & He).
      destruct (enrich_all_similar app con out1 l r Hf1 _ _ _ He) as [Hl2 Hf2].
      split; [lia|exact Hf2]. }
  apply bind_ok in H as (u & w5 & Hm & H). injection H as <- <-.
  unfold modify in Hm. injection Hm as _ <-.
  destruct Hout2 as [Hl2 Hf2]. split; [exact Hl2|]. split; [exact Hf2|].
  intros k t o. cbn [similar_cache set_similar_cache].
  destruct (decide (k = (kind, tid, _lang_tag l r))) as [->|Hne].
  - rewrite lookup_insert_eq. intros [= _ <-]. split; assumption.
  - rewrite lookup_insert_ne by congruence.
    apply (Hkeep w4). etransitivity; [exact E1|].
    etransitivity; [exact E3|exact E4].
Qed.

(** ** The seasons and the episodes of a series *)

Lemma first_season_positive (items : list jval) (sn : Z) :
  first_season items = Val (Some sn) -> 0 < sn.
Proof.
  induction items as [|it rest IH]; [discriminate|].
  destruct it as [| | | | | |kv]; cbn [first_season]; try exact IH.
  intros H. apply ebind_val in H as (x & _ & H).
  destruct (0 <? x) eqn:E; [|exact (IH H)].
  injection H as <-. now apply Z.ltb_lt.
Qed.

(** X25.  [_upsert_tmdb_tv_seasons_episodes] writes the seasons of a
    series and the episodes of one season: when it returns, it has
    executed statements for seasons with a positive number, followed by
    statements for episodes with a positive number, which all belong to
    one season with a positive number. *)
Theorem seasons_then_episodes (app : App) (c : conn) (tid : Z) (lt : string)
    (data : list (string * jval)) (w : World) (c' : conn) (w' : World) :
  _upsert_tmdb_tv_seasons_episodes app c tid lt data w = Ok c' w' ->
  con_db c' = con_db c /\
  exists ss es sn0,
    con_pending c' = (con_pending c ++ ss ++ es)%list /\
    Forall (fun s => exists sn vals, s = W_season tid sn vals /\ 0 < sn /\
                       length vals = 6%nat) ss /\
    0 < sn0 /\
    Forall (fun s => exists en vals, s = W_episode tid sn0 en vals /\ 0 < en /\
                       length vals = 8%nat) es.
Proof.
  unfold _upsert_tmdb_tv_seasons_episodes. intros H.
  apply bind_ok in H as (c1 & w1 & H1 & H).
  apply lift_ok in H1 as [H1 ->].
  assert (Hs : exists ss, con_db c1 = con_db c /\
                 con_pending c1 = (con_pending c ++ ss)%list /\
                 Forall (fun s => exists sn vals, s = W_season tid sn vals /\
                                    0 < sn /\ length vals = 6%nat) ss).
  { assert (Hnil : exists ss, con_db c = con_db c /\
                     con_pending c = (con_pending c ++ ss)%list /\
                     Forall (fun s => exists sn vals, s = W_season tid sn vals /\
                                        0 < sn /\ length vals = 6%nat) ss).
    { exists []. rewrite app_nil_r. repeat split. constructor. }
    destruct (has_seasons app); [|injection H1 as <-; exact Hnil].
    destruct (jor (dget "seasons" data) (JArr [])) as [| | | | |seasons|];
      try (injection H1 as <-; exact Hnil).
    clear Hnil.
    apply (for_each_adds _
             (fun s => exists sn vals, s = W_season tid sn vals /\
                         0 < sn /\ length vals = 6%nat)) in H1.
    - destruct H1 as (ext & Hf & _ & Hd & Hp). eauto.
    - intros it c0 r0 Hr. destruct it as [| | | | | |kv];
        try (injection Hr as <-; now left).
      apply ebind_val in Hr as (sn & _ & Hr).
      destruct (sn <=? 0) eqn:E; [injection Hr as <-; now left|].
      apply Z.leb_gt in E.
      apply ebind_val in Hr as (c2 & He & Hr). injection Hr as <-.
      right. eexists. split; [|exact He]. eexists _, _.
      split; [reflexivity|]. split; [exact E|reflexivity]. }
  destruct Hs as (ss & Hd1 & Hp1 & Hf1).
  assert (Hnone : c' = c1 ->
            con_db c' = con_db c /\
            exists ss es sn0,
              con_pending c' = (con_pending c ++ ss ++ es)%list /\
              Forall (fun s => exists sn vals, s = W_season tid sn vals /\ 0 < sn /\
                                 length vals = 6%nat) ss /\
              0 < sn0 /\
              Forall (fun s => exists en vals, s = W_episode tid sn0 en vals /\
                                 0 < en /\ length vals = 8%nat) es).
  { intros ->. split; [exact Hd1|]. exists ss, [], 1.
    rewrite app_nil_r. split; [exact Hp1|]. split; [exact Hf1|].
    split; [lia|constructor]. }
  destruct (negb (has_episodes app)); [injection H as <- _; now apply Hnone|].
  apply bind_ok in H as (sn & w2 & Hsn & H).
  apply lift_ok in Hsn as [Hsn ->].
  apply ebind_val in Hsn as (items & _ & Hsn).
  destruct sn as [sn|]; [|injection H as <- _; now apply Hnone].
  apply first_season_positive in Hsn.
  apply bind_ok in H as (r & w3 & _ & H).
  destruct (fetch_failed r); [injection H as <- _; now apply Hnone|].
  clear Hnone. apply lift_ok in H as [H _].
  apply ebind_val in H as (eps & _ & H).
  apply (for_each_adds _
           (fun s => exists en vals, s = W_episode tid sn en vals /\
                       0 < en /\ length vals = 8%nat)) in H.
  - destruct H as (es & Hf & _ & Hd & Hp).
    split; [congruence|]. exists ss, es, sn.
    split; [rewrite Hp, Hp1, <- app_assoc; reflexivity|].
    split; [exact Hf1|]. split; [exact Hsn|exact Hf].
  - intros it c0 r0 Hr. destruct it as [| | | | | |kv];
      try (injection Hr as <-; now left).
    apply ebind_val in Hr as (en & _ & Hr).
    destruct (en <=? 0) eqn:E; [injection Hr as <-; now left|].
    apply Z.leb_gt in E.
    apply ebind_val in Hr as (c2 & He & Hr). injection Hr as <-.
    right. eexists. split; [|exact He]. eexists _, _.
    split; [reflexivity|]. split; [exact E|reflexivity].
Qed.

End Catalog.

(** * Instances: the properties at concrete inputs *)



(** Witness of C1: the second of two calls for one title, one second
    after the first, submits nothing. *)
Lemma backfill_dedup_witness :
  let w1 := world_of (_schedule_backfill ex_app "movie" 7 "de" None false
                        (ex_world ex_provider_down)) in
  exists w', _schedule_backfill ex_app "movie" 7 "de" None false w1 = Ok tt w' /\
    backfill_queue w' = backfill_queue w1 /\
    backfill_inflight w' = backfill_inflight w1 /\
    backfill_recent w' = backfill_recent w1.
Proof.
  intros w1.
  eapply (proj1 (backfill_dedup ex_loads ex_like ex_accepts ex_app)
            w1 "movie" 7 "de" None false).
  - vm_compute. reflexivity.
  - vm_compute. discriminate.
  - vm_compute. reflexivity.
Defined.

Example two_calls_one_task :
  submissions ex_loads ex_accepts ex_app
    [Op_schedule "movie" 7 "de" None false; Op_tick;
     Op_schedule "movie" 7 "de" None false; Op_worker;
     Op_schedule "movie" 7 "de" None false]
    (ex_world ex_provider_down)
  = [((1000 # 1)%Q, ("movie", 7, "de", 0))].
Proof. vm_compute. reflexivity. Qed.


Example similar_failure_is_cached :
  lookups ex_loads ex_app
    [("movie", 1, "de", None); ("series", 100, "de", None); ("movie", 1, "de", None)]
    (ex_world ex_provider_500)
  = [(("movie", 1, "de"), 1%nat, Some []);
     (("series", 100, "de"), 1%nat, Some []);
     (("movie", 1, "de"), 0%nat, Some [])].
Proof. vm_compute. reflexivity. Qed.

(** Witness of C4: movie 1 has a German row for Germany and none for
    Austria; the request for [de-AT] gets the German row. *)
Lemma translated_fallback_witness :
  _translated ex_app ex_db "movie" 1 "de" (Some "AT")
  = (Some "Deutscher Film", Some "Deutsche Uebersicht").
Proof.
  assert (Hwf : has_translations ex_app = false -> title_translations ex_db = [])
    by (vm_compute; discriminate).
  refine (proj1 (proj2 (translated_fallback ex_loads ex_like ex_accepts
                          ex_app ex_db "movie" 1 "de" (Some "AT") Hwf))
            {| tr_media_type := "movie"; tr_tmdb_id := 1; tr_iso_639_1 := "de";
               tr_iso_3166_1 := "DE"; tr_title := Some "Deutscher Film";
               tr_overview := Some "Deutsche Uebersicht" |} _ _).
  - right. right. exists "AT". split; reflexivity.
  - reflexivity.
Defined.


Example browse_recent_page_1 :
  match app_browse ex_loads ex_like ex_app "recent" 1 "de" None
          (ex_world ex_provider_down) with
  | Ok (Some (JObj page)) _ =>
      dget "page_size" page = JInt 48 /\ dget "has_more" page = JBool false /\
      match dget "items" page with
      | JArr items =>
          map (fun c => match c with JObj kv => dget "name" kv | _ => JNull end) items
          = [JStr "Deutsche Serie"; JStr "Spiel der Throne"; JStr "Deutscher Film"]
      | _ => False
      end
  | _ => False
  end.
Proof. vm_compute. repeat split. Qed.



(** When the store cannot be opened the task raises before its [try]
    block: the key stays in [inflight]. *)
Example run_without_store :
  let w := set_backfill_inflight {[t_key ex_task]} (ex_world ex_provider_down) in
  let w0 := {| clock := clock w; ticks := ticks w; provider := provider w;
               requests := requests w; store := store w; store_ok := false;
               committed := committed w; similar_cache := similar_cache w;
               home_cache := home_cache w; trending_cache := trending_cache w;
               backfill_recent := backfill_recent w;
               backfill_inflight := backfill_inflight w;
               backfill_queue := backfill_queue w; tmdb_tls_bg := tmdb_tls_bg w |} in
  match run ex_loads ex_accepts ex_app ex_task w0 with
  | Exc w' => t_key ex_task ∈ backfill_inflight w' /\ tmdb_tls_bg w' = true
  | Ok _ _ => False
  end.
Proof.
  vm_compute. split; reflexivity.
Qed.

(** Witness of C8: the home object composed from a trending answer of the
    Provider and the sample store, starting with an empty cache. *)
Lemma card_shape_uniformity_witness :
  home_cache_ok (ex_world ex_provider_trending) /\
  match app_home ex_loads ex_like ex_app "en" None ([0; 1]%nat, [1; 0]%nat)
          (ex_world ex_provider_trending) with
  | Ok out w' => home_ok out /\ home_cache_ok w'
  | Exc _ => False
  end.
Proof.
  assert (Hc : home_cache_ok (ex_world ex_provider_trending)).
  { intros k t v E. simpl in E. rewrite lookup_empty in E. discriminate. }
  split; [exact Hc|].
  destruct (app_home ex_loads ex_like ex_app "en" None ([0; 1]%nat, [1; 0]%nat)
              (ex_world ex_provider_trending)) as [out w'|w'] eqn:E.
  - exact (proj2 (proj2 (proj2
             (card_shape_uniformity ex_loads ex_like ex_accepts ex_app "en" None)))
             _ _ _ _ Hc E).
  - vm_compute in E. discriminate.
Defined.

(** Its slider: the trending movie, known to the store, takes its name,
    logo and backdrop from the store and keeps the overview of the
    Provider; the series the store does not have stays as the Provider
    gave it; the person is left out. *)
Example home_slider_of_trending :
  match app_home ex_loads ex_like ex_app "en" None ([0; 1]%nat, [1; 0]%nat)
          (ex_world ex_provider_trending) with
  | Ok (JObj kv) _ =>
      dget "slider" kv =
      JArr [JObj [("id", JInt 1); ("kind", JStr "movie");
                  ("name", JStr "English Movie");
                  ("description", JStr "Provider overview");
                  ("year", JNull); ("rating", JNull); ("poster", JNull);
                  ("logo", JStr "/m1_logo_en.png");
                  ("backdrop", JStr "/m1_backdrop.jpg")];
            JObj [("id", JInt 7); ("kind", JStr "series");
                  ("name", JStr "Trending Show");
                  ("description", JNull);
                  ("year", JNull); ("rating", JNull); ("poster", JNull);
                  ("logo", JNull); ("backdrop", JNull)]]
  | _ => False
  end.
Proof. vm_compute. reflexivity. Qed.

(** Without a Provider key the slider is made of the popular titles of the
    store, described in the language asked for; a browse page has cards
    without a description. *)
Example home_slider_of_store :
  match app_home ex_loads ex_like ex_app_nokey "de" (Some "DE") ([], [])
          (ex_world ex_provider_down) with
  | Ok (JObj kv) _ =>
      exists rest,
        dget "slider" kv =
        JArr (JObj [("id", JInt 1); ("kind", JStr "movie");
                    ("name", JStr "Deutscher Film");
                    ("description", JStr "Deutsche Uebersicht");
                    ("year", JInt 2024); ("rating", JFloat (87 # 10));
                    ("poster", JStr "/m1_poster.jpg");
                    ("logo", JStr "/m1_logo_de.png");
                    ("backdrop", JStr "/m1_backdrop.jpg")] :: rest)
  | _ => False
  end.
Proof. vm_compute. eexists. reflexivity. Qed.

Example browse_card_of_store :
  match app_browse ex_loads ex_like ex_app "popular" 1 "de" (Some "DE")
          (ex_world ex_provider_down) with
  | Ok (Some (JObj kv)) _ =>
      exists rest,
        dget "items" kv =
        JArr (JObj [("id", JInt 100); ("kind", JStr "series");
                    ("name", JStr "Deutsche Serie");
                    ("year", JInt 2024); ("rating", JFloat (91 # 10));
                    ("poster", JStr "/s1_poster.jpg");
                    ("logo", JStr "/s1_logo_de.png");
                    ("backdrop", JStr "/s1_backdrop.jpg")] :: rest)
  | _ => False
  end.
Proof. vm_compute. eexists. reflexivity. Qed.

(** * Instances of the further properties *)


(** Witness of X2: 8 tokens asked of a bucket of capacity 7. *)
Lemma acquire_beyond_capacity_witness :
  snd (acquire (TokenBucket_init 7 (Some 7%Q) 100) 8 [100%Q; 200%Q]) = false.
Proof.
  apply acquire_beyond_capacity.
  - reflexivity.
  - split; vm_compute; discriminate.
  - reflexivity.
Defined.



Example rate_limit_third_request_waits :
  let hits t := [{| h_headers := fun _ => None; h_peer := "192.0.2.1"; h_now := 0 |};
                 {| h_headers := fun _ => None; h_peer := "192.0.2.1"; h_now := 0 |};
                 {| h_headers := fun _ => None; h_peer := "192.0.2.1"; h_now := t |}] in
  fst (passed (Some 1%Q) (Some 2%Q) "192.0.2.1" (hits (1 # 2)%Q) ∅) = 2%nat /\
  fst (passed (Some 1%Q) (Some 2%Q) "192.0.2.1" (hits 1%Q) ∅) = 3%nat.
Proof. vm_compute. split; reflexivity. Qed.

(** Witness of X5: the default limit and a first request. *)
Lemma rate_table_bounded_witness :
  Z.of_nat (size (snd (_rate_allow None None (fun _ => None) "192.0.2.1" 0 ∅)))
  <= 20000.
Proof.
  apply (proj1 (rate_table_bounded None None (fun _ => None) "192.0.2.1" 0 ∅)).
  split; reflexivity.
Defined.

(** Witness of X6: a burst of one half. *)
Lemma rate_allow_small_burst_witness :
  fst (_rate_allow None (Some (1 # 2)%Q) (fun _ => None) "192.0.2.1" 0 ∅) = false.
Proof.
  apply rate_allow_small_burst; reflexivity.
Defined.

(** Witness of X7: two calls for one title, a call for another and a
    worker task, from the world at rest. *)
Lemma scheduler_bookkeeping_witness :
  queue_ok ex_app
    (steps ex_loads ex_accepts ex_app
       [Op_schedule "movie" 7 "de" None false;
        Op_schedule "movie" 7 "de" None false;
        Op_schedule "tv" 9 "de" None true; Op_worker]
       (ex_world ex_provider_down)).
Proof.
  apply scheduler_bookkeeping. split; [constructor|]. split.
  - intros tk H. inversion H.
  - vm_compute. discriminate.
Defined.

Example scheduler_queue_after_calls :
  map t_key
    (backfill_queue
       (steps ex_loads ex_accepts ex_app
          [Op_schedule "movie" 7 "de" None false;
           Op_schedule "movie" 7 "de" None false;
           Op_schedule "tv" 9 "de" None true]
          (ex_world ex_provider_down)))
  = [("movie", 7, "de", 0); ("tv", 9, "de", 1)].
Proof. vm_compute. reflexivity. Qed.

(** Witness of X8: the home page of the application without a key. *)
Lemma no_key_no_request_witness :
  let w := ex_world ex_provider_trending in
  quiet w (world_of (app_home ex_loads ex_like ex_app_nokey "en" None ([], []) w)).
Proof.
  intros w.
  apply (proj1 (no_key_no_request ex_loads ex_like ex_accepts ex_app_nokey
                  eq_refl)).
Defined.

(** Witness of X9: the home page served on a request thread. *)
Lemma bucket_routing_witness :
  let w := ex_world ex_provider_trending in
  exists new,
    requests (world_of (app_home ex_loads ex_like ex_app "en" None
                          ([0; 1]%nat, [1; 0]%nat) w))
    = (requests w ++ new)%list /\
    Forall (fun r => rq_bucket r = Foreground) new.
Proof.
  intros w.
  apply (proj1 (proj2 (bucket_routing ex_loads ex_like ex_accepts ex_app))).
  reflexivity.
Defined.

Example task_requests_in_background :
  map rq_bucket
    (requests (world_of (run ex_loads ex_accepts ex_app ex_task ex_world_submitted)))
  = [Background; Background].
Proof. vm_compute. reflexivity. Qed.

(** Witness of X10: the home page of the sample store. *)
Lemma home_cache_round_trip_witness :
  match app_home ex_loads ex_like ex_app_nokey "de" (Some "DE") ([], [])
          (ex_world ex_provider_down) with
  | Ok out w1 =>
      exists t, home_cache w1 !! _lang_tag "de" (Some "DE") = Some (t, out) /\
        forall rnd2 w2,
          home_cache w2 !! _lang_tag "de" (Some "DE") = Some (t, out) ->
          (clock w2 (ticks w2) - t < home_ttl_s ex_app_nokey)%Q ->
          app_home ex_loads ex_like ex_app_nokey "de" (Some "DE") rnd2 w2
          = Ok out (ticked w2)
  | Exc _ => False
  end.
Proof.
  destruct (app_home ex_loads ex_like ex_app_nokey "de" (Some "DE") ([], [])
              (ex_world ex_provider_down)) as [out w1|w1] eqn:E.
  - exact (home_cache_round_trip ex_loads ex_like ex_app_nokey "de" (Some "DE")
             ([], []) (ex_world ex_provider_down) out w1 E).
  - vm_compute in E. discriminate.
Defined.



(** Witness of X13: a query of two blanks. *)
Lemma search_bounds_witness :
  let w := ex_world ex_provider_down in
  app_search ex_loads ex_like ex_app "  " "en" None w
  = Ok (JObj [("query", JStr EmptyString); ("results", JArr [])]) w.
Proof.
  intros w.
  apply (proj1 (proj2 (search_bounds ex_loads ex_like ex_app "  " "en" None w))).
  reflexivity.
Defined.

(** Witness of X15: German as spoken in Germany. *)
Lemma lang_tag_round_trip_witness :
  _split_lang (_lang_tag "de" (Some "DE")) = ("de", Some "DE").
Proof.
  assert (H : locale_ok ("de", Some "DE"))
    by (vm_compute; repeat split; discriminate).
  exact (proj1 (lang_tag_round_trip ("de", Some "DE") H)).
Defined.

Example pick_lang_messy_input :
  _pick_lang {[ "lang" := ["  PT_br "] ]} (Some "en") = ("pt", Some "BR") /\
  _lang_tag "pt" (Some "BR") = "pt-BR".
Proof. vm_compute. split; reflexivity. Qed.

(** Witness of X16: an ISO date. *)
Lemma year_of_date_witness : _year (JStr "2024-05-01") = Val (JInt 2024).
Proof.
  exact (proj2 (proj2 year_of_date) "2"%char "0"%char "2"%char "4"%char 2 0 2 4 "-05-01"
           eq_refl eq_refl eq_refl eq_refl).
Defined.

(** Witness of X17: the logos of movie 1 of the sample store, asked for
    in German. *)
Lemma pick_logo_priority_witness :
  _pick_logo ex_loads (JStr (ex_logos "m1")) "de" = JStr "/m1_logo_de.png".
Proof.
  refine (proj1 (proj1 (pick_logo_priority ex_loads (JStr (ex_logos "m1")) "de")
                   [("en", JStr "/m1_logo_en.png"); ("de", JStr "/m1_logo_de.png")]
                   _) _); reflexivity.
Defined.

(** A task that raises after it has executed a statement: the credits of
    the Provider carry a number where the list of the cast should be, so
    the task deletes the cast rows and then fails to slice the number.
    Nothing is committed, the rows are kept. *)
Example task_raises_after_delete :
  let body := "{" ++ dq ++ "cast" ++ dq ++ ":5}" in
  let loads := fun s : string =>
    if String.eqb s body then Some (JObj [("cast", JInt 5)]) else None in
  let w := set_backfill_inflight {[t_key ex_task]}
             (ex_world (fun _ _ => WireHTTP 200 [] body)) in
  match run loads ex_accepts ex_app ex_task w with
  | Exc w' =>
      map rq_url (requests w') = [title_url ex_app "movie" 1 "/credits"] /\
      committed w' = []
  | Ok _ _ => False
  end.
Proof. vm_compute. split; reflexivity. Qed.

(** The same task with a cast of one member: it returns, and the delete
    and the insert are committed together. *)
Example task_commits_cast :
  let body := "{" ++ dq ++ "cast" ++ dq ++ ":[{" ++ dq ++ "id" ++ dq ++ ":7,"
              ++ dq ++ "credit_id" ++ dq ++ ":" ++ dq ++ "c7" ++ dq ++ "}]}" in
  let loads := fun s : string =>
    if String.eqb s body
    then Some (JObj [("cast", JArr [JObj [("id", JInt 7); ("credit_id", JStr "c7")]])])
    else None in
  let w := set_backfill_inflight {[t_key ex_task]}
             (ex_world (fun _ _ => WireHTTP 200 [] body)) in
  match run loads ex_accepts ex_app ex_task w with
  | Ok _ w' =>
      committed w' =
        [W_cast_delete "movie" 1;
         W_cast_insert "movie" 1
           [JInt 7; JStr "c7"; JNull; JNull; JNull; JNull; JNull]]
  | Exc _ => False
  end.
Proof. vm_compute. reflexivity. Qed.

(** Witness of X19: two English logos, a French one and an entry without
    a file path; the first English path is kept. *)
Lemma harvest_first_per_language_witness :
  let logo := fun (l p : string) => JObj [("iso_639_1", JStr l); ("file_path", JStr p)] in
  let idata := [("logos", JArr [logo "en" "/a.png"; JObj [("iso_639_1", JStr "de")];
                                logo "fr" "/b.png"; logo "en" "/c.png"])] in
  let d := [("en", JStr "/a.png"); ("fr", JStr "/b.png")] in
  harvest idata = Val (Some d) /\
  exists logos, jor (dget "logos" idata) (JArr []) = JArr logos /\
    d <> [] /\ List.NoDup (keys d) /\
    (forall loc fp, In (loc, fp) d ->
       exists pre it post, logos = (pre ++ it :: post)%list /\
         logo_of it loc fp /\
         forall it' fp', In it' pre -> ~ logo_of it' loc fp') /\
    (forall it loc fp, In it logos -> logo_of it loc fp -> In loc (keys d)).
Proof.
  intros logo idata d. split; [reflexivity|].
  apply (harvest_first_per_language idata d). reflexivity.
Defined.

(** Witness of X20: a card of movie 1 of the sample store with a name and
    a poster only, enriched for German. *)
Lemma enrich_card_keeps_witness :
  let card := [("id", JInt 1); ("kind", JStr "movie"); ("name", JStr "x");
               ("poster", JStr "/p.jpg")] in
  match _enrich_card ex_loads ex_app ex_db card "de" None
          (ex_world ex_provider_down) with
  | Ok card' w' =>
      enriched card card' /\
      exists tid, py_int (jor (dget "id" card) (JInt 0)) = Val tid /\
        if (tid <=? 0) || negb (jstr_eqb (dget "kind" card) "movie"
                                || jstr_eqb (dget "kind" card) "series")
        then card' = card
        else dhas "logo" card' = true /\ dhas "backdrop" card' = true /\
             (jtruthy (dget "logo" card') = true \/
              dget "logo" card' = dget "poster" card)
  | Exc _ => False
  end.
Proof.
  intros card.
  destruct (_enrich_card ex_loads ex_app ex_db card "de" None
              (ex_world ex_provider_down)) as [card' w'|w'] eqn:E.
  - exact (enrich_card_keeps ex_loads ex_app ex_db card "de" None
             (ex_world ex_provider_down) card' w' E).
  - vm_compute in E. discriminate.
Defined.

(** The card of the witness after the enrichment: the German logo of the
    store is found, and the keys the card lacked are added at its end. *)
Example enrich_card_sample :
  let card := [("id", JInt 1); ("kind", JStr "movie"); ("name", JStr "x");
               ("poster", JStr "/p.jpg")] in
  match _enrich_card ex_loads ex_app ex_db card "de" None
          (ex_world ex_provider_down) with
  | Ok card' _ =>
      keys card' = ["id"; "kind"; "name"; "poster"; "description"; "logo"; "backdrop"] /\
      dget "poster" card' = JStr "/p.jpg" /\
      dget "logo" card' = JStr "/m1_logo_de.png"
  | Exc _ => False
  end.
Proof. vm_compute. repeat split. Qed.

(** Witness of X21: of two videos with a key, after an entry that is not a
    dictionary and one without a key, the first is stored. *)
Lemma videos_at_most_one_witness :
  let body := "{" ++ dq ++ "results" ++ dq ++ ":[3,{" ++ dq ++ "id" ++ dq ++ ":"
              ++ dq ++ "v0" ++ dq ++ "},{" ++ dq ++ "key" ++ dq ++ ":" ++ dq ++ "k1"
              ++ dq ++ "," ++ dq ++ "site" ++ dq ++ ":" ++ dq ++ "YouTube" ++ dq
              ++ "},{" ++ dq ++ "key" ++ dq ++ ":" ++ dq ++ "k2" ++ dq ++ "}]}" in
  let loads := fun s : string =>
    if String.eqb s body
    then Some (JObj [("results",
                      JArr [JInt 3; JObj [("id", JStr "v0")];
                            JObj [("key", JStr "k1"); ("site", JStr "YouTube")];
                            JObj [("key", JStr "k2")]])])
    else None in
  let c := {| con_db := ex_db; con_pending := [] |} in
  match _upsert_tmdb_videos loads ex_accepts ex_app c "movie" 1 "en-US"
          (ex_world (fun _ _ => WireHTTP 200 [] body)) with
  | Ok c' _ =>
      con_pending c' =
        [W_video "movie" 1
           [JNull; JStr "k1"; JStr "YouTube"; JNull; JNull; JInt 0; JNull; JNull;
            JNull; JNull]] /\
      con_db c' = con_db c /\
      (con_pending c' = con_pending c \/
       exists vals, con_pending c' = (con_pending c ++ [W_video "movie" 1 vals])%list /\
         length vals = 10%nat /\ jtruthy (nth 1 vals JNull) = true)
  | Exc _ => False
  end.
Proof.
  intros body loads c.
  destruct (_upsert_tmdb_videos loads ex_accepts ex_app c "movie" 1 "en-US"
              (ex_world (fun _ _ => WireHTTP 200 [] body))) as [c' w'|w'] eqn:E.
  - split.
    + vm_compute in E. injection E as <- _. reflexivity.
    + exact (videos_at_most_one loads ex_accepts ex_app c "movie" 1 "en-US"
               (ex_world (fun _ _ => WireHTTP 200 [] body)) c' w' E).
  - vm_compute in E. discriminate.
Defined.

(** Witness of X22: a cast of three entries, the second without a credit
    id. *)
Lemma cast_replaced_witness :
  let body := "{" ++ dq ++ "cast" ++ dq ++ ":[{" ++ dq ++ "id" ++ dq ++ ":7,"
              ++ dq ++ "credit_id" ++ dq ++ ":" ++ dq ++ "c7" ++ dq ++ "," ++ dq
              ++ "name" ++ dq ++ ":" ++ dq ++ "A" ++ dq ++ "},{" ++ dq ++ "id" ++ dq
              ++ ":8},{" ++ dq ++ "id" ++ dq ++ ":9," ++ dq ++ "credit_id" ++ dq
              ++ ":" ++ dq ++ "c9" ++ dq ++ "}]}" in
  let loads := fun s : string =>
    if String.eqb s body
    then Some (JObj [("cast",
                      JArr [JObj [("id", JInt 7); ("credit_id", JStr "c7");
                                  ("name", JStr "A")];
                            JObj [("id", JInt 8)];
                            JObj [("id", JInt 9); ("credit_id", JStr "c9")]])])
    else None in
  let c := {| con_db := ex_db; con_pending := [] |} in
  match _upsert_tmdb_cast loads ex_accepts ex_app c "movie" 1
          (ex_world (fun _ _ => WireHTTP 200 [] body)) with
  | Ok c' _ =>
      con_pending c' =
        [W_cast_delete "movie" 1;
         W_cast_insert "movie" 1
           [JInt 7; JStr "c7"; JNull; JStr "A"; JNull; JNull; JNull];
         W_cast_insert "movie" 1
           [JInt 9; JStr "c9"; JNull; JNull; JNull; JNull; JNull]] /\
      con_db c' = con_db c /\
      (con_pending c' = con_pending c \/
       exists ins,
         con_pending c' = (con_pending c ++ W_cast_delete "movie" 1 :: ins)%list /\
         (length ins <= 24)%nat /\
         Forall (fun s => exists vals, s = W_cast_insert "movie" 1 vals /\
                            length vals = 7%nat /\
                            is_null (nth 0 vals JNull) = false /\
                            is_null (nth 1 vals JNull) = false) ins)
  | Exc _ => False
  end.
Proof.
  intros body loads c.
  destruct (_upsert_tmdb_cast loads ex_accepts ex_app c "movie" 1
              (ex_world (fun _ _ => WireHTTP 200 [] body))) as [c' w'|w'] eqn:E.
  - split.
    + vm_compute in E. injection E as <- _. reflexivity.
    + exact (cast_replaced loads ex_accepts ex_app c "movie" 1
               (ex_world (fun _ _ => WireHTTP 200 [] body)) c' w' E).
  - vm_compute in E. discriminate.
Defined.

(** Witness of X23: a translation whose codes come in the wrong case and
    with blanks around, and one without a region. *)
Lemma translations_normalised_witness :
  let body := "{" ++ dq ++ "translations" ++ dq ++ ":[{" ++ dq ++ "iso_639_1" ++ dq
              ++ ":" ++ dq ++ " DE " ++ dq ++ "," ++ dq ++ "iso_3166_1" ++ dq ++ ":"
              ++ dq ++ "at" ++ dq ++ "," ++ dq ++ "data" ++ dq ++ ":{" ++ dq
              ++ "title" ++ dq ++ ":" ++ dq ++ "T" ++ dq ++ "}},{" ++ dq
              ++ "iso_639_1" ++ dq ++ ":" ++ dq ++ "fr" ++ dq ++ "}]}" in
  let loads := fun s : string =>
    if String.eqb s body
    then Some (JObj [("translations",
                      JArr [JObj [("iso_639_1", JStr " DE "); ("iso_3166_1", JStr "at");
                                  ("data", JObj [("title", JStr "T")])];
                            JObj [("iso_639_1", JStr "fr")]])])
    else None in
  let c := {| con_db := ex_db; con_pending := [] |} in
  match _upsert_tmdb_translations loads ex_accepts ex_app c "movie" 1
          (ex_world (fun _ _ => WireHTTP 200 [] body)) with
  | Ok c' _ =>
      con_pending c' =
        [W_translation "movie" 1
           [JStr "de"; JStr "AT"; JStr "T"; JNull; JNull; JNull]] /\
      con_db c' = con_db c /\
      exists ext, con_pending c' = (con_pending c ++ ext)%list /\
        Forall (fun s => exists l0 r0 rest,
                  s = W_translation "movie" 1
                        (JStr (lower l0) :: JStr (upper r0) :: rest) /\
                  str_truthy (lower l0) = true /\ str_truthy (upper r0) = true /\
                  length rest = 4%nat) ext
  | Exc _ => False
  end.
Proof.
  intros body loads c.
  destruct (_upsert_tmdb_translations loads ex_accepts ex_app c "movie" 1
              (ex_world (fun _ _ => WireHTTP 200 [] body))) as [c' w'|w'] eqn:E.
  - split.
    + vm_compute in E. injection E as <- _. reflexivity.
    + exact (translations_normalised loads ex_accepts ex_app c "movie" 1
               (ex_world (fun _ _ => WireHTTP 200 [] body)) c' w' E).
  - vm_compute in E. discriminate.
Defined.

(** Witness of X24: the Provider lists two similar titles and an entry
    without an id, and the cache is empty. *)
Lemma similar_list_bounded_witness :
  let body := "{" ++ dq ++ "results" ++ dq ++ ":[{" ++ dq ++ "id" ++ dq ++ ":1,"
              ++ dq ++ "title" ++ dq ++ ":" ++ dq ++ "A" ++ dq ++ "},{" ++ dq
              ++ "title" ++ dq ++ ":" ++ dq ++ "B" ++ dq ++ "},{" ++ dq ++ "id"
              ++ dq ++ ":77," ++ dq ++ "title" ++ dq ++ ":" ++ dq ++ "C" ++ dq
              ++ "}]}" in
  let loads := fun s : string =>
    if String.eqb s body
    then Some (JObj [("results",
                      JArr [JObj [("id", JInt 1); ("title", JStr "A")];
                            JObj [("title", JStr "B")];
                            JObj [("id", JInt 77); ("title", JStr "C")]])])
    else ex_loads s in
  let w := ex_world (fun _ _ => WireHTTP 200 [] body) in
  similar_cache_ok w /\
  match _tmdb_similar loads ex_app "movie" 5 "en" None w with
  | Ok out w' =>
      map (fun c => match c with JObj kv => dget "id" kv | _ => JNull end) out
        = [JInt 1; JInt 77] /\
      (length out <= 24)%nat /\ Forall similar_card_ok out /\ similar_cache_ok w'
  | Exc _ => False
  end.
Proof.
  intros body loads w.
  assert (Hw : similar_cache_ok w).
  { intros k t o H. cbn [w ex_world similar_cache] in H.
    rewrite lookup_empty in H. discriminate. }
  split; [exact Hw|].
  destruct (_tmdb_similar loads ex_app "movie" 5 "en" None w) as [out w'|w'] eqn:E.
  - split.
    + vm_compute in E. injection E as <- _. reflexivity.
    + exact (similar_list_bounded loads ex_app "movie" 5 "en" None w out w' Hw E).
  - vm_compute in E. discriminate.
Defined.

(** Witness of X25: a series with the specials, as season 0, and two
    seasons; the Provider answers the request for season 1 with two
    episodes. *)
Lemma seasons_then_episodes_witness :
  let body := "{" ++ dq ++ "episodes" ++ dq ++ ":[{" ++ dq ++ "episode_number" ++ dq
              ++ ":1},{" ++ dq ++ "episode_number" ++ dq ++ ":2}]}" in
  let loads := fun s : string =>
    if String.eqb s body
    then Some (JObj [("episodes",
                      JArr [JObj [("episode_number", JInt 1)];
                            JObj [("episode_number", JInt 2)]])])
    else None in
  let data := [("seasons", JArr [JObj [("season_number", JInt 0)];
                                 JObj [("season_number", JInt 1)];
                                 JObj [("season_number", JInt 2)]])] in
  let c := {| con_db := ex_db; con_pending := [] |} in
  match _upsert_tmdb_tv_seasons_episodes loads ex_accepts ex_app c 10 "en" data
          (ex_world (fun _ _ => WireHTTP 200 [] body)) with
  | Ok c' w' =>
      map rq_url (requests w') =
        [title_url ex_app "tv" 10 "/season/1" ++ "&language=en"] /\
      con_db c' = con_db c /\
      exists ss es sn0,
        con_pending c' = (con_pending c ++ ss ++ es)%list /\
        Forall (fun s => exists sn vals, s = W_season 10 sn vals /\ 0 < sn /\
                           length vals = 6%nat) ss /\
        0 < sn0 /\
        Forall (fun s => exists en vals, s = W_episode 10 sn0 en vals /\ 0 < en /\
                           length vals = 8%nat) es
  | Exc _ => False
  end.
Proof.
  intros body loads data c.
  destruct (_upsert_tmdb_tv_seasons_episodes loads ex_accepts ex_app c 10 "en" data
              (ex_world (fun _ _ => WireHTTP 200 [] body))) as [c' w'|w'] eqn:E.
  - split.
    + vm_compute in E. injection E as _ <-. reflexivity.
    + exact (seasons_then_episodes loads ex_accepts ex_app c 10 "en" data
               (ex_world (fun _ _ => WireHTTP 200 [] body)) c' w' E).
  - vm_compute in E. discriminate.
Defined.
